(** * go-workflow: the scheduling core of [workflow.go], embedded in Rocq

    The development follows the Go source function by function.  A [Steper]
    is an interface value compared by identity, so it is modelled by a name
    (a [positive]); Go's [nil] is the [None] of an [option].  The maps of the
    [Workflow] struct are stdpp finite maps.  A nil-pointer dereference (a
    method called on the [*State] that [StateOf] returned as [nil]) is the
    [None] of the option monad in which the functions below run. *)

From stdpp Require Import gmap list strings.

#[local] Set Warnings "-clear-no-such-hyp".

Abbreviation Steper := positive (only parsing).
Abbreviation Loc := positive (only parsing).

(** ** Statuses, errors, phases *)

(** Modelled from the spec: [StepStatus] and its constants are declared
    outside [workflow.go], except [scanned]; section 3 lists "Pending
    (initial), Running, Succeeded, Failed, Canceled, Skipped".  It is a
    string type in Go: any other string a [Condition] may return is an
    [OtherStatus]. *)
Inductive StepStatus :=
  | Pending | Running | Failed | Succeeded | Canceled | Skipped
  | scanned
  | OtherStatus (name : string).

#[global] Instance StepStatus_eq_dec : EqDecision StepStatus.
Proof. solve_decision. Defined.

(** Modelled from the spec: [StepStatus.IsTerminated] is declared outside
    [workflow.go]; "Terminal = any of the last four". *)
Definition StatusIsTerminated (s : StepStatus) : bool :=
  match s with
  | Failed | Succeeded | Canceled | Skipped => true
  | _ => false
  end.

(** Modelled from the spec: the error types [ErrSkip], [ErrInput] and
    [ErrPanic] are declared outside [workflow.go], which wraps with the
    last two; the context errors are Go's.  These are the error values
    that flow through a step. *)
Inductive GoError :=
  | UserError (msg : string)
  | ContextCanceled
  | DeadlineExceeded
  | ErrSkip
  | ErrInput (e : GoError)
  | ErrPanic (e : GoError).

#[global] Instance GoError_eq_dec : EqDecision GoError.
Proof. solve_decision. Defined.

(** Modelled from the spec: [StatusError] is declared outside
    [workflow.go]; "pair (StepStatus, error?)". *)
Record StatusError := mkStatusError {
  Status : StepStatus;
  Err : option GoError;
}.

#[global] Instance StatusError_eq_dec : EqDecision StatusError.
Proof. solve_decision. Defined.

(** Modelled from the spec: the errors [Do] can return are declared
    outside [workflow.go], which makes the last three as maps
    ([make(ErrWorkflow)] and the like) and names the first;
    [ErrWorkflowHasRun] is the "has run" error of section 5. *)
Inductive DoError :=
  | ErrWorkflowIsRunning
  | ErrWorkflowHasRun
  | ErrUnexpectStepInitStatus (m : gmap Steper StepStatus)
  | ErrCycleDependency (m : gmap Steper (list Steper))
  | ErrWorkflow (m : gmap Steper StatusError).

(** Modelled from the spec: [Phase] and its constants are declared outside
    [workflow.go]; "element of the totally ordered sequence
    [Init, Main, Defer]".  [PhaseUnknown] is what [PhaseOf] answers for a
    step in none of them. *)
Inductive Phase := PhaseUnknown | PhaseInit | PhaseMain | PhaseDefer.

#[global] Instance Phase_eq_dec : EqDecision Phase.
Proof. solve_decision. Defined.

Definition Phase_to_nat (p : Phase) : nat :=
  match p with PhaseUnknown => 0 | PhaseInit => 1 | PhaseMain => 2 | PhaseDefer => 3 end.
Definition Phase_of_nat (n : nat) : Phase :=
  match n with 0 => PhaseUnknown | 1 => PhaseInit | 2 => PhaseMain | _ => PhaseDefer end.

#[global] Instance Phase_countable : Countable Phase.
Proof. apply (inj_countable' Phase_to_nat Phase_of_nat). by intros []. Defined.

(** Modelled from the spec: [WorkflowPhases] is declared outside
    [workflow.go]; "the totally ordered sequence [Init, Main, Defer]". *)
Definition WorkflowPhases : list Phase := [PhaseInit; PhaseMain; PhaseDefer].

(** ** Step code: contexts, outcomes, panics *)

Record Context := mkContext {
  ctxDone : bool;
  ctxTags : list string;
}.

(** The value a Go [panic] carries: an [error], or any other value, kept as
    the text that [fmt.Errorf("%s", r)] prints for it. *)
Inductive PanicValue :=
  | PanicError (e : GoError)
  | PanicOther (text : string).

(** What a call of user code does: it returns, or it panics. *)
Inductive Outcome (A : Type) :=
  | Returns (a : A)
  | Panics (v : PanicValue).
Arguments Returns {A} a.
Arguments Panics {A} v.

(** ** Per-step configuration and state *)

Definition ConditionFn := Context → gmap Steper StatusError → StepStatus.
Definition InputFn := Context → Outcome (option GoError).

(** Modelled from the spec: [StepConfig] is declared outside
    [workflow.go]; section 3 gives the fields (upstream set, gating
    condition, input callbacks; timeout and retry are real-time behaviour
    and are left to the runner). *)
Record StepConfig := mkStepConfig {
  Upstreams : gset Steper;
  Condition : option ConditionFn;
  Input : list InputFn;
}.

(** Modelled from the spec: the zero value of [StepConfig]. *)
Definition emptyConfig : StepConfig := mkStepConfig ∅ None [].

(** Modelled from the spec: [State] is declared outside [workflow.go];
    "current StepStatus, terminal error, merged StepConfig". *)
Record State := mkState {
  statusError : StatusError;
  Config : StepConfig;
}.

(** Modelled from the spec: [new(State)] is the zero value of a struct
    declared outside [workflow.go]; its status is "Pending (initial)". *)
Definition newState : State := mkState (mkStatusError Pending None) emptyConfig.

(** Modelled from the spec: the methods of [State] are declared outside
    [workflow.go]; each reads or writes the one field its name says. *)
Definition GetStatus (s : State) : StepStatus := Status (statusError s).

(** Modelled from the spec: [State.GetStatusError], the pair as it is. *)
Definition GetStatusError (s : State) : StatusError := statusError s.

(** Modelled from the spec: [State.SetStatus] writes the status only. *)
Definition SetStatus (ss : StepStatus) (s : State) : State :=
  mkState (mkStatusError ss (Err (statusError s))) (Config s).

(** Modelled from the spec: [State.SetError] writes the error only. *)
Definition SetError (e : option GoError) (s : State) : State :=
  mkState (mkStatusError (Status (statusError s)) e) (Config s).

(** Modelled from the spec: [State.Upstreams], the upstream set of the
    config. *)
Definition StateUpstreams (s : State) : gset Steper := Upstreams (Config s).

(** Modelled from the spec: [State.AddUpstream] adds to the upstream set
    ("adding upstreams"). *)
Definition AddUpstream (up : Steper) (s : State) : State :=
  mkState (statusError s)
    (mkStepConfig ({[up]} ∪ Upstreams (Config s)) (Condition (Config s)) (Input (Config s))).

(** Modelled from the spec: [State.MergeConfig] is declared outside
    [workflow.go]; "StepConfig (per step, mergeable)": the upstream sets
    are united, the input callbacks appended, a condition given later
    replaces the earlier one. *)
Definition MergeConfig (c : StepConfig) (s : State) : State :=
  mkState (statusError s)
    (mkStepConfig (Upstreams (Config s) ∪ Upstreams c)
       (match Condition c with Some f => Some f | None => Condition (Config s) end)
       (Input (Config s) ++ Input c)).

(** Modelled from the spec: [State.Input] is declared outside
    [workflow.go]; "ordered list of thunks invoked just before do": the
    callbacks in order, stopping at the first that fails or panics. *)
Fixpoint runInput (fs : list InputFn) (ctx : Context) : Outcome (option GoError) :=
  match fs with
  | [] => Returns None
  | f :: fs' =>
      match f ctx with
      | Returns None => runInput fs' ctx
      | r => r
      end
  end.

(** ** The Step Tree *)

(** Modelled from the spec: [StepTree] ([IsRoot], [RootOf], [Add]) is
    declared outside [workflow.go], which only shows that it is a map from
    a step to its container.  Section 4.1: [isRoot] is "true iff tree maps
    step to itself", [rootOf] is the "climb to the top", [add] "registers
    step and recursively every descendant" and "returns the set of
    previously-registered roots that have now become descendants". *)
Module StepTree.

(** Modelled from the spec: "true iff tree maps step to itself". *)
Definition IsRoot (t : gmap Steper Steper) (s : Steper) : bool :=
  bool_decide (t !! s = Some s).

(** Modelled from the spec: "O(depth) climb to the top", from a step to
    its container until a step that is its own container. *)
Fixpoint climb (fuel : nat) (t : gmap Steper Steper) (s : Steper) : option Steper :=
  match t !! s with
  | None => None
  | Some p =>
      if decide (p = s) then Some s
      else match fuel with
           | 0 => None
           | S n => climb n t p
           end
  end.

(** Modelled from the spec: [rootOf].  A climb visits distinct entries of
    the map, so [size t] steps reach the top of every chain that has
    one. *)
Definition RootOf (t : gmap Steper Steper) (s : Steper) : option Steper :=
  climb (size t) t s.

(** Modelled from the spec: [add] "registers step and recursively every
    descendant it exposes" and "returns the set of previously-registered
    roots that have now become descendants".  It is given the descendants
    that the step exposes, each with its container, a container before
    what it contains; it makes the step a root and records every
    descendant under its container. *)
Definition Add (descendants : list (Steper * Steper)) (t : gmap Steper Steper)
    (step : Steper) : gmap Steper Steper * gset Steper :=
  (fold_left (λ acc dc, <[dc.1 := dc.2]> acc) descendants (<[step := step]> t),
   list_to_set (filter (λ d, IsRoot t d = true) descendants.*1)).

End StepTree.

(** ** The workflow *)

(** A notifier: [BeforeStep] may replace the context; [AfterStep] only has
    effects, so it is a label and each of its calls is logged. *)
Record Notify := mkNotify {
  BeforeStep : option (Context → Steper → Context);
  AfterStep : option string;
}.

Record AfterCall := mkAfterCall {
  afterHook : string;
  afterCtx : Context;
  afterStep : Steper;
  afterErr : option GoError;
}.

(** A [*State] as [StateOf] returns it: the object of a root in the
    workflow's own table (every root owns the object that [new(State)]
    made for it), or an object that a nested workflow owns. *)
Inductive StateRef :=
  | RootState (s : Steper)
  | InnerState (l : Loc).

#[global] Instance StateRef_eq_dec : EqDecision StateRef.
Proof. solve_decision. Defined.

Record Workflow := mkWorkflow {
  tree : gmap Steper Steper;
  state : gmap Steper State;
  steps : gmap Phase (gset Steper);
  inner : gmap Loc State;
  isRunning : bool;
  leaseBucket : option nat;
  notify : list Notify;
  DontPanic : bool;
}.

(** [new(Workflow)]. *)
Definition newWorkflow : Workflow :=
  mkWorkflow ∅ ∅ ∅ ∅ false None [] false.

Definition deref (w : Workflow) (r : StateRef) : option State :=
  match r with
  | RootState s => state w !! s
  | InnerState l => inner w !! l
  end.

Definition update (w : Workflow) (r : StateRef) (f : State → State) : Workflow :=
  match r with
  | RootState s =>
      mkWorkflow (tree w) (alter f s (state w)) (steps w) (inner w)
        (isRunning w) (leaseBucket w) (notify w) (DontPanic w)
  | InnerState l =>
      mkWorkflow (tree w) (state w) (steps w) (alter f l (inner w))
        (isRunning w) (leaseBucket w) (notify w) (DontPanic w)
  end.

Definition statusAt (w : Workflow) (r : StateRef) : option StepStatus :=
  GetStatus <$> deref w r.

Definition empty (w : Workflow) : bool :=
  bool_decide (size (tree w) = 0) || bool_decide (size (state w) = 0)
  || bool_decide (size (steps w) = 0).

Fixpoint foldM {A B : Type} (f : B → A → option B) (b : B) (l : list A) : option B :=
  match l with
  | [] => Some b
  | a :: l' => b' ← f b a; foldM f b' l'
  end.

(** ** The environment of a workflow

    What [workflow.go] takes from outside: the order in which [range]
    visits a map (Go leaves it unspecified, so it is any enumeration of the
    entries); the capabilities a container may have besides [Do] (a nested
    workflow answers [StateOf] and [RootOf] for the steps it manages); what
    [Unwrap] exposes of each step; [DefaultCondition], [DefaultIsCanceled]
    and the method behind [errors.Is(err, &ErrSkip{})], all declared outside
    [workflow.go]; and the [Do] method of each step. *)
Record Env := mkEnv {
  rangeMap : ∀ A : Type, gmap Steper A → list (Steper * A);
  rangeSet : gset Steper → list Steper;
  nestedStateOf : Steper → option (Steper → option Loc);
  nestedRootOf : Steper → option (Steper → option Steper);
  nest : Steper → list (Steper * Steper);
  DefaultCondition : ConditionFn;
  DefaultIsCanceled : GoError → bool;
  IsErrSkip : GoError → bool;
  stepDo : Steper → Context → Outcome (option GoError);
}.

(** [range] visits every entry once. *)
Definition rangeOk (E : Env) : Prop :=
  (∀ A (m : gmap Steper A), rangeMap E A m ≡ₚ map_to_list m)
  ∧ (∀ s : gset Steper, rangeSet E s ≡ₚ elements s).

Section Core.

Variable E : Env.

Definition RootOf (w : Workflow) (step : Steper) : option Steper :=
  if empty w then None else StepTree.RootOf (tree w) step.

Definition StateOf (w : Workflow) (step : Steper) : option StateRef :=
  if empty w then None
  else match tree w !! step with
       | None => None
       | Some ancestor =>
           if decide (ancestor = step) then
             (const (RootState step) <$> state w !! step)
           else match nestedStateOf E ancestor with
                | Some inner_StateOf => InnerState <$> inner_StateOf step
                | None =>
                    root ← RootOf w ancestor;
                    const (RootState root) <$> state w !! root
                end
       end.

(** [w.StateOf(step)] followed by a method call: the call dereferences. *)
Definition stateAt (w : Workflow) (step : Steper) : option State :=
  r ← StateOf w step; deref w r.

Definition bucketHas (w : Workflow) (phase : Phase) (root : option Steper) : bool :=
  match steps w !! phase, root with
  | Some b, Some r => bool_decide (r ∈ b)
  | _, _ => false
  end.

Definition PhaseOf (w : Workflow) (step : Steper) : Phase :=
  if empty w then PhaseUnknown
  else
    let root := RootOf w step in
    default PhaseUnknown (find (λ phase, bucketHas w phase root) WorkflowPhases).

(** The inner loop of [UpstreamOf]: [up = w.RootOf(up)], then
    [rv[up] = w.StateOf(up).GetStatusError()]. *)
Definition addUpstreamEntry (w : Workflow) (rv : gmap Steper StatusError) (up : Steper)
    : option (gmap Steper StatusError) :=
  up' ← RootOf w up;
  st ← stateAt w up';
  Some (<[up' := GetStatusError st]> rv).

Definition UpstreamOf (w : Workflow) (step : Steper) : option (gmap Steper StatusError) :=
  if empty w then Some ∅
  else
    let root := RootOf w step in
    foldM (λ rv phase,
             if bucketHas w phase root then
               r ← root;
               st ← stateAt w r;
               foldM (addUpstreamEntry w) rv (rangeSet E (StateUpstreams st))
             else Some rv)
          ∅ WorkflowPhases.

Definition DownstreamOf (w : Workflow) (step : Steper) : option (gmap Steper StatusError) :=
  if empty w then Some ∅
  else
    let root := tree w !! step in
    foldM (λ rv phase,
             foldM (λ rv down,
                      st ← stateAt w down;
                      foldM (λ rv up,
                               if decide (RootOf w up = root)
                               then Some (<[down := GetStatusError st]> rv)
                               else Some rv)
                            rv (rangeSet E (StateUpstreams st)))
                   rv (rangeSet E (default ∅ (steps w !! phase))))
          ∅ WorkflowPhases.

(** [IsPhaseTerminated]: the loop returns [false] at the first step that is
    not terminated. *)
Fixpoint allTerminated (w : Workflow) (l : list Steper) : option bool :=
  match l with
  | [] => Some true
  | step :: l' =>
      st ← stateAt w step;
      if StatusIsTerminated (GetStatus st) then allTerminated w l' else Some false
  end.

Definition IsPhaseTerminated (w : Workflow) (phase : Phase) : option bool :=
  if empty w then Some true
  else allTerminated w (rangeSet E (default ∅ (steps w !! phase))).

Fixpoint allPhasesTerminated (w : Workflow) (ps : list Phase) : option bool :=
  match ps with
  | [] => Some true
  | phase :: ps' =>
      t ← IsPhaseTerminated w phase;
      if (t : bool) then allPhasesTerminated w ps' else Some false
  end.

Definition IsTerminated (w : Workflow) : option bool :=
  allPhasesTerminated w WorkflowPhases.

(** ** Building the workflow: [PhaseAdd], [addStep], [setUpstream] *)

Definition withTree (w : Workflow) (t : gmap Steper Steper) : Workflow :=
  mkWorkflow t (state w) (steps w) (inner w) (isRunning w) (leaseBucket w) (notify w) (DontPanic w).
Definition withState (w : Workflow) (m : gmap Steper State) : Workflow :=
  mkWorkflow (tree w) m (steps w) (inner w) (isRunning w) (leaseBucket w) (notify w) (DontPanic w).
Definition withSteps (w : Workflow) (b : gmap Phase (gset Steper)) : Workflow :=
  mkWorkflow (tree w) (state w) b (inner w) (isRunning w) (leaseBucket w) (notify w) (DontPanic w).
Definition withRunning (w : Workflow) (b : bool) : Workflow :=
  mkWorkflow (tree w) (state w) (steps w) (inner w) b (leaseBucket w) (notify w) (DontPanic w).

(** The body of [for old := range w.tree.Add(step)] in [addStep]: merge the
    old root's config into the new root, delete the old root's state, and
    in every bucket that has [old] put [step] in its place. *)
Definition migrate (step : Steper) (w : Workflow) (old : Steper) : option Workflow :=
  so ← state w !! old;
  sn ← state w !! step;
  let st := <[step := MergeConfig (Config so) sn]> (state w) in
  let st := delete old st in
  let bs := (λ b : gset Steper, if bool_decide (old ∈ b) then {[step]} ∪ b ∖ {[old]} else b)
              <$> steps w in
  Some (withSteps (withState w st) bs).

(** [addStep] up to [if config != nil]: lines 81 to 103.  This is all that
    [setUpstream] runs of it, since it passes a nil config. *)
Definition addStepRoot (w : Workflow) (phase : Phase) (step : Steper) : option Workflow :=
  b ← steps w !! phase;
  let w := withSteps w (<[phase := {[step]} ∪ b]> (steps w)) in
  match StateOf w step with
  | Some _ => Some w
  | None =>
      let w := withState w (<[step := newState]> (state w)) in
      let '(t, olds) := StepTree.Add (nest E step) (tree w) step in
      foldM (migrate step) (withTree w t) (rangeSet E olds)
  end.

(** The climb of [setUpstream] to the lowest workflow that manages both
    steps.  The result is the state that receives the upstream, [None]
    inside when the loop returns without recording it. *)
Fixpoint lowestOwner (fuel : nat) (w : Workflow) (step up ancestor : Steper)
    : option (option StateRef) :=
  let climb :=
    if StepTree.IsRoot (tree w) ancestor then Some <$> StateOf w ancestor
    else match fuel with
         | 0 => None
         | S n =>
             match tree w !! ancestor with
             | None => Some None
             | Some a => lowestOwner n w step up a
             end
         end in
  match nestedStateOf E ancestor, nestedRootOf E ancestor with
  | Some inner_StateOf, Some inner_RootOf =>
      match inner_StateOf up with
      | Some _ => r ← inner_RootOf step; l ← inner_StateOf r; Some (Some (InnerState l))
      | None => climb
      end
  | _, _ => climb
  end.

Definition addUpstreamAt (w : Workflow) (r : StateRef) (up : Steper) : option Workflow :=
  _st ← deref w r; Some (update w r (AddUpstream up)).

Definition setUpstream (w : Workflow) (phase : Phase) (step up : Steper) : option Workflow :=
  w ← addStepRoot w phase up;
  match StateOf w up with
  | None => root ← RootOf w step; r ← StateOf w root; addUpstreamAt w r up
  | Some _ =>
      match tree w !! step with
      | None => Some w
      | Some ancestor =>
          o ← lowestOwner (size (tree w)) w step up ancestor;
          match o with
          | None => Some w
          | Some r => addUpstreamAt w r up
          end
      end
  end.

Definition addStep (w : Workflow) (phase : Phase) (step : Steper) (config : option StepConfig)
    : option Workflow :=
  w ← addStepRoot w phase step;
  match config with
  | None => Some w
  | Some c =>
      w ← foldM (λ w up, setUpstream w phase step up) w (rangeSet E (Upstreams c));
      r ← StateOf w step;
      _st ← deref w r;
      Some (update w r (MergeConfig (mkStepConfig ∅ (Condition c) (Input c))))
  end.

(** Each adder is the [step -> config] map of its [Done()], in the order
    [range] visits it; a nil step is skipped by [addStep]. *)
Definition PhaseAdd (w : Workflow) (phase : Phase)
    (was : list (list (option Steper * option StepConfig))) : option Workflow :=
  let w := match steps w !! phase with
           | Some _ => w
           | None => withSteps w (<[phase := ∅]> (steps w))
           end in
  foldM (λ w '(step, config),
           match step with
           | None => Some w
           | Some s => addStep w phase s config
           end)
        w (concat was).

Definition Add w was := PhaseAdd w PhaseMain was.
Definition Init w was := PhaseAdd w PhaseInit was.
Definition Defer w was := PhaseAdd w PhaseDefer was.


(** ** Preflight *)

Definition isAllUpstreamScanned (ups : gmap Steper StatusError) : bool :=
  bool_decide (map_Forall (λ _ up, Status up = scanned) ups).

Definition isAnyUpstreamNotTerminated (ups : gmap Steper StatusError) : bool :=
  negb (bool_decide (map_Forall (λ _ up, StatusIsTerminated (Status up) = true) ups)).

(** The first loop of [preflight]. *)
Definition unexpectStatusSteps (w : Workflow) : gmap Steper StepStatus :=
  GetStatus <$> filter (λ kv, GetStatus kv.2 ≠ Pending) (state w).

(** One iteration of the inner loop of the scan; the flag is
    [hasNewScanned]. *)
Definition scanStep (acc : Workflow * bool) (step : Steper) : option (Workflow * bool) :=
  st ← state acc.1 !! step;
  if decide (GetStatus st = scanned) then Some acc
  else
    ups ← UpstreamOf acc.1 step;
    if isAllUpstreamScanned ups
    then Some (update acc.1 (RootState step) (SetStatus scanned), true)
    else Some acc.

Definition scanPass (w : Workflow) : option (Workflow * bool) :=
  foldM scanStep (w, false) (rangeMap E _ (state w)).*1.

(** The outer [for] of the scan: it ends with the first pass that marks
    nothing. *)
Fixpoint scanLoop (fuel : nat) (w : Workflow) : option Workflow :=
  '(w', hasNewScanned) ← scanPass w;
  if (hasNewScanned : bool) then
    match fuel with
    | 0 => Some w'
    | S n => scanLoop n w'
    end
  else Some w'.

(** The third loop: for every step that is not scanned, the upstreams that
    are not scanned. *)
Definition cycleStep (w : Workflow) (acc : gmap Steper (list Steper)) (step : Steper)
    : option (gmap Steper (list Steper)) :=
  st ← state w !! step;
  if decide (GetStatus st = scanned) then Some acc
  else
    ups ← UpstreamOf w step;
    match (filter (λ kv, Status kv.2 ≠ scanned) (rangeMap E _ ups)).*1 with
    | [] => Some acc
    | l => Some (<[step := default [] (acc !! step) ++ l]> acc)
    end.

Definition stepsInCycle (w : Workflow) : option (gmap Steper (list Steper)) :=
  foldM (cycleStep w) ∅ (rangeMap E _ (state w)).*1.

Definition resetPending (w : Workflow) : Workflow :=
  withState w (SetStatus Pending <$> state w).

Definition preflight (w : Workflow) : option (Workflow * option DoError) :=
  let unexpect := unexpectStatusSteps w in
  if bool_decide (0 < size unexpect) then Some (w, Some (ErrUnexpectStepInitStatus unexpect))
  else
    w ← scanLoop (size (state w)) w;
    cyc ← stepsInCycle w;
    if bool_decide (0 < size cyc) then Some (w, Some (ErrCycleDependency cyc))
    else Some (resetPending w, None).

(** ** The tick scheduler *)

(** The first loop of [tick]: the bucket of the first phase that is not
    terminated, [None] inside when there is none ([steps == nil]). *)
Fixpoint selectPhase (w : Workflow) (ps : list Phase) : option (option (gset Steper)) :=
  match ps with
  | [] => Some None
  | phase :: ps' =>
      t ← IsPhaseTerminated w phase;
      if (t : bool) then selectPhase w ps' else Some (steps w !! phase)
  end.

(** What one iteration of [for step := range steps] does to its step. *)
Inductive Visit :=
  | VisitSkip
  | VisitTerminate (nextStatus : StepStatus)
  | VisitLaunch (r : StateRef).

Definition tickStep (w : Workflow) (ctx : Context) (step : Steper) : option (Workflow * Visit) :=
  r ← StateOf w step;
  st ← deref w r;
  if decide (GetStatus st ≠ Pending) then Some (w, VisitSkip)
  else
    ups ← UpstreamOf w step;
    if isAnyUpstreamNotTerminated ups then Some (w, VisitSkip)
    else
      let cond := default (DefaultCondition E) (Condition (Config st)) in
      let nextStatus := cond ctx ups in
      if StatusIsTerminated nextStatus
      then Some (update w r (SetStatus nextStatus), VisitTerminate nextStatus)
      else Some (update w r (SetStatus Running), VisitLaunch r).

Record Ticked := mkTicked {
  tickWorkflow : Workflow;
  tickSignals : nat;
  tickLaunched : list (Steper * StateRef);
}.

Fixpoint tickLoop (w : Workflow) (ctx : Context) (l : list Steper) : option Ticked :=
  match l with
  | [] => Some (mkTicked w 0 [])
  | step :: l' =>
      '(w1, v) ← tickStep w ctx step;
      t ← tickLoop w1 ctx l';
      Some (mkTicked (tickWorkflow t)
              (match v with VisitTerminate _ => S (tickSignals t) | _ => tickSignals t end)
              (match v with VisitLaunch r => (step, r) :: tickLaunched t | _ => tickLaunched t end))
  end.

(** [tick] when no lease is awaited and no goroutine writes meanwhile:
    the workflow after it, the signals it posted, the goroutines it
    started, and its result. *)
Definition tick (w : Workflow) (ctx : Context) : option (Ticked * bool) :=
  sel ← selectPhase w WorkflowPhases;
  match sel with
  | None => Some (mkTicked w 0 [], true)
  | Some b => t ← tickLoop w ctx (rangeSet E b); Some (t, false)
  end.

(** The status a finished goroutine records. *)
Definition resultStatus (err : option GoError) : StepStatus :=
  match err with
  | None => Succeeded
  | Some e =>
      if DefaultIsCanceled E e then Canceled
      else if IsErrSkip E e then Skipped
      else Failed
  end.

(** ** The step runner *)

Definition catchPanicAsError (f : Outcome (option GoError)) : Outcome (option GoError) :=
  match f with
  | Returns e => Returns e
  | Panics (PanicError t) => Returns (Some (ErrPanic t))
  | Panics (PanicOther text) => Returns (Some (ErrPanic (UserError text)))
  end.

Definition notifyStep (w : Workflow) (ctx : Context) (step : Steper)
    : Context * list string :=
  fold_left (λ acc n,
               (match BeforeStep n with Some f => f acc.1 step | None => acc.1 end,
                match AfterStep n with Some h => acc.2 ++ [h] | None => acc.2 end))
            (notify w) (ctx, []).

(** One attempt of a step: the calls of the after-step hooks, and what the
    attempt does.  The deferred after-step call sees [err] as it is when
    the function is left: still nil when the step panics. *)
Definition makeDoForStep (w : Workflow) (step : Steper) (st : State) (ctx : Context)
    : list AfterCall * Outcome (option GoError) :=
  let do := if DontPanic w then catchPanicAsError else (λ f, f) in
  let '(ctx, hooks) := notifyStep w ctx step in
  let after err := (λ h, mkAfterCall h ctx step err) <$> hooks in
  match do (runInput (Input (Config st)) ctx) with
  | Panics v => (after None, do (Panics v))
  | Returns (Some ierr) => (after (Some (ErrInput ierr)), do (Returns (Some (ErrInput ierr))))
  | Returns None =>
      match stepDo E step ctx with
      | Returns err => (after err, do (Returns err))
      | Panics v => (after None, do (Panics v))
      end
  end.

(** ** [Do]: the coordinator and its goroutines *)

Record Run := mkRun {
  runWorkflow : Workflow;
  signals : nat;
  waitGroup : list (Steper * StateRef);
  cursor : option (list Steper);
  finished : bool;
}.

(** The coordinator takes a signal and enters [tick]; [tick] visits the
    next step of its loop; the i-th running goroutine ends with [err].
    These are the writes of this workflow.  A nested workflow that runs as
    a step writes the states it owns ([inner]) through its own [Do]; those
    writes are no events here, so what is stated of a status during the
    run is stated of the states of this workflow's own table. *)
Inductive Event :=
  | EvTick
  | EvVisit
  | EvDone (i : nat) (err : option GoError).

Definition leaseFree (w : Workflow) (running : nat) : bool :=
  match leaseBucket w with
  | None => true
  | Some cap => bool_decide (running < cap)
  end.

Definition restOfLoop (l : list Steper) : option (list Steper) :=
  match l with [] => None | _ => Some l end.

Definition exec (ctx : Context) (r : Run) (ev : Event) : option Run :=
  let w := runWorkflow r in
  match ev with
  | EvTick =>
      match cursor r, finished r, signals r with
      | None, false, S n =>
          sel ← selectPhase w WorkflowPhases;
          match sel with
          | None => Some (mkRun w n (waitGroup r) None true)
          | Some b => Some (mkRun w n (waitGroup r) (restOfLoop (rangeSet E b)) false)
          end
      | _, _, _ => None
      end
  | EvVisit =>
      match cursor r with
      | Some (step :: l) =>
          '(w', v) ← tickStep w ctx step;
          match v with
          | VisitSkip => Some (mkRun w' (signals r) (waitGroup r) (restOfLoop l) false)
          | VisitTerminate _ =>
              Some (mkRun w' (S (signals r)) (waitGroup r) (restOfLoop l) false)
          | VisitLaunch ref =>
              if leaseFree w (length (waitGroup r))
              then Some (mkRun w' (signals r) (waitGroup r ++ [(step, ref)]) (restOfLoop l) false)
              else None
          end
      | _ => None
      end
  | EvDone i err =>
      '(_, ref) ← waitGroup r !! i;
      _st ← deref w ref;
      Some (mkRun (update w ref (λ st, SetError err (SetStatus (resultStatus err) st)))
              (S (signals r)) (delete i (waitGroup r)) (cursor r) (finished r))
  end.

(** Modelled from the spec: [ErrWorkflow.IsNil] is declared outside
    [workflow.go]; "ErrWorkflow reports nil iff every entry is nil". *)
Definition ErrWorkflow_IsNil (e : gmap Steper StatusError) : bool :=
  bool_decide (map_Forall (λ _ se, Err se = None) e).

(** The run from the first signal on, under a schedule of the goroutines:
    [None] when the schedule has an event that cannot happen, or a nil
    state is dereferenced. *)
Definition DoRun (ctx : Context) (sched : list Event) (w : Workflow) : option Run :=
  foldM (exec ctx) (mkRun w 1 [] None false) sched.

Definition Do (ctx : Context) (sched : list Event) (w : Workflow)
    : option (Workflow * option DoError) :=
  if isRunning w then Some (w, Some ErrWorkflowIsRunning)
  else
    let w := withRunning w true in
    if empty w then Some (withRunning w false, None)
    else
      '(w, err) ← preflight w;
      match err with
      | Some e => Some (withRunning w false, Some e)
      | None =>
          r ← DoRun ctx sched w;
          if finished r && bool_decide (waitGroup r = []) then
            let err := GetStatusError <$> state (runWorkflow r) in
            Some (withRunning (runWorkflow r) false,
                  if ErrWorkflow_IsNil err then None else Some (ErrWorkflow err))
          else None
      end.

End Core.
(** ** Vocabulary of the statements *)

Definition sameShape (w w' : Workflow) : Prop :=
  tree w' = tree w ∧ steps w' = steps w ∧
  (∀ s, Config <$> state w' !! s = Config <$> state w !! s) ∧
  (∀ l, Config <$> inner w' !! l = Config <$> inner w !! l).

Definition inPhases (w : Workflow) (root : option positive) : bool :=
  existsb (λ phase, bucketHas w phase root) WorkflowPhases.


(** [p] comes before [q] in [WorkflowPhases]. *)
Definition phaseBefore (p q : Phase) : Prop :=
  p ∈ WorkflowPhases ∧ q ∈ WorkflowPhases ∧ Phase_to_nat p < Phase_to_nat q.

(** The first phase, in the order of [WorkflowPhases], whose bucket has the
    step: what [PhaseOf] answers for a root. *)
Definition firstPhase (w : Workflow) (s : positive) : option Phase :=
  find (λ phase, bucketHas w phase (Some s)) WorkflowPhases.

Definition allTerminal (ups : gmap positive StatusError) : Prop :=
  map_Forall (λ _ up, StatusIsTerminated (Status up) = true) ups.

(** The upstream relation over the roots has the cycle [c]: every member is
    a step of the state table and has the next member, cyclically, among
    the keys of its [UpstreamOf]. *)
Definition hasCycle (E : Env) (w : Workflow) (c : list positive) : Prop :=
  c ≠ [] ∧
  ∀ i s, c !! i = Some s →
    is_Some (state w !! s) ∧
    ∃ u ups, c !! (S i mod length c) = Some u ∧
      UpstreamOf E w s = Some ups ∧ is_Some (ups !! u).

(** Every state is [Pending], as [new(State)] made it. *)
Definition allPending (w : Workflow) : Prop :=
  ∀ s st, state w !! s = Some st → GetStatus st = Pending.

(** [UpstreamOf] dereferences no nil state on the steps of the state
    table. *)
Definition upstreamsDefined (E : Env) (w : Workflow) : Prop :=
  ∀ s, is_Some (state w !! s) → is_Some (UpstreamOf E w s).

(** What [preflight] lists for a step: the upstreams that are not scanned,
    when the step is not scanned and has some. *)
Definition cycleEntry (E : Env) (w : Workflow) (s : positive) : option (list positive) :=
  st ← state w !! s;
  if decide (GetStatus st = scanned) then None
  else
    ups ← UpstreamOf E w s;
    match (filter (λ kv, Status kv.2 ≠ scanned) (rangeMap E _ ups)).*1 with
    | [] => None
    | l => Some l
    end.

(** The steps of the state table that are not scanned. *)
Definition unscanned (w : Workflow) : gset positive :=
  dom (filter (λ kv : positive * State, GetStatus kv.2 ≠ scanned) (state w)).

(** A status moves forward along Pending, Running, terminal: it stays, or
    leaves [Pending] for [Running] or for a terminal status, or leaves
    [Running] for a terminal status. *)
Definition advances (a b : StepStatus) : Prop :=
  a = b
  ∨ (a = Pending ∧ (b = Running ∨ StatusIsTerminated b = true))
  ∨ (a = Running ∧ StatusIsTerminated b = true).

(** The goroutines in flight own distinct states, each [Running]. *)
Definition RunInv (r : Run) : Prop :=
  NoDup (waitGroup r).*2 ∧
  ∀ ref, ref ∈ (waitGroup r).*2 → statusAt (runWorkflow r) ref = Some Running.

(** The entry of a key of [UpstreamOf]: [w.StateOf(up).GetStatusError()]. *)
Definition entryAt (E : Env) (w : Workflow) (k : positive) : option StatusError :=
  GetStatusError <$> stateAt E w k.

(** The upstreams recorded on the state of a root, as [range] lists them. *)
Definition upList (E : Env) (w : Workflow) (r : positive) : list positive :=
  match stateAt E w r with
  | Some st => rangeSet E (StateUpstreams st)
  | None => []
  end.

(** The body of the loop of [UpstreamOf] over the phases. *)
Definition upBody (E : Env) (w : Workflow) (root : option positive) :=
  (λ (rv : gmap positive StatusError) phase,
     if bucketHas w phase root then
       r ← root;
       st ← stateAt E w r;
       foldM (addUpstreamEntry E w) rv (rangeSet E (StateUpstreams st))
     else Some rv).

(** [state.SetStatus(scanned)] on the state of a root. *)
Definition mark (w : Workflow) (s : positive) : Workflow :=
  update w (RootState s) (SetStatus scanned).

(** What the scan keeps of a workflow [w0] whose states are all [Pending]
    and that has the cycle [c]: it marks no step of the cycle. *)
Definition scanInv (w0 : Workflow) (c : list positive) (w : Workflow) : Prop :=
  sameShape w0 w ∧ inner w = inner w0 ∧
  (∀ s st, state w !! s = Some st → GetStatus st = Pending ∨ GetStatus st = scanned) ∧
  (∀ s st, s ∈ c → state w !! s = Some st → GetStatus st ≠ scanned).

Definition scanKeeps (w0 w : Workflow) : Prop :=
  sameShape w0 w ∧ inner w = inner w0 ∧
  ∀ s st, state w !! s = Some st → GetStatus st = Pending ∨ GetStatus st = scanned.

(** [Do] called again and again, each call with its own schedule: the
    workflow each call leaves is the one the next call receives. *)
Fixpoint DoTimes (E : Env) (ctx : Context) (scheds : list (list Event)) (w : Workflow)
    : option (Workflow * list (option DoError)) :=
  match scheds with
  | [] => Some (w, [])
  | sched :: scheds' =>
      '(w1, err) ← Do E ctx sched w;
      '(w2, errs) ← DoTimes E ctx scheds' w1;
      Some (w2, err :: errs)
  end.

(** Where a step panics: in an input callback, or in its [Do] after the
    input callbacks returned nil. *)
Inductive PanicSite := InInput | InDo.

Definition panicsAt (E : Env) (w : Workflow) (step : positive) (st : State) (ctx : Context)
    (site : PanicSite) (v : PanicValue) : Prop :=
  let ctx' := (notifyStep w ctx step).1 in
  match site with
  | InInput => runInput (Input (Config st)) ctx' = Panics v
  | InDo => runInput (Input (Config st)) ctx' = Returns None ∧ stepDo E step ctx' = Panics v
  end.

(** The error [catchPanicAsError] wraps: the panic value when it is an
    error, else the error that [fmt.Errorf] makes of its text. *)
Definition recovered (v : PanicValue) : GoError :=
  match v with
  | PanicError e => e
  | PanicOther text => UserError text
  end.

(** What the attempt returns for a recovered panic; an error of the input
    callbacks is wrapped in [ErrInput] by [makeDoForStep]. *)
Definition panicError (site : PanicSite) (v : PanicValue) : GoError :=
  match site with
  | InInput => ErrInput (ErrPanic (recovered v))
  | InDo => ErrPanic (recovered v)
  end.

(** The state table holds exactly the roots of the Step Tree, and every
    member of a phase bucket is a root. *)
Definition rootsOnly (w : Workflow) : Prop :=
  (∀ s, is_Some (state w !! s) ↔ tree w !! s = Some s) ∧
  (∀ phase b s, steps w !! phase = Some b → s ∈ b → tree w !! s = Some s).

(** What a composite step exposes is a tree below it: no descendant is
    listed twice, the step is not its own descendant, and the container
    of a descendant is the step or a descendant listed before. *)
Definition exposesTree (step : positive) (ds : list (positive * positive)) : Prop :=
  NoDup ds.*1 ∧ (step ∉ ds.*1) ∧
  ∀ i d c, ds !! i = Some (d, c) →
    c = step ∨ ∃ j c', (j < i) ∧ ds !! j = Some (c, c').

(** The loop of [addStep] over the old roots, after the old roots [gone]:
    [w0] is the workflow when the loop starts, [step] the new root. *)
Definition migrated (w0 : Workflow) (step : positive) (gone : list positive)
    (wx : Workflow) : Prop :=
  tree wx = tree w0 ∧ inner wx = inner w0 ∧
  (∃ stx, state wx !! step = Some stx ∧
     ∀ o sto, o ∈ gone → state w0 !! o = Some sto →
       Upstreams (Config sto) ⊆ StateUpstreams stx ∧
       ∀ f, f ∈ Input (Config sto) → f ∈ Input (Config stx)) ∧
  (∀ s, s ≠ step → state wx !! s = if decide (s ∈ gone) then None else state w0 !! s) ∧
  (∀ p, is_Some (steps wx !! p) ↔ is_Some (steps w0 !! p)) ∧
  (∀ p bpx x, steps wx !! p = Some bpx → x ∈ bpx →
     x = step ∨ ((x ∉ gone) ∧ ∃ bp0, steps w0 !! p = Some bp0 ∧ x ∈ bp0)) ∧
  (∀ p bp0, steps w0 !! p = Some bp0 →
     ∃ bpx, steps wx !! p = Some bpx ∧
       (step ∈ bp0 → step ∈ bpx) ∧
       (∀ o, o ∈ gone → o ∈ bp0 → step ∈ bpx) ∧
       (∀ x, x ∈ bp0 → x ∉ gone → x ∈ bpx)).

(** What adding the composite [C] in [phase] made of the workflow [w], in
    which its internal step [s1] was a root with the state [st1]: [C] is
    the root of [s1]; [s1] has left the state table and every bucket; [C]
    is in every bucket that had [s1], and in the bucket of [phase]; the
    state of [C] has the upstreams and the input callbacks of [st1]; the
    state table and the buckets hold roots only. *)
Definition adopted (w : Workflow) (phase : Phase) (C s1 : positive) (st1 : State)
    (w' : Workflow) : Prop :=
  RootOf w' s1 = Some C ∧
  state w' !! s1 = None ∧
  (∀ p bp, steps w' !! p = Some bp → s1 ∉ bp) ∧
  (∀ p bp, steps w !! p = Some bp → s1 ∈ bp → ∃ bp', steps w' !! p = Some bp' ∧ C ∈ bp') ∧
  (∃ bp', steps w' !! phase = Some bp' ∧ C ∈ bp') ∧
  (∃ stC, state w' !! C = Some stC ∧
     Upstreams (Config st1) ⊆ StateUpstreams stC ∧
     ∀ f, f ∈ Input (Config st1) → f ∈ Input (Config stC)) ∧
  rootsOnly w'.

(** An upstream that the config of [C] may declare: a root of the
    workflow that [C] does not contain, and that the workflow nested in
    [C], if [C] is one, does not manage. *)
Definition outerRoot (E : Env) (w : Workflow) (C up : positive) : Prop :=
  tree w !! up = Some up ∧ (up ∉ (nest E C).*1) ∧
  ∀ inner_StateOf, nestedStateOf E C = Some inner_StateOf → inner_StateOf up = None.

(** [adopted], with the tree that [StepTree.Add] made of the composite. *)
Definition adoptedAt (E : Env) (w : Workflow) (phase : Phase) (C s1 : positive)
    (st1 : State) (wx : Workflow) : Prop :=
  adopted w phase C s1 st1 wx ∧ tree wx = (StepTree.Add (nest E C) (tree w) C).1.

(** ** Vocabulary of the further properties *)

(** The upstream relation over the state table is acyclic: [rank] goes
    down along every edge that [UpstreamOf] reports. *)
Definition ranked (E : Env) (w : Workflow) (rank : positive → nat) : Prop :=
  ∀ s ups u, is_Some (state w !! s) → UpstreamOf E w s = Some ups →
    is_Some (ups !! u) → rank u < rank s.

(** Once [tick] has returned true, the loop over its steps is over and
    every phase is terminated. *)
Definition runDone (E : Env) (r : Run) : Prop :=
  finished r = true →
  cursor r = None ∧ ∀ p, p ∈ WorkflowPhases → IsPhaseTerminated E (runWorkflow r) p = Some true.

(** The states that have no terminal status yet: those of the state table,
    and those that nested workflows own. *)
Definition unfinishedRoots (w : Workflow) : gset positive :=
  dom (filter (λ kv : positive * State, StatusIsTerminated (GetStatus kv.2) = false) (state w)).

Definition unfinishedInner (w : Workflow) : gset positive :=
  dom (filter (λ kv : positive * State, StatusIsTerminated (GetStatus kv.2) = false) (inner w)).

(** An environment without nesting: no step exposes steps of its own, and
    none is a workflow. *)
Definition plainEnv (E : Env) : Prop :=
  ∀ s, nest E s = [] ∧ nestedStateOf E s = None.

(** What the build keeps of a workflow of plain steps: every step of the
    tree is its own root and has a state; the buckets hold steps of the
    tree, and every step of the tree is in the bucket of some phase; every
    state is [Pending]; every recorded upstream is a step of the tree. *)
Definition built (w : Workflow) : Prop :=
  (∀ s p, tree w !! s = Some p → p = s)
  ∧ (∀ s, is_Some (state w !! s) ↔ is_Some (tree w !! s))
  ∧ (∀ phase b s, steps w !! phase = Some b → s ∈ b → is_Some (tree w !! s))
  ∧ (∀ s, is_Some (tree w !! s) →
       ∃ phase b, phase ∈ WorkflowPhases ∧ steps w !! phase = Some b ∧ s ∈ b)
  ∧ allPending w
  ∧ (∀ s st up, state w !! s = Some st → up ∈ StateUpstreams st → is_Some (tree w !! up)).

(** The workflow after a plain step was put in the bucket of [phase] and,
    if it was new, made a root with a fresh state. *)
Definition register (w : Workflow) (phase : Phase) (s : positive) : Workflow :=
  mkWorkflow (<[s := s]> (tree w))
    (<[s := default newState (state w !! s)]> (state w))
    (<[phase := {[s]} ∪ default ∅ (steps w !! phase)]> (steps w))
    (inner w) (isRunning w) (leaseBucket w) (notify w) (DontPanic w).

(** A sequence of calls of [PhaseAdd], each with its phase and its
    adders. *)
Definition buildAll (E : Env) (w : Workflow)
    (calls : list (Phase * list (list (option positive * option StepConfig))))
    : option Workflow :=
  foldM (λ w call, PhaseAdd E w call.1 call.2) w calls.

(** ** Example workflows *)

(** Modelled from the spec: [DefaultCondition] is declared outside
    [workflow.go]; "run iff every upstream is Succeeded", a step that does
    not run being canceled. *)
Definition exampleCondition : ConditionFn :=
  λ _ ups,
    if bool_decide (map_Forall (λ _ up, Status up = Succeeded) ups) then Running else Canceled.

(** An environment for the examples: [range] in the order of
    [map_to_list], no nested workflow, no composite step, steps that
    return nil.  Modelled from the spec: [DefaultIsCanceled] ("wraps the
    standard cancellation sentinel") and the match of the skip sentinel
    are declared outside [workflow.go]. *)
Definition E0 : Env :=
  mkEnv (λ A, map_to_list) elements (λ _, None) (λ _, None) (λ _, [])
    exampleCondition
    (λ e, bool_decide (e = ContextCanceled))
    (λ e, bool_decide (e = ErrSkip))
    (λ _ _, Returns None).

Definition ctx0 : Context := mkContext false [].

(** Modelled from the spec: the builder helpers are declared outside
    [workflow.go]; "each adder yields {step → config} pairs".  This is
    [Step(s).DependsOn(ups...)] of the tests. *)
Definition StepDependsOn (s : Steper) (ups : list Steper)
    : list (option Steper * option StepConfig) :=
  [(Some s, Some (mkStepConfig (list_to_set ups) None []))].

Definition build (E : Env) (was : list (list (option Steper * option StepConfig))) : Workflow :=
  default newWorkflow (Add E newWorkflow was).

(** One step [1]. *)
Definition exOne : Workflow := build E0 [StepDependsOn 1 []].

(** [(1 -> 2, 3) (3 -> 4)], the workflow of [TestDep]. *)
Definition exDag : Workflow := build E0 [StepDependsOn 1 [2; 3]; StepDependsOn 3 [4]]%positive.

(** A step [1] and the cycle [2 -> 3 -> 2]. *)
Definition exCycle : Workflow :=
  build E0 [StepDependsOn 1 []; StepDependsOn 2 [3]; StepDependsOn 3 [2]]%positive.

(** The composite step [10] exposes the step [11]. *)
Definition E1 : Env :=
  mkEnv (λ A, map_to_list) elements (λ _, None) (λ _, None)
    (λ s, if decide (s = 10) then [(11, 10)] else [])%positive
    exampleCondition
    (λ e, bool_decide (e = ContextCanceled))
    (λ e, bool_decide (e = ErrSkip))
    (λ _ _, Returns None).

(** The composite [10] depends on the step [1]. *)
Definition exNested : Workflow := build E1 [StepDependsOn 10 [1]]%positive.

(** The step [11] is added, then the composite [10] that contains it. *)
Definition exInner : Workflow := build E1 [StepDependsOn 11 [1]]%positive.

(** The statuses of the state table. *)
Definition statuses (w : Workflow) : list (Steper * StepStatus) :=
  (λ kv, (kv.1, GetStatus kv.2)) <$> map_to_list (state w).

(** A schedule that runs [exOne] to its end. *)
Definition schedOne : list Event := [EvTick; EvVisit; EvDone 0 None; EvTick].


(** What [tick] made of a workflow on which it ran. *)
Definition ticked (E : Env) (w : Workflow) : Ticked :=
  match tick E w ctx0 with
  | Some (t, _) => t
  | None => mkTicked w 0 []
  end.

(** [exOne] while its step runs, and after the run. *)
Definition exOneRunning : Run :=
  default (mkRun exOne 1 [] None false) (DoRun E0 ctx0 [EvTick; EvVisit] exOne).

Definition exOneDone : Run :=
  default (mkRun exOne 1 [] None false) (DoRun E0 ctx0 schedOne exOne).

(** An environment whose steps panic with the text "boom". *)
Definition E2 : Env :=
  mkEnv (λ A, map_to_list) elements (λ _, None) (λ _, None) (λ _, [])
    exampleCondition
    (λ e, bool_decide (e = ContextCanceled))
    (λ e, bool_decide (e = ErrSkip))
    (λ _ _, Panics (PanicOther "boom")).

Definition exDontPanic : Workflow :=
  mkWorkflow ∅ ∅ ∅ ∅ false None [] true.

(** Two composites: [10] exposes [11], and [20] exposes [21]. *)
Definition E3 : Env :=
  mkEnv (λ A, map_to_list) elements (λ _, None) (λ _, None)
    (λ s, if decide (s = 10) then [(11, 10)]
          else if decide (s = 20) then [(21, 20)] else [])%positive
    exampleCondition
    (λ e, bool_decide (e = ContextCanceled))
    (λ e, bool_decide (e = ErrSkip))
    (λ _ _, Returns None).

(** The composite [20] and the step [11] are added. *)
Definition exTwo : Workflow := build E3 [StepDependsOn 20 []; StepDependsOn 11 []]%positive.

(** [Step(10).DependsOn(...)]: the config of the composite [10]. *)
Definition dependsOn (ups : list Steper) : StepConfig :=
  mkStepConfig (list_to_set ups) None [].

(** The buckets and the tree, listed. *)
Definition buckets (w : Workflow) : list (Phase * list Steper) :=
  (λ kv, (kv.1, elements kv.2)) <$> map_to_list (steps w).

(** [exOne] as its run leaves it. *)
Definition exOneAfter : Workflow :=
  (default (exOne, None) (Do E0 ctx0 schedOne exOne)).1.

(** What [preflight] leaves of [exCycle]. *)
Definition exCycleAfter : Workflow :=
  (default (exCycle, None) (preflight E0 exCycle)).1.

(** The state of the step [11] of [exInner]. *)
Definition exInnerState : State :=
  default newState (state exInner !! 11%positive).

(** ** Further examples *)

(** [exDag] with a lease bucket of capacity one: one step at a time. *)
Definition exLeased : Workflow :=
  mkWorkflow (tree exDag) (state exDag) (steps exDag) (inner exDag) false (Some 1) [] false.

(** A schedule on which the step of [exOne] fails. *)
Definition schedFail : list Event :=
  [EvTick; EvVisit; EvDone 0 (Some (UserError "failed")); EvTick].

(** [exOne] after the run in which its step failed. *)
Definition exOneFailed : Workflow :=
  (default (exOne, None) (Do E0 ctx0 schedFail exOne)).1.

(** The first tick of [exLeased], up to its first launch. *)
Definition exLeasedRun : Run :=
  default (mkRun exLeased 1 [] None false)
    (DoRun E0 ctx0 [EvTick; EvVisit; EvVisit] exLeased).

(** A workflow with two notifiers: the first tags the context and logs,
    the second only logs. *)
Definition exNotified : Workflow :=
  mkWorkflow ∅ ∅ ∅ ∅ false None
    [mkNotify (Some (λ ctx _, mkContext (ctxDone ctx) ("seen" :: ctxTags ctx))) (Some "first");
     mkNotify None (Some "second")]
    true.

(** A ranking of the steps of [exDag]: [1] above [3] above [2] and [4]. *)
Definition rankDag (s : Steper) : nat :=
  if decide (s = 1%positive) then 2 else if decide (s = 3%positive) then 1 else 0.

(** [Add(Step(1).DependsOn(2, 3), Step(3).DependsOn(4))] as a list of
    calls. *)
Definition callsDag : list (Phase * list (list (option Steper * option StepConfig))) :=
  [(PhaseMain, [StepDependsOn 1 [2; 3]; StepDependsOn 3 [4]])]%positive.

(** [Init(Step(1))], then [Add(Step(1).DependsOn(2))]: the step [1] is in
    the Init bucket, its upstream [2] only in the Main bucket. *)
Definition exStall : Workflow :=
  default newWorkflow
    (buildAll E0 newWorkflow
       [(PhaseInit, [StepDependsOn 1 []]); (PhaseMain, [StepDependsOn 1 [2]])]%positive).

(** [Add(Step(10))], then [Init(Step(5).DependsOn(11))], with [E1]: the
    step [11] is inside the composite [10]. *)
Definition exPhases : Workflow :=
  default newWorkflow
    (buildAll E1 newWorkflow
       [(PhaseMain, [StepDependsOn 10 []]); (PhaseInit, [StepDependsOn 5 [11]])]%positive).

(** [exOne] has run; then [Add(Step(2).DependsOn(3), Step(3).DependsOn(2))]. *)
Definition exRanThenCycle : Workflow :=
  default exOneAfter
    (Add E0 exOneAfter [StepDependsOn 2 [3]; StepDependsOn 3 [2]]%positive).
#[local] Arguments stateAt : simpl never.
#[local] Arguments StateOf : simpl never.
#[local] Arguments RootOf : simpl never.
#[local] Arguments UpstreamOf : simpl never.
#[local] Arguments DownstreamOf : simpl never.
#[local] Arguments addUpstreamEntry : simpl never.
#[local] Arguments bucketHas : simpl never.
#[local] Arguments empty : simpl never.
#[local] Arguments selectPhase : simpl never.
#[local] Arguments tickStep : simpl never.
#[local] Arguments IsPhaseTerminated : simpl never.
#[local] Arguments scanLoop : simpl nomatch.
Section Facts.
Variable E : Env.
Hypothesis E_ok : rangeOk E.

Lemma rangeSet_elem (s : gset positive) x : x ∈ rangeSet E s ↔ x ∈ s.
Proof. destruct E_ok as [_ H]. rewrite (H s). apply elem_of_elements. Qed.

Lemma rangeMap_elem {A} (m : gmap positive A) k a : (k, a) ∈ rangeMap E A m ↔ m !! k = Some a.
Proof. destruct E_ok as [H _]. rewrite (H A m). apply elem_of_map_to_list. Qed.

Lemma rangeMap_keys {A} (m : gmap positive A) k : k ∈ (rangeMap E A m).*1 ↔ is_Some (m !! k).
Proof.
  rewrite list_elem_of_fmap. split.
  - intros [[k' a] [-> H]]. apply rangeMap_elem in H. eauto.
  - intros [a H]. exists (k, a). split; [done|]. by apply rangeMap_elem.
Qed.

Lemma foldM_app {A B} (f : B → A → option B) b l1 l2 :
  foldM f b (l1 ++ l2) = (b' ← foldM f b l1; foldM f b' l2).
Proof.
  revert b. induction l1 as [|a l1 IH]; intros b; simpl; [done|].
  destruct (f b a); simpl; auto.
Qed.

Lemma foldM_invariant {A B} (P : B → Prop) (f : B → A → option B) l b b' :
  (∀ a x y, a ∈ l → P x → f x a = Some y → P y) →
  P b → foldM f b l = Some b' → P b'.
Proof.
  revert b. induction l as [|a l IH]; intros b Hstep Hb Hf; simpl in Hf.
  - by simplify_eq.
  - destruct (f b a) as [b1|] eqn:Hfa; simpl in Hf; [|done].
    eapply IH; [| |exact Hf].
    + intros. eapply Hstep; eauto. by right.
    + eapply Hstep; eauto. by left.
Qed.

Lemma foldM_total {A B} (P : B → Prop) (f : B → A → option B) l b :
  (∀ a x, a ∈ l → P x → ∃ y, f x a = Some y ∧ P y) →
  P b → ∃ b', foldM f b l = Some b' ∧ P b'.
Proof.
  revert b. induction l as [|a l IH]; intros b Hstep Hb; simpl.
  - eauto.
  - destruct (Hstep a b) as (y & -> & Hy); [by left|done|]. simpl.
    apply IH; [|done]. intros. apply Hstep; [by right|done].
Qed.

Lemma sameShape_refl w : sameShape w w.
Proof. by repeat split. Qed.

Lemma sameShape_trans w1 w2 w3 : sameShape w1 w2 → sameShape w2 w3 → sameShape w1 w3.
Proof.
  intros (?&?&Hs&Hi) (?&?&Hs'&Hi').
  repeat split; try congruence; intros; by rewrite ?Hs', ?Hs, ?Hi', ?Hi.
Qed.

Lemma sameShape_update w r f :
  (∀ st, Config (f st) = Config st) → sameShape w (update w r f).
Proof.
  intros Hf. destruct r as [s|l]; repeat split; simpl; try done.
  - intros s'. rewrite lookup_alter. case_decide; [|done]. subst.
    destruct (state w !! s') eqn:Heq; simpl; [|done]. by rewrite Hf.
  - intros l'. rewrite lookup_alter. case_decide; [|done]. subst.
    destruct (inner w !! l') eqn:Heq; simpl; [|done]. by rewrite Hf.
Qed.

Lemma fmap_is_Some_size {A} (m1 m2 : gmap positive A) :
  (∀ k, is_Some (m1 !! k) ↔ is_Some (m2 !! k)) → size m1 = size m2.
Proof.
  intros H. rewrite <- !size_dom. f_equal. apply set_eq. intros k.
  rewrite !elem_of_dom. apply H.
Qed.

Lemma sameShape_state_is_Some w w' s :
  sameShape w w' → is_Some (state w' !! s) ↔ is_Some (state w !! s).
Proof.
  intros (_&_&Hs&_). specialize (Hs s).
  destruct (state w' !! s), (state w !! s); simpl in *; try done; split; intros [? ?]; done.
Qed.

Lemma sameShape_empty w w' : sameShape w w' → empty w' = empty w.
Proof.
  intros H. pose proof H as (Ht&Hb&Hs&_). unfold empty. rewrite Ht, Hb.
  rewrite (fmap_is_Some_size (state w') (state w)); [done|].
  intros k. by apply sameShape_state_is_Some.
Qed.

Lemma sameShape_RootOf w w' s : sameShape w w' → RootOf w' s = RootOf w s.
Proof.
  intros H. unfold RootOf. rewrite (sameShape_empty _ _ H).
  destruct H as (->&_). done.
Qed.

Lemma sameShape_StateOf w w' s : sameShape w w' → StateOf E w' s = StateOf E w s.
Proof.
  intros H. unfold StateOf. rewrite (sameShape_empty _ _ H).
  destruct (empty w); [done|].
  pose proof H as (->&_&Hs&_).
  destruct (tree w !! s) as [a|]; [|done].
  assert (∀ x, const (RootState x) <$> state w' !! x = const (RootState x) <$> state w !! x) as Hc.
  { intros x. specialize (Hs x). destruct (state w' !! x), (state w !! x); simpl in *; done. }
  case_decide; [apply Hc|].
  destruct (nestedStateOf E a); [done|].
  rewrite (sameShape_RootOf _ _ _ H). destruct (RootOf w a); simpl; [apply Hc|done].
Qed.

Lemma sameShape_deref w w' r : sameShape w w' → Config <$> deref w' r = Config <$> deref w r.
Proof. intros (_&_&Hs&Hi). destruct r; simpl; auto. Qed.

Lemma sameShape_stateAt w w' s :
  sameShape w w' → Config <$> stateAt E w' s = Config <$> stateAt E w s.
Proof.
  intros H. unfold stateAt. rewrite (sameShape_StateOf _ _ _ H).
  destruct (StateOf E w s); simpl; [by apply sameShape_deref|done].
Qed.

Lemma sameShape_stateAt_Some w w' s st :
  sameShape w w' → stateAt E w s = Some st →
  ∃ st', stateAt E w' s = Some st' ∧ Config st' = Config st.
Proof.
  intros H Hst. pose proof (sameShape_stateAt _ _ s H) as Hc. rewrite Hst in Hc.
  destruct (stateAt E w' s) as [st'|]; simpl in Hc; [|done]. exists st'. split; congruence.
Qed.

Lemma sameShape_sym w w' : sameShape w w' → sameShape w' w.
Proof. intros (?&?&Hs&Hi). repeat split; try congruence; intros; by rewrite ?Hs, ?Hi. Qed.

Lemma sameShape_bucketHas w w' p r : sameShape w w' → bucketHas w' p r = bucketHas w p r.
Proof. intros (_&Hb&_). unfold bucketHas. by rewrite Hb. Qed.

(** *** What [UpstreamOf] returns *)

Lemma foldM_cons {A B} (f : B → A → option B) b a l :
  foldM f b (a :: l) = (b' ← f b a; foldM f b' l).
Proof. done. Qed.

Lemma addUpstreamEntry_Some w rv up rv' :
  addUpstreamEntry E w rv up = Some rv' ↔
  ∃ k st, RootOf w up = Some k ∧ stateAt E w k = Some st ∧ rv' = <[k := GetStatusError st]> rv.
Proof.
  unfold addUpstreamEntry. split.
  - intros H. destruct (RootOf w up) as [k|]; simpl in H; [|done].
    destruct (stateAt E w k) as [st|] eqn:Hst; simpl in H; [|done]. simplify_eq.
    by exists k, st.
  - intros (k & st & -> & Hst & ->). simpl. by rewrite Hst.
Qed.

Lemma addEntries_lookup w l : ∀ rv rv1,
  foldM (addUpstreamEntry E w) rv l = Some rv1 →
  ∀ k, rv1 !! k = if bool_decide (Some k ∈ RootOf w <$> l) then entryAt E w k else rv !! k.
Proof.
  induction l as [|up l IH]; intros rv rv1 Hf k.
  - simpl in Hf. simplify_eq. case_bool_decide as H; [by apply elem_of_nil in H|done].
  - rewrite foldM_cons in Hf.
    destruct (addUpstreamEntry E w rv up) as [rv2|] eqn:Hadd; simpl in Hf; [|done].
    apply addUpstreamEntry_Some in Hadd as (k0 & st0 & Hr & Hs & ->).
    rewrite (IH _ _ Hf k). rewrite fmap_cons, Hr.
    destruct (decide (Some k ∈ RootOf w <$> l)) as [Hin|Hin].
    + rewrite !bool_decide_eq_true_2; [done| |done]. by right.
    + rewrite (bool_decide_eq_false_2 _ Hin).
      destruct (decide (k = k0)) as [->|Hne].
      * rewrite lookup_insert_eq, bool_decide_eq_true_2; [|by left].
        unfold entryAt. by rewrite Hs.
      * rewrite lookup_insert_ne by done. rewrite bool_decide_eq_false_2; [done|].
        intros [?|?]%elem_of_cons; [congruence|done].
Qed.

Lemma addEntries_total w l : ∀ rv,
  is_Some (foldM (addUpstreamEntry E w) rv l) ↔
  ∀ up, up ∈ l → ∃ k, RootOf w up = Some k ∧ is_Some (stateAt E w k).
Proof.
  induction l as [|up l IH]; intros rv.
  - simpl. split; [intros _ ? ?%elem_of_nil; done|eauto].
  - rewrite foldM_cons. split.
    + intros Hs up' Hin.
      destruct (addUpstreamEntry E w rv up) as [rv2|] eqn:Hadd; simpl in Hs; [|by destruct Hs].
      apply addUpstreamEntry_Some in Hadd as (k0 & st0 & Hr & Hst & ->).
      apply elem_of_cons in Hin as [->|Hin]; [eauto|].
      eapply (proj1 (IH _)); eauto.
    + intros H. destruct (H up) as (k0 & Hr & [st0 Hst]); [by left|].
      assert (addUpstreamEntry E w rv up = Some (<[k0 := GetStatusError st0]> rv)) as ->.
      { apply addUpstreamEntry_Some. eauto. }
      simpl. apply IH. intros. apply H. by right.
Qed.

Lemma upBody_lookup w r ps : ∀ rv rv1,
  foldM (upBody E w (Some r)) rv ps = Some rv1 →
  ∀ k, rv1 !! k =
       if existsb (λ p, bucketHas w p (Some r)) ps && bool_decide (Some k ∈ RootOf w <$> upList E w r)
       then entryAt E w k else rv !! k.
Proof.
  induction ps as [|p ps IH]; intros rv rv1 Hf k.
  - simpl in Hf. by simplify_eq.
  - rewrite foldM_cons in Hf.
    destruct (upBody E w (Some r) rv p) as [rv2|] eqn:Hbody; simpl in Hf; [|done].
    unfold upBody in Hbody. cbn [existsb]. rewrite (IH _ _ Hf k).
    destruct (bucketHas w p (Some r)) eqn:Hb; simpl in Hbody |- *; [|by simplify_eq].
    unfold upList in *. destruct (stateAt E w r) as [st|] eqn:Hst; simpl in Hbody; [|done].
    rewrite (addEntries_lookup _ _ _ _ Hbody k).
    destruct (bool_decide _); [|by rewrite andb_false_r].
    by destruct (existsb _ ps).
Qed.

Lemma upBody_None w ps : ∀ rv, foldM (upBody E w None) rv ps = Some rv.
Proof.
  induction ps as [|p ps IH]; intros rv; [done|].
  rewrite foldM_cons.
  assert (upBody E w None rv p = Some rv) as ->; [|apply IH].
  unfold upBody, bucketHas. by destruct (steps w !! p).
Qed.

Lemma upBody_total w r ps : ∀ rv,
  is_Some (foldM (upBody E w (Some r)) rv ps) ↔
  (existsb (λ p, bucketHas w p (Some r)) ps = true →
   is_Some (stateAt E w r) ∧
   ∀ up, up ∈ upList E w r → ∃ k, RootOf w up = Some k ∧ is_Some (stateAt E w k)).
Proof.
  induction ps as [|p ps IH]; intros rv.
  - simpl. split; [done|eauto].
  - rewrite foldM_cons. cbn [existsb].
    destruct (bucketHas w p (Some r)) eqn:Hb; simpl.
    + split.
      * intros Hs _.
        destruct (upBody E w (Some r) rv p) as [rv2|] eqn:Hbody; [|by destruct Hs].
        unfold upBody in Hbody. rewrite Hb in Hbody. simpl in Hbody.
        unfold upList. destruct (stateAt E w r) as [st|] eqn:Hst; simpl in Hbody; [|done].
        split; [eauto|]. apply (addEntries_total w _ rv). by rewrite Hbody.
      * intros H. destruct (H eq_refl) as [[st Hst] H2].
        unfold upList in H2. rewrite Hst in H2.
        apply (addEntries_total w _ rv) in H2 as [rv2 Hrv2].
        assert (upBody E w (Some r) rv p = Some rv2) as ->.
        { unfold upBody. rewrite Hb. simpl. by rewrite Hst. }
        simpl. apply IH. intros _. apply (H eq_refl).
    + assert (upBody E w (Some r) rv p = Some rv) as ->.
      { unfold upBody. by rewrite Hb. }
      apply IH.
Qed.

Lemma UpstreamOf_unfold w s :
  empty w = false →
  UpstreamOf E w s = foldM (upBody E w (RootOf w s)) ∅ WorkflowPhases.
Proof. intros He. unfold UpstreamOf. by rewrite He. Qed.

(** The keys of [UpstreamOf] are the roots of the upstreams recorded on the
    state of the step's root, each with the status and error of its own
    state; there are none when the root is in no phase. *)
Lemma UpstreamOf_lookup w s ups k se :
  UpstreamOf E w s = Some ups →
  ups !! k = Some se ↔
  ∃ r st up, empty w = false ∧ RootOf w s = Some r ∧ inPhases w (Some r) = true
    ∧ stateAt E w r = Some st ∧ up ∈ StateUpstreams st ∧ RootOf w up = Some k
    ∧ entryAt E w k = Some se.
Proof.
  intros Hu. destruct (empty w) eqn:He.
  { unfold UpstreamOf in Hu. rewrite He in Hu. simplify_eq. rewrite lookup_empty.
    split; [done|]. by intros (?&?&?&?&_). }
  rewrite (UpstreamOf_unfold _ _ He) in Hu.
  destruct (RootOf w s) as [r|] eqn:Hr.
  2:{ rewrite upBody_None in Hu. simplify_eq. rewrite lookup_empty.
      split; [done|]. by intros (?&?&?&_&?&_). }
  rewrite (upBody_lookup _ _ _ _ _ Hu k), lookup_empty.
  fold (inPhases w (Some r)).
  destruct (inPhases w (Some r)) eqn:Hin; simpl.
  2:{ split; [done|]. intros (r'&?&?&_&?&?&_). simplify_eq. congruence. }
  assert (is_Some (foldM (upBody E w (Some r)) ∅ WorkflowPhases)) as Hs by eauto.
  apply upBody_total in Hs; [|exact Hin]. destruct Hs as [[st Hst] _].
  unfold upList. rewrite Hst.
  case_bool_decide as Hk.
  - apply list_elem_of_fmap in Hk as (up & Hup & Hin').
    apply rangeSet_elem in Hin'. split.
    + intros Hent. exists r, st, up. done.
    + intros (r'&st'&up'&_&?&_&?&_&_&?). done.
  - split; [done|]. intros (r'&st'&up'&_&?&_&?&?&?&?). simplify_eq.
    destruct Hk. apply list_elem_of_fmap. exists up'. split; [done|]. by apply rangeSet_elem.
Qed.


(** *** Status writes *)

Lemma deref_update w r f r' :
  deref (update w r f) r' = if decide (r = r') then f <$> deref w r' else deref w r'.
Proof.
  destruct r as [s|l], r' as [s'|l']; simpl; rewrite ?lookup_alter;
    repeat case_decide; simplify_eq; done.
Qed.

Lemma statusAt_update w r f r' :
  statusAt (update w r f) r' =
  if decide (r = r') then (λ st, GetStatus (f st)) <$> deref w r' else statusAt w r'.
Proof.
  unfold statusAt. rewrite deref_update. case_decide; [|done].
  by destruct (deref w r').
Qed.

Lemma tickStep_inv w ctx s w' v :
  tickStep E w ctx s = Some (w', v) →
  ∃ r st, StateOf E w s = Some r ∧ deref w r = Some st ∧
    match v with
    | VisitSkip =>
        w' = w ∧
        (GetStatus st ≠ Pending ∨
         ∃ ups, UpstreamOf E w s = Some ups ∧ isAnyUpstreamNotTerminated ups = true)
    | VisitTerminate nextStatus =>
        GetStatus st = Pending ∧
        ∃ ups, UpstreamOf E w s = Some ups ∧ isAnyUpstreamNotTerminated ups = false ∧
          nextStatus = default (DefaultCondition E) (Condition (Config st)) ctx ups ∧
          StatusIsTerminated nextStatus = true ∧
          w' = update w r (SetStatus nextStatus)
    | VisitLaunch r' =>
        r' = r ∧ GetStatus st = Pending ∧
        ∃ ups, UpstreamOf E w s = Some ups ∧ isAnyUpstreamNotTerminated ups = false ∧
          StatusIsTerminated (default (DefaultCondition E) (Condition (Config st)) ctx ups) = false ∧
          w' = update w r (SetStatus Running)
    end.
Proof.
  unfold tickStep. intros H.
  destruct (StateOf E w s) as [r|] eqn:Hr; simpl in H; [|done].
  destruct (deref w r) as [st|] eqn:Hd; simpl in H; [|done].
  exists r, st. split; [done|]. split; [done|].
  case_decide as Hp.
  { simplify_eq. auto. }
  destruct (UpstreamOf E w s) as [ups|]; simpl in H; [|done].
  destruct (isAnyUpstreamNotTerminated ups) eqn:Hany.
  { simplify_eq. split; [done|]. right. eauto. }
  destruct (StatusIsTerminated _) eqn:Ht; simplify_eq.
  - split; [done|]. exists ups. done.
  - split; [done|]. split; [done|]. exists ups. done.
Qed.

(** A visit writes a status only over [Pending]. *)
Lemma tickStep_keeps w ctx s w' v r x :
  tickStep E w ctx s = Some (w', v) →
  statusAt w r = Some x → x ≠ Pending → statusAt w' r = Some x.
Proof.
  intros H Hx Hne. apply tickStep_inv in H as (r0 & st & _ & Hd & Hv).
  destruct v as [|ns|r'].
  - by destruct Hv as [-> _].
  - destruct Hv as (Hp & ups & _ & _ & _ & _ & ->).
    rewrite statusAt_update. case_decide; [|done]. subst.
    unfold statusAt in Hx. rewrite Hd in Hx. simpl in Hx. congruence.
  - destruct Hv as (-> & Hp & ups & _ & _ & _ & ->).
    rewrite statusAt_update. case_decide; [|done]. subst.
    unfold statusAt in Hx. rewrite Hd in Hx. simpl in Hx. congruence.
Qed.

Lemma tickLoop_cons w ctx s l :
  tickLoop E w ctx (s :: l) =
  ('(w1, v) ← tickStep E w ctx s;
   t ← tickLoop E w1 ctx l;
   Some (mkTicked (tickWorkflow t)
           (match v with VisitTerminate _ => S (tickSignals t) | _ => tickSignals t end)
           (match v with VisitLaunch r => (s, r) :: tickLaunched t | _ => tickLaunched t end))).
Proof. done. Qed.

Lemma tickLoop_cons_inv w ctx s l t :
  tickLoop E w ctx (s :: l) = Some t →
  ∃ w1 v t', tickStep E w ctx s = Some (w1, v) ∧ tickLoop E w1 ctx l = Some t' ∧
    tickWorkflow t = tickWorkflow t' ∧
    tickLaunched t = match v with VisitLaunch r => (s, r) :: tickLaunched t' | _ => tickLaunched t' end.
Proof.
  rewrite tickLoop_cons. intros H.
  destruct (tickStep E w ctx s) as [[w1 v]|] eqn:Hs; simpl in H; [|done].
  destruct (tickLoop E w1 ctx l) as [t'|] eqn:Hl; simpl in H; [|done].
  simplify_eq. exists w1, v, t'. by repeat split.
Qed.

Lemma tickLoop_keeps w ctx l : ∀ w0 t r x,
  w0 = w → tickLoop E w ctx l = Some t →
  statusAt w r = Some x → x ≠ Pending → statusAt (tickWorkflow t) r = Some x.
Proof.
  revert w. induction l as [|s l IH]; intros w w0 t r x -> H Hx Hne.
  - simpl in H. by simplify_eq.
  - apply tickLoop_cons_inv in H as (w1 & v & t' & Hs & Hl & -> & _).
    eapply IH; eauto. eapply tickStep_keeps; eauto.
Qed.

(** Every goroutine [tickLoop] starts was started by the visit of its step,
    in the workflow as the earlier visits left it. *)
Lemma tickLoop_launched ctx l : ∀ w t s r,
  tickLoop E w ctx l = Some t → (s, r) ∈ tickLaunched t →
  ∃ l1 l2 ti w',
    l = l1 ++ s :: l2 ∧ tickLoop E w ctx l1 = Some ti ∧
    tickStep E (tickWorkflow ti) ctx s = Some (w', VisitLaunch r).
Proof.
  induction l as [|a l IH]; intros w t s r H Hin.
  - simpl in H. simplify_eq. by apply elem_of_nil in Hin.
  - apply tickLoop_cons_inv in H as (w1 & v & t' & Hs & Hl & Hw & Hla).
    rewrite Hla in Hin.
    assert ((s, r) ∈ tickLaunched t' ∨ (v = VisitLaunch r ∧ s = a)) as [Hin'|[-> ->]].
    { destruct v; auto. apply elem_of_cons in Hin as [?|?]; simplify_eq; auto. }
    + destruct (IH _ _ _ _ Hl Hin') as (l1 & l2 & ti & w' & -> & Hl1 & Hst).
      exists (a :: l1), l2,
        (mkTicked (tickWorkflow ti)
           (match v with VisitTerminate _ => S (tickSignals ti) | _ => tickSignals ti end)
           (match v with VisitLaunch r => (a, r) :: tickLaunched ti | _ => tickLaunched ti end)),
        w'.
      split; [done|]. split; [|done].
      rewrite tickLoop_cons, Hs. simpl. by rewrite Hl1.
    + exists [], l, (mkTicked w 0 []), w1. done.
Qed.

Lemma tickStep_running w ctx s w' v r :
  tickStep E w ctx s = Some (w', v) →
  statusAt w' r = Some Running → statusAt w r = Some Running ∨ v = VisitLaunch r.
Proof.
  intros H Hr. apply tickStep_inv in H as (r0 & st & _ & Hd & Hv).
  destruct v as [|ns|r'].
  - destruct Hv as [-> _]. auto.
  - destruct Hv as (Hp & ups & _ & _ & _ & Ht & ->).
    rewrite statusAt_update in Hr. case_decide; [|auto]. subst.
    rewrite Hd in Hr. simpl in Hr. unfold GetStatus, SetStatus in Hr. simpl in Hr.
    by simplify_eq.
  - destruct Hv as (-> & Hp & ups & _ & _ & _ & ->).
    rewrite statusAt_update in Hr. case_decide; [|auto]. subst. auto.
Qed.

Lemma tickLoop_running ctx l : ∀ w t r,
  tickLoop E w ctx l = Some t →
  statusAt (tickWorkflow t) r = Some Running →
  statusAt w r = Some Running ∨ ∃ s, (s, r) ∈ tickLaunched t.
Proof.
  induction l as [|a l IH]; intros w t r H Hr.
  - simpl in H. simplify_eq. auto.
  - apply tickLoop_cons_inv in H as (w1 & v & t' & Hs & Hl & Hw & Hla).
    rewrite Hw in Hr. destruct (IH _ _ _ Hl Hr) as [Hr1|[s Hin]].
    + destruct (tickStep_running _ _ _ _ _ _ Hs Hr1) as [?|Hv]; [auto|]. subst v.
      right. exists a. rewrite Hla. by left.
    + right. exists s. rewrite Hla. destruct v; auto. by right.
Qed.


Lemma isAnyUpstreamNotTerminated_false ups :
  isAnyUpstreamNotTerminated ups = false ↔ allTerminal ups.
Proof.
  unfold isAnyUpstreamNotTerminated, allTerminal. rewrite negb_false_iff.
  apply bool_decide_eq_true.
Qed.

Lemma tickStep_sameShape w ctx s w' v :
  tickStep E w ctx s = Some (w', v) → sameShape w w'.
Proof.
  intros H. apply tickStep_inv in H as (r & st & _ & _ & Hv).
  destruct v.
  - destruct Hv as [-> _]. apply sameShape_refl.
  - destruct Hv as (_ & ? & _ & _ & _ & _ & ->). by apply sameShape_update.
  - destruct Hv as (_ & _ & ? & _ & _ & _ & ->). by apply sameShape_update.
Qed.

Lemma tickLoop_sameShape ctx l : ∀ w t,
  tickLoop E w ctx l = Some t → sameShape w (tickWorkflow t).
Proof.
  induction l as [|a l IH]; intros w t H.
  - simpl in H. simplify_eq. apply sameShape_refl.
  - apply tickLoop_cons_inv in H as (w1 & v & t' & Hs & Hl & -> & _).
    eapply sameShape_trans; [by eapply tickStep_sameShape|by apply IH].
Qed.

Lemma tickLoop_app_inv ctx l1 l2 : ∀ w t t1,
  tickLoop E w ctx (l1 ++ l2) = Some t → tickLoop E w ctx l1 = Some t1 →
  ∃ t2, tickLoop E (tickWorkflow t1) ctx l2 = Some t2 ∧ tickWorkflow t2 = tickWorkflow t.
Proof.
  induction l1 as [|a l1 IH]; intros w t t1 H H1.
  - simpl in H1. simplify_eq. simpl in *. eauto.
  - rewrite <- app_comm_cons in H.
    apply tickLoop_cons_inv in H as (w1 & v & t' & Hs & Hl & -> & _).
    apply tickLoop_cons_inv in H1 as (w1' & v' & t1' & Hs' & Hl' & -> & _).
    simplify_eq. eapply IH; eauto.
Qed.

(** A status that a visit changes was [Pending], and is the status of the
    visited step. *)
Lemma tickStep_changed w ctx s w' v r :
  tickStep E w ctx s = Some (w', v) → statusAt w' r ≠ statusAt w r →
  StateOf E w s = Some r ∧ statusAt w r = Some Pending.
Proof.
  intros H Hne. apply tickStep_inv in H as (r0 & st & Hr0 & Hd & Hv).
  assert (∀ x, w' = update w r0 (SetStatus x) → GetStatus st = Pending →
               StateOf E w s = Some r ∧ statusAt w r = Some Pending) as Hupd.
  { intros x -> Hp. rewrite statusAt_update in Hne. case_decide; [|done]. subst.
    split; [done|]. unfold statusAt. rewrite Hd. simpl. by f_equal. }
  destruct v.
  - by destruct Hv as [-> _].
  - destruct Hv as (? & ? & _ & _ & _ & _ & ?). eauto.
  - destruct Hv as (_ & ? & ? & _ & _ & _ & ?). eauto.
Qed.

Lemma tickLoop_changed ctx l : ∀ w t r,
  tickLoop E w ctx l = Some t → statusAt (tickWorkflow t) r ≠ statusAt w r →
  ∃ s, s ∈ l ∧ StateOf E w s = Some r ∧ statusAt w r = Some Pending.
Proof.
  induction l as [|a l IH]; intros w t r H Hne.
  - simpl in H. by simplify_eq.
  - apply tickLoop_cons_inv in H as (w1 & v & t' & Hs & Hl & Hw & _).
    rewrite Hw in Hne.
    destruct (decide (statusAt w1 r = statusAt w r)) as [Heq|Hne1].
    + rewrite <- Heq in Hne. destruct (IH _ _ _ Hl Hne) as (s & Hin & Hst & Hp).
      exists s. split; [by right|].
      rewrite <- (sameShape_StateOf w w1) by by eapply tickStep_sameShape.
      split; [done|congruence].
    + exists a. split; [by left|]. by eapply tickStep_changed.
Qed.

(** *** Phases *)

Lemma allTerminated_true w l :
  allTerminated E w l = Some true →
  ∀ x, x ∈ l → ∃ st, stateAt E w x = Some st ∧ StatusIsTerminated (GetStatus st) = true.
Proof.
  induction l as [|a l IH]; intros H x Hin; [by apply elem_of_nil in Hin|].
  simpl in H. destruct (stateAt E w a) as [st|] eqn:Hst; simpl in H; [|done].
  destruct (StatusIsTerminated (GetStatus st)) eqn:Ht; [|done].
  apply elem_of_cons in Hin as [->|Hin]; eauto.
Qed.

Lemma IsPhaseTerminated_true w p b x :
  empty w = false → IsPhaseTerminated E w p = Some true →
  steps w !! p = Some b → x ∈ b →
  ∃ st, stateAt E w x = Some st ∧ StatusIsTerminated (GetStatus st) = true.
Proof.
  intros He H Hb Hx. unfold IsPhaseTerminated in H. rewrite He, Hb in H. simpl in H.
  eapply allTerminated_true; [done|]. by apply rangeSet_elem.
Qed.

Lemma selectPhase_nil w : selectPhase E w [] = Some None.
Proof. done. Qed.

Lemma selectPhase_cons w p ps :
  selectPhase E w (p :: ps) =
  (t ← IsPhaseTerminated E w p;
   if (t : bool) then selectPhase E w ps else Some (steps w !! p)).
Proof. done. Qed.

Lemma selectPhase_inv w ps b :
  selectPhase E w ps = Some (Some b) →
  ∃ l1 q l2, ps = l1 ++ q :: l2 ∧ steps w !! q = Some b ∧
    IsPhaseTerminated E w q = Some false ∧
    ∀ p, p ∈ l1 → IsPhaseTerminated E w p = Some true.
Proof.
  induction ps as [|p ps IH]; intros H; [by rewrite selectPhase_nil in H|].
  rewrite selectPhase_cons in H.
  destruct (IsPhaseTerminated E w p) as [[|]|] eqn:Ht; simpl in H; [| |done].
  - destruct (IH H) as (l1 & q & l2 & -> & ? & ? & Hall).
    exists (p :: l1), q, l2. repeat split; try done.
    intros p' [->|?]%elem_of_cons; auto.
  - simplify_eq. exists [], p, ps. repeat split; try done.
    by intros ? ?%elem_of_nil.
Qed.

Lemma selectPhase_nonempty w ps b :
  selectPhase E w ps = Some (Some b) → empty w = false.
Proof.
  intros H. apply selectPhase_inv in H as (_ & q & _ & _ & _ & Hq & _).
  unfold IsPhaseTerminated in Hq. by destruct (empty w).
Qed.

Lemma WorkflowPhases_split l1 q l2 p :
  WorkflowPhases = l1 ++ q :: l2 → (p ∈ l1 ↔ phaseBefore p q).
Proof.
  unfold phaseBefore, WorkflowPhases. intros H.
  destruct l1 as [|a [|b [|c l1]]]; simpl in H; simplify_eq; [| | |by destruct l1].
  all: split; [intros Hp|intros (Hp & _ & Hlt)].
  all: destruct p; simpl in *; try lia.
  all: try (by apply (bool_decide_pack _) in Hp).
  all: by repeat split; try apply (bool_decide_unpack _); simpl; try lia.
Qed.

Lemma firstPhase_root w s :
  empty w = false → tree w !! s = Some s →
  PhaseOf w s = default PhaseUnknown (firstPhase w s).
Proof.
  intros He Ht. unfold PhaseOf, firstPhase. rewrite He.
  assert (RootOf w s = Some s) as ->; [|done].
  unfold RootOf. rewrite He. unfold StepTree.RootOf.
  destruct (size (tree w)); simpl; rewrite Ht; by rewrite decide_True.
Qed.


(** *** The tick starts only steps that are ready *)

(** C1.  Every goroutine that [tick] starts belongs to a step of the
    selected bucket whose state, when the loop visited it, was [Pending]
    and whose upstreams (as [UpstreamOf] reports them at that moment) were
    all terminal; its status is [Running] when [tick] returns.  No other
    status becomes [Running] in the tick, and a visit that finds an
    upstream that is not terminal leaves the workflow as it is. *)
Theorem tick_starts_only_ready_steps w ctx t fin :
  tick E w ctx = Some (t, fin) →
  (∀ s r, (s, r) ∈ tickLaunched t →
     ∃ b l1 l2 ti ups,
       selectPhase E w WorkflowPhases = Some (Some b) ∧
       rangeSet E b = l1 ++ s :: l2 ∧
       tickLoop E w ctx l1 = Some ti ∧
       StateOf E (tickWorkflow ti) s = Some r ∧
       statusAt (tickWorkflow ti) r = Some Pending ∧
       UpstreamOf E (tickWorkflow ti) s = Some ups ∧
       allTerminal ups ∧
       statusAt (tickWorkflow t) r = Some Running)
  ∧ (∀ r, statusAt (tickWorkflow t) r = Some Running →
       statusAt w r = Some Running ∨ ∃ s, (s, r) ∈ tickLaunched t)
  ∧ (∀ wi s ups w' v,
       tickStep E wi ctx s = Some (w', v) → UpstreamOf E wi s = Some ups →
       ¬ allTerminal ups → w' = wi ∧ v = VisitSkip).
Proof.
  intros H. unfold tick in H.
  destruct (selectPhase E w WorkflowPhases) as [[b|]|] eqn:Hsel; simpl in H; [| |done].
  2:{ simplify_eq. simpl. split; [by intros ? ? ?%elem_of_nil|]. split; [auto|].
      intros wi s ups w' v Hs Hu Hnt. apply tickStep_inv in Hs as (r & st & _ & _ & Hv).
      destruct v; [by destruct Hv| |].
      - destruct Hv as (_ & ups' & ? & ?%isAnyUpstreamNotTerminated_false & _). congruence.
      - destruct Hv as (_ & _ & ups' & ? & ?%isAnyUpstreamNotTerminated_false & _). congruence. }
  destruct (tickLoop E w ctx (rangeSet E b)) as [t'|] eqn:Hl; simpl in H; [|done].
  simplify_eq. split; [|split].
  - intros s r Hin.
    destruct (tickLoop_launched _ _ _ _ _ _ Hl Hin) as (l1 & l2 & ti & w' & Hsplit & Hl1 & Hs).
    pose proof Hs as Hs'.
    apply tickStep_inv in Hs' as (r0 & st & Hr0 & Hd & <- & Hp & ups & Hu & Hany & _ & Hw').
    exists b, l1, l2, ti, ups. repeat split; try done.
    + unfold statusAt. rewrite Hd. simpl. by f_equal.
    + by apply isAnyUpstreamNotTerminated_false.
    + rewrite Hsplit in Hl.
      destruct (tickLoop_app_inv _ _ _ _ _ _ Hl Hl1) as (t2 & Ht2 & <-).
      apply tickLoop_cons_inv in Ht2 as (w1 & v & t3 & Hs2 & Hl3 & -> & _).
      rewrite Hs in Hs2. simplify_eq.
      eapply tickLoop_keeps; [done|done| |done].
      rewrite statusAt_update, decide_True by done. by rewrite Hd.
  - intros r Hr. eapply tickLoop_running; eauto.
  - intros wi s ups w' v Hs Hu Hnt. apply tickStep_inv in Hs as (r & st & _ & _ & Hv).
    destruct v; [by destruct Hv| |].
    + destruct Hv as (_ & ups' & ? & ?%isAnyUpstreamNotTerminated_false & _). congruence.
    + destruct Hv as (_ & _ & ups' & ? & ?%isAnyUpstreamNotTerminated_false & _). congruence.
Qed.

(** *** The tick dispatches one phase at a time *)

(** Whatever status [tick] writes (to [Running], or to the terminal
    status the step's [Condition] gave) is the status of a member [s] of
    the bucket [b] of the selected phase [q]: the first phase of
    [Init, Main, Defer] that is not terminated.  Every step of every
    earlier phase has a terminal status when the tick starts, [q] is the
    first phase whose bucket has [s], and it is what [PhaseOf] answers for
    [s] when [s] is a root.  When [s] is no root, the state that is
    written is that of its root, whose phase may be a later one. *)
Theorem tick_dispatches_earliest_unfinished_phase w ctx t fin r :
  tick E w ctx = Some (t, fin) →
  statusAt (tickWorkflow t) r ≠ statusAt w r →
  ∃ q b s,
    selectPhase E w WorkflowPhases = Some (Some b) ∧
    q ∈ WorkflowPhases ∧ steps w !! q = Some b ∧
    IsPhaseTerminated E w q = Some false ∧
    (∀ p, phaseBefore p q →
       IsPhaseTerminated E w p = Some true ∧
       ∀ bp x, steps w !! p = Some bp → x ∈ bp →
         ∃ st, stateAt E w x = Some st ∧ StatusIsTerminated (GetStatus st) = true) ∧
    s ∈ b ∧ StateOf E w s = Some r ∧ statusAt w r = Some Pending ∧
    firstPhase w s = Some q ∧
    (tree w !! s = Some s → PhaseOf w s = q).
Proof.
  intros H Hne. unfold tick in H.
  destruct (selectPhase E w WorkflowPhases) as [[b|]|] eqn:Hsel; simpl in H; [| |done].
  2:{ by simplify_eq. }
  destruct (tickLoop E w ctx (rangeSet E b)) as [t'|] eqn:Hl; simpl in H; [|done].
  simplify_eq.
  destruct (tickLoop_changed _ _ _ _ _ Hl Hne) as (s & Hin & Hst & Hp).
  apply rangeSet_elem in Hin.
  pose proof (selectPhase_nonempty _ _ _ Hsel) as He.
  destruct (selectPhase_inv _ _ _ Hsel) as (l1 & q & l2 & Hsplit & Hb & Hq & Hbefore).
  assert (∀ p, phaseBefore p q →
       IsPhaseTerminated E w p = Some true ∧
       ∀ bp x, steps w !! p = Some bp → x ∈ bp →
         ∃ st, stateAt E w x = Some st ∧ StatusIsTerminated (GetStatus st) = true) as Hearlier.
  { intros p Hpq. apply (WorkflowPhases_split _ _ _ p Hsplit) in Hpq.
    split; [auto|]. intros bp x Hbp Hx. eapply IsPhaseTerminated_true; eauto. }
  assert (firstPhase w s = Some q) as Hfirst.
  { unfold firstPhase. rewrite Hsplit. clear Hsplit.
    induction l1 as [|p l1 IH]; simpl.
    - unfold bucketHas. rewrite Hb. by rewrite bool_decide_eq_true_2.
    - destruct (bucketHas w p (Some s)) eqn:Hps.
      + exfalso. unfold bucketHas in Hps. destruct (steps w !! p) as [bp|] eqn:Hbp; [|done].
        apply bool_decide_eq_true in Hps.
        destruct (IsPhaseTerminated_true w p bp s He) as (st & Hsa & Hterm); auto.
        { apply Hbefore. by left. }
        unfold stateAt in Hsa. rewrite Hst in Hsa. simpl in Hsa.
        unfold statusAt in Hp. rewrite Hsa in Hp. simpl in Hp. simplify_eq.
        rewrite Hp in Hterm. done.
      + apply IH. intros. apply Hbefore. by right. }
  exists q, b, s. repeat split; try done.
  - rewrite Hsplit. apply elem_of_app. right. by left.
  - by apply Hearlier.
  - by apply Hearlier.
  - intros Hroot. rewrite firstPhase_root by done. by rewrite Hfirst.
Qed.


(** *** Preflight: the scan *)

Lemma scanStep_inv w b s w' b' :
  scanStep E (w, b) s = Some (w', b') →
  ∃ st, state w !! s = Some st ∧
    ((GetStatus st = scanned ∧ w' = w ∧ b' = b) ∨
     (GetStatus st ≠ scanned ∧ ∃ ups, UpstreamOf E w s = Some ups ∧
        ((isAllUpstreamScanned ups = true ∧ w' = mark w s ∧ b' = true) ∨
         (isAllUpstreamScanned ups = false ∧ w' = w ∧ b' = b)))).
Proof.
  unfold scanStep. simpl. intros H.
  destruct (state w !! s) as [st|] eqn:Hst; simpl in H; [|done].
  exists st. split; [done|]. case_decide as Hsc.
  { simplify_eq. auto. }
  right. split; [done|].
  destruct (UpstreamOf E w s) as [ups|] eqn:Hu; simpl in H; [|done].
  exists ups. split; [done|].
  destruct (isAllUpstreamScanned ups) eqn:Hall; simplify_eq; auto.
Qed.

Lemma scanStep_total w b s :
  is_Some (state w !! s) → is_Some (UpstreamOf E w s) → is_Some (scanStep E (w, b) s).
Proof.
  intros [st Hst] [ups Hu]. unfold scanStep. simpl. rewrite Hst. simpl.
  case_decide; [eauto|]. rewrite Hu. simpl. destruct (isAllUpstreamScanned ups); eauto.
Qed.

Section ScanInvariant.
(** A property of the workflow that marking a markable step keeps. *)
Variable P : Workflow → Prop.
Hypothesis P_mark : ∀ w s st ups,
  P w → state w !! s = Some st → GetStatus st ≠ scanned →
  UpstreamOf E w s = Some ups → isAllUpstreamScanned ups = true → P (mark w s).

Lemma scanStep_invariant w b s w' b' :
  P w → scanStep E (w, b) s = Some (w', b') → P w'.
Proof.
  intros HP H. apply scanStep_inv in H as (st & Hst & [(_ & -> & _)|(Hns & ups & Hu & H)]);
    [done|].
  destruct H as [(Hall & -> & _)|(_ & -> & _)]; [|done]. eauto.
Qed.

Lemma scanSteps_invariant l : ∀ w b w' b',
  P w → foldM (scanStep E) (w, b) l = Some (w', b') → P w'.
Proof.
  induction l as [|s l IH]; intros w b w' b' HP H.
  - simpl in H. by simplify_eq.
  - rewrite foldM_cons in H.
    destruct (scanStep E (w, b) s) as [[w1 b1]|] eqn:Hs; simpl in H; [|done].
    eapply IH; [|done]. by eapply scanStep_invariant.
Qed.

Lemma scanLoop_invariant n : ∀ w w',
  P w → scanLoop E n w = Some w' → P w'.
Proof.
  induction n as [|n IH]; intros w w' HP H; simpl in H.
  - destruct (scanPass E w) as [[w1 b1]|] eqn:Hp; simpl in H; [|done].
    assert (P w1) by (by eapply scanSteps_invariant).
    destruct b1; by simplify_eq.
  - destruct (scanPass E w) as [[w1 b1]|] eqn:Hp; simpl in H; [|done].
    assert (P w1) by (by eapply scanSteps_invariant).
    destruct b1; [by eapply IH|by simplify_eq].
Qed.

(** When the property makes [UpstreamOf] defined on the state table, the
    scan dereferences no nil state. *)
Hypothesis P_total : ∀ w s, P w → is_Some (state w !! s) → is_Some (UpstreamOf E w s).
Hypothesis P_keys : ∀ w w0 s, P w0 → P w → is_Some (state w0 !! s) → is_Some (state w !! s).

Lemma scanSteps_total w0 l : ∀ w b,
  P w0 → P w → (∀ s, s ∈ l → is_Some (state w0 !! s)) →
  is_Some (foldM (scanStep E) (w, b) l).
Proof.
  induction l as [|s l IH]; intros w b HP0 HP Hl; [by eexists|].
  rewrite foldM_cons.
  destruct (scanStep_total w b s) as [[w1 b1] Hs].
  { apply (P_keys w w0 s HP0 HP). apply Hl. by left. }
  { apply P_total; [done|]. apply (P_keys w w0 s HP0 HP). apply Hl. by left. }
  rewrite Hs. simpl. apply IH; [done| |].
  - by eapply scanStep_invariant.
  - intros. apply Hl. by right.
Qed.

Lemma scanPass_total w : P w → is_Some (scanPass E w).
Proof.
  intros HP. unfold scanPass. apply (scanSteps_total w); [done|done|].
  intros s Hs. by apply rangeMap_keys in Hs.
Qed.

Lemma scanLoop_total n : ∀ w, P w → is_Some (scanLoop E n w).
Proof.
  induction n as [|n IH]; intros w HP; simpl.
  - destruct (scanPass_total w HP) as [[w1 b1] Hp]. rewrite Hp. simpl.
    destruct b1; eauto.
  - destruct (scanPass_total w HP) as [[w1 b1] Hp]. rewrite Hp. simpl.
    destruct b1; [|eauto]. apply IH. by eapply scanSteps_invariant.
Qed.
End ScanInvariant.

Lemma mark_sameShape w s : sameShape w (mark w s).
Proof. by apply sameShape_update. Qed.

Lemma mark_state w s s' :
  state (mark w s) !! s' =
  if decide (s = s') then SetStatus scanned <$> state w !! s' else state w !! s'.
Proof. unfold mark, update. cbn [state]. rewrite lookup_alter. by case_decide; subst. Qed.

Lemma mark_inner w s : inner (mark w s) = inner w.
Proof. done. Qed.


Lemma climb_root n : ∀ t s r, StepTree.climb n t s = Some r → t !! r = Some r.
Proof.
  induction n as [|n IH]; intros t s r H; simpl in H.
  - destruct (t !! s) as [p|] eqn:Hp; [|done]. case_decide; by simplify_eq.
  - destruct (t !! s) as [p|] eqn:Hp; [|done]. case_decide; [by simplify_eq|eauto].
Qed.

Lemma RootOf_root w s r : RootOf w s = Some r → tree w !! r = Some r ∧ empty w = false.
Proof.
  unfold RootOf. destruct (empty w); [done|]. intros H. split; [|done].
  by apply climb_root in H.
Qed.

Lemma RootOf_of_root w s : empty w = false → tree w !! s = Some s → RootOf w s = Some s.
Proof.
  intros He Ht. unfold RootOf. rewrite He. unfold StepTree.RootOf.
  destruct (size (tree w)); simpl; rewrite Ht; by rewrite decide_True.
Qed.

Lemma StateOf_root w k :
  empty w = false → tree w !! k = Some k →
  StateOf E w k = const (RootState k) <$> state w !! k.
Proof. intros He Ht. unfold StateOf. rewrite He, Ht. by rewrite decide_True. Qed.

Lemma stateAt_root w k :
  empty w = false → tree w !! k = Some k → stateAt E w k = state w !! k.
Proof.
  intros He Ht. unfold stateAt. rewrite StateOf_root by done.
  by destruct (state w !! k) eqn:Hk; simpl; rewrite ?Hk.
Qed.

(** The status [UpstreamOf] reports for a key is the one in the state
    table: a key is a root. *)
Lemma UpstreamOf_key_root w s ups k se :
  UpstreamOf E w s = Some ups → ups !! k = Some se →
  ∃ st, state w !! k = Some st ∧ se = GetStatusError st.
Proof.
  intros Hu Hk. apply (UpstreamOf_lookup _ _ _ _ _ Hu) in Hk
    as (r & st & up & He & _ & _ & _ & _ & Hr & Hent).
  apply RootOf_root in Hr as [Hr _]. unfold entryAt in Hent.
  rewrite stateAt_root in Hent by done.
  destruct (state w !! k) as [st'|]; simpl in Hent; [|done]. simplify_eq. eauto.
Qed.

Lemma sameShape_entryAt w w' k :
  sameShape w w' → is_Some (entryAt E w k) → is_Some (entryAt E w' k).
Proof.
  intros Hsh [se H]. unfold entryAt in *.
  destruct (stateAt E w k) as [st|] eqn:Hst; [|done].
  destruct (sameShape_stateAt_Some _ _ _ _ Hsh Hst) as (st' & -> & _). by eexists.
Qed.

Lemma sameShape_inPhases w w' r : sameShape w w' → inPhases w' r = inPhases w r.
Proof.
  intros Hsh. unfold inPhases. induction WorkflowPhases as [|p ps IH]; [done|].
  simpl. by rewrite (sameShape_bucketHas _ _ _ _ Hsh), IH.
Qed.

Lemma UpstreamOf_sameShape_key w w' s ups ups' k :
  sameShape w w' → UpstreamOf E w s = Some ups → UpstreamOf E w' s = Some ups' →
  is_Some (ups !! k) → is_Some (ups' !! k).
Proof.
  intros Hsh Hu Hu' [se Hk].
  apply (UpstreamOf_lookup _ _ _ _ _ Hu) in Hk
    as (r & st & up & He & Hr & Hin & Hst & Hup & Hrk & Hent).
  destruct (sameShape_stateAt_Some _ _ _ _ Hsh Hst) as (st' & Hst' & Hcfg).
  destruct (sameShape_entryAt _ _ k Hsh) as [se' Hent']; [by eexists|].
  exists se'. apply (UpstreamOf_lookup _ _ _ _ _ Hu').
  exists r, st', up. repeat split.
  - by rewrite (sameShape_empty _ _ Hsh).
  - by rewrite (sameShape_RootOf _ _ _ Hsh).
  - by rewrite (sameShape_inPhases _ _ _ Hsh).
  - done.
  - unfold StateUpstreams in *. by rewrite Hcfg.
  - by rewrite (sameShape_RootOf _ _ _ Hsh).
  - done.
Qed.

Lemma UpstreamOf_sameShape_total w w' s :
  sameShape w w' → is_Some (UpstreamOf E w s) → is_Some (UpstreamOf E w' s).
Proof.
  intros Hsh Hs. destruct (empty w) eqn:He.
  { unfold UpstreamOf. rewrite (sameShape_empty _ _ Hsh), He. by eexists. }
  rewrite UpstreamOf_unfold in Hs by done.
  rewrite UpstreamOf_unfold by by rewrite (sameShape_empty _ _ Hsh).
  rewrite (sameShape_RootOf _ _ _ Hsh).
  destruct (RootOf w s) as [r|]; [|rewrite upBody_None; by eexists].
  apply upBody_total. intros Hin.
  assert (existsb (λ p, bucketHas w p (Some r)) WorkflowPhases = true) as Hin0.
  { rewrite <- Hin. symmetry. apply (sameShape_inPhases _ _ _ Hsh). }
  apply upBody_total in Hs; [|done]. destruct Hs as [[st Hst] Hups].
  destruct (sameShape_stateAt_Some _ _ _ _ Hsh Hst) as (st' & Hst' & Hcfg).
  split; [by eexists|]. intros up Hup.
  unfold upList in Hup, Hups. rewrite Hst' in Hup. rewrite Hst in Hups.
  unfold StateUpstreams in *. rewrite Hcfg in Hup.
  destruct (Hups up Hup) as (k & Hk & [stk Hstk]).
  exists k. rewrite (sameShape_RootOf _ _ _ Hsh). split; [done|].
  destruct (sameShape_stateAt_Some _ _ _ _ Hsh Hstk) as (? & -> & _). by eexists.
Qed.

Lemma isAllUpstreamScanned_true ups k se :
  isAllUpstreamScanned ups = true → ups !! k = Some se → Status se = scanned.
Proof.
  unfold isAllUpstreamScanned. intros H%bool_decide_eq_true Hk. by apply (H k se).
Qed.

(** *** Preflight on a cycle *)

Section Cycle.
Variable w0 : Workflow.
Variable c : list positive.
Hypothesis w0_fresh : allPending w0.
Hypothesis w0_defined : upstreamsDefined E w0.
Hypothesis w0_cycle : hasCycle E w0 c.

Lemma cycle_next s :
  s ∈ c → is_Some (state w0 !! s) ∧
  ∃ u ups, u ∈ c ∧ UpstreamOf E w0 s = Some ups ∧ is_Some (ups !! u).
Proof.
  intros (i & Hi)%list_elem_of_lookup. destruct w0_cycle as [_ Hc].
  destruct (Hc i s Hi) as (Hs & u & ups & Hu & Hups & Hk).
  split; [done|]. exists u, ups. split; [|done]. by eapply list_elem_of_lookup_2.
Qed.

Lemma scanInv_init : (scanInv w0 c) w0.
Proof.
  split; [apply sameShape_refl|]. split; [done|]. split.
  - intros s st Hst. left. by eapply w0_fresh.
  - intros s st _ Hst. rewrite (w0_fresh _ _ Hst). done.
Qed.

Lemma scanInv_mark w s st ups :
  (scanInv w0 c) w → state w !! s = Some st → GetStatus st ≠ scanned →
  UpstreamOf E w s = Some ups → isAllUpstreamScanned ups = true → (scanInv w0 c) (mark w s).
Proof.
  intros (Hsh & Hin & Hst & Hcy) Hs Hns Hu Hall.
  assert (s ∉ c) as Hnc.
  { intros Hc. destruct (cycle_next s Hc) as (_ & u & ups0 & Huc & Hu0 & Hk0).
    destruct (UpstreamOf_sameShape_key _ _ _ _ _ u Hsh Hu0 Hu Hk0) as [se Hse].
    pose proof (isAllUpstreamScanned_true _ _ _ Hall Hse) as Hsc.
    destruct (UpstreamOf_key_root _ _ _ _ _ Hu Hse) as (stu & Hstu & ->).
    by apply (Hcy u stu Huc Hstu). }
  split; [eapply sameShape_trans; [done|apply mark_sameShape]|].
  split; [done|]. split.
  - intros s' st' H. rewrite mark_state in H. case_decide; [|eauto]. subst.
    rewrite Hs in H. simpl in H. simplify_eq. by right.
  - intros s' st' Hc H. rewrite mark_state in H. case_decide; [|eauto]. by subst.
Qed.

Lemma scanInv_total w s : (scanInv w0 c) w → is_Some (state w !! s) → is_Some (UpstreamOf E w s).
Proof.
  intros (Hsh & _) Hs. eapply UpstreamOf_sameShape_total; [done|].
  apply w0_defined. by apply (sameShape_state_is_Some _ _ s Hsh).
Qed.

Lemma scanInv_keys w w' s :
  (scanInv w0 c) w' → (scanInv w0 c) w → is_Some (state w' !! s) → is_Some (state w !! s).
Proof.
  intros (Hsh' & _) (Hsh & _) Hs. apply (sameShape_state_is_Some _ _ s Hsh).
  by apply (sameShape_state_is_Some _ _ s Hsh') in Hs.
Qed.

Lemma scanLoop_cycle n :
  ∃ w1, scanLoop E n w0 = Some w1 ∧ (scanInv w0 c) w1.
Proof.
  destruct (scanLoop_total (scanInv w0 c) scanInv_mark scanInv_total scanInv_keys n w0 scanInv_init)
    as [w1 H1].
  exists w1. split; [done|].
  eapply (scanLoop_invariant (scanInv w0 c) scanInv_mark); [apply scanInv_init|done].
Qed.
End Cycle.


(** *** The scan reaches its fixpoint *)

Lemma elem_of_unscanned w s :
  s ∈ unscanned w ↔ ∃ st, state w !! s = Some st ∧ GetStatus st ≠ scanned.
Proof.
  unfold unscanned. rewrite elem_of_dom. unfold is_Some.
  setoid_rewrite map_lookup_filter_Some. naive_solver.
Qed.

Lemma unscanned_size w : size (unscanned w) ≤ size (state w).
Proof.
  unfold unscanned. rewrite size_dom. apply map_subseteq_size, map_filter_subseteq.
Qed.

Lemma unscanned_mark w s st :
  state w !! s = Some st → GetStatus st ≠ scanned → unscanned (mark w s) ⊂ unscanned w.
Proof.
  intros Hs Hns. split.
  - intros s' (st' & H & Hns')%elem_of_unscanned. apply elem_of_unscanned.
    rewrite mark_state in H. case_decide; [|eauto]. subst.
    rewrite Hs in H. simpl in H. by simplify_eq.
  - intros Hsub. assert (s ∈ unscanned (mark w s)) as (st' & H & Hns')%elem_of_unscanned.
    { apply Hsub, elem_of_unscanned. eauto. }
    rewrite mark_state, decide_True, Hs in H by done. simpl in H. by simplify_eq.
Qed.

Lemma scanSteps_flag l : ∀ w b w' b',
  foldM (scanStep E) (w, b) l = Some (w', b') →
  size (unscanned w') ≤ size (unscanned w) ∧
  (b' = true → b = true ∨ size (unscanned w') < size (unscanned w)) ∧
  (b' = false →
     w' = w ∧ b = false ∧
     ∀ s st, s ∈ l → state w !! s = Some st → GetStatus st ≠ scanned →
       ∃ ups, UpstreamOf E w s = Some ups ∧ isAllUpstreamScanned ups = false).
Proof.
  induction l as [|s l IH]; intros w b w' b' H.
  - simpl in H. simplify_eq. split; [done|]. split; [auto|].
    intros ->. repeat split; try done. by intros ? ? ?%elem_of_nil.
  - rewrite foldM_cons in H.
    destruct (scanStep E (w, b) s) as [[w1 b1]|] eqn:Hs; simpl in H; [|done].
    destruct (IH _ _ _ _ H) as (Hsub & Htrue & Hfalse).
    apply scanStep_inv in Hs as (st & Hst & Hcase).
    destruct Hcase as [(Hsc & -> & ->)|(Hns & ups & Hu & [(Hall & -> & ->)|(Hall & -> & ->)])].
    + split; [done|]. split; [done|]. intros Hb'.
      destruct (Hfalse Hb') as (-> & -> & Hl). repeat split; try done.
      intros s' st' [->|Hin]%elem_of_cons Hst' Hns'; [congruence|eauto].
    + pose proof (subset_size _ _ (unscanned_mark _ _ _ Hst Hns)) as Hstrict.
      split; [lia|]. split; [intros _; right; lia|].
      intros Hb'. by destruct (Hfalse Hb') as (_ & ? & _).
    + split; [done|]. split; [done|]. intros Hb'.
      destruct (Hfalse Hb') as (-> & -> & Hl). repeat split; try done.
      intros s' st' [->|Hin]%elem_of_cons Hst' Hns'; [|eauto].
      simplify_eq. eauto.
Qed.

(** With the fuel that [preflight] gives it, the scan ends in a pass that
    marks nothing: the [for] loop always reaches its [break]. *)
Lemma scanLoop_fixpoint n : ∀ w w1,
  size (unscanned w) ≤ n → scanLoop E n w = Some w1 → scanPass E w1 = Some (w1, false).
Proof.
  induction n as [|n IH]; intros w w1 Hsz H; simpl in H.
  - destruct (scanPass E w) as [[w' b']|] eqn:Hp; simpl in H; [|done].
    destruct (scanSteps_flag _ _ _ _ _ Hp) as (Hle & Htrue & Hfalse).
    destruct b'.
    + destruct (Htrue eq_refl) as [?|?]; [done|lia].
    + simplify_eq. destruct (Hfalse eq_refl) as (-> & _). done.
  - destruct (scanPass E w) as [[w' b']|] eqn:Hp; simpl in H; [|done].
    destruct (scanSteps_flag _ _ _ _ _ Hp) as (Hle & Htrue & Hfalse).
    destruct b'.
    + eapply IH; [|done]. destruct (Htrue eq_refl) as [?|?]; [done|lia].
    + simplify_eq. destruct (Hfalse eq_refl) as (-> & _). done.
Qed.

(** After the scan, every step that is not scanned has an upstream that is
    not scanned. *)
Lemma scanLoop_unscanned_has_unscanned_upstream w w1 s st :
  scanLoop E (size (state w)) w = Some w1 →
  state w1 !! s = Some st → GetStatus st ≠ scanned →
  ∃ ups k se, UpstreamOf E w1 s = Some ups ∧ ups !! k = Some se ∧ Status se ≠ scanned.
Proof.
  intros Hl Hst Hns.
  pose proof (scanLoop_fixpoint _ _ _ (unscanned_size w) Hl) as Hp.
  destruct (scanSteps_flag _ _ _ _ _ Hp) as (_ & _ & Hfalse).
  destruct (Hfalse eq_refl) as (_ & _ & Hall).
  destruct (Hall s st) as (ups & Hu & Hnot); [|done|done|].
  { apply rangeMap_keys. eauto. }
  unfold isAllUpstreamScanned in Hnot. apply bool_decide_eq_false in Hnot.
  apply map_not_Forall in Hnot as (k & se & Hk & Hse); [|apply _].
  eauto 10.
Qed.

(** *** The third loop of preflight *)

Lemma cycleStep_eq w acc s acc' :
  cycleStep E w acc s = Some acc' →
  acc' = match cycleEntry E w s with
         | Some l => <[s := default [] (acc !! s) ++ l]> acc
         | None => acc
         end.
Proof.
  unfold cycleStep, cycleEntry. intros H.
  destruct (state w !! s) as [st|]; simpl in *; [|done].
  case_decide; [by simplify_eq|].
  destruct (UpstreamOf E w s) as [ups|]; simpl in *; [|done].
  destruct ((filter _ _).*1); by simplify_eq.
Qed.

Lemma cycleStep_total w acc s :
  is_Some (state w !! s) → is_Some (UpstreamOf E w s) → is_Some (cycleStep E w acc s).
Proof.
  intros [st Hst] [ups Hu]. unfold cycleStep. rewrite Hst. simpl.
  case_decide; [by eexists|]. rewrite Hu. simpl.
  destruct ((filter _ _).*1); by eexists.
Qed.

Lemma cycleSteps_lookup w l : ∀ acc m,
  NoDup l → foldM (cycleStep E w) acc l = Some m → (∀ s, s ∈ l → acc !! s = None) →
  ∀ s, m !! s = if decide (s ∈ l) then cycleEntry E w s else acc !! s.
Proof.
  induction l as [|a l IH]; intros acc m Hnd H Hacc s.
  - simpl in H. simplify_eq. rewrite decide_False; [done|]. by intros ?%elem_of_nil.
  - rewrite foldM_cons in H.
    destruct (cycleStep E w acc a) as [acc1|] eqn:Ha; simpl in H; [|done].
    apply cycleStep_eq in Ha. apply NoDup_cons in Hnd as [Hna Hnd].
    assert (∀ s, s ≠ a → acc1 !! s = acc !! s) as Hother.
    { intros s' Hne. subst acc1. destruct (cycleEntry E w a); [|done].
      by rewrite lookup_insert_ne. }
    rewrite (IH _ _ Hnd H).
    2:{ intros s' Hin. rewrite Hother; [|by intros ->]. apply Hacc. by right. }
    destruct (decide (s ∈ l)) as [Hin|Hnin].
    + rewrite decide_True; [done|by right].
    + destruct (decide (s = a)) as [->|Hne].
      * rewrite decide_True by by left. subst acc1.
        rewrite (Hacc a) by by left.
        destruct (cycleEntry E w a); [by rewrite lookup_insert_eq|]. apply Hacc. by left.
      * rewrite decide_False by by intros [?|?]%elem_of_cons. by apply Hother.
Qed.

Lemma cycleSteps_total w l : ∀ acc,
  (∀ s, s ∈ l → is_Some (state w !! s) ∧ is_Some (UpstreamOf E w s)) →
  is_Some (foldM (cycleStep E w) acc l).
Proof.
  induction l as [|a l IH]; intros acc H; [by eexists|].
  rewrite foldM_cons.
  destruct (cycleStep_total w acc a) as [acc1 ->]; [apply H; by left..|].
  simpl. apply IH. intros. apply H. by right.
Qed.

Lemma rangeMap_keys_NoDup {A} (m : gmap positive A) : NoDup (rangeMap E A m).*1.
Proof.
  destruct E_ok as [H _]. rewrite (H A m). apply NoDup_fst_map_to_list.
Qed.

(** What [stepsInCycle] holds for each step. *)
Lemma stepsInCycle_lookup w m s :
  stepsInCycle E w = Some m → m !! s = cycleEntry E w s.
Proof.
  intros H. unfold stepsInCycle in H.
  rewrite (cycleSteps_lookup _ _ _ _ (rangeMap_keys_NoDup _) H) by done.
  case_decide as Hin; [done|]. rewrite lookup_empty.
  unfold cycleEntry. destruct (state w !! s) as [st|] eqn:Hst; [|done].
  destruct Hin. apply rangeMap_keys. eauto.
Qed.

Lemma cycleEntry_Some w s l :
  cycleEntry E w s = Some l ↔
  ∃ st ups, state w !! s = Some st ∧ GetStatus st ≠ scanned ∧
    UpstreamOf E w s = Some ups ∧ l ≠ [] ∧
    l = (filter (λ kv, Status kv.2 ≠ scanned) (rangeMap E _ ups)).*1.
Proof.
  unfold cycleEntry. split.
  - intros H. destruct (state w !! s) as [st|]; simpl in H; [|done].
    case_decide; [done|].
    destruct (UpstreamOf E w s) as [ups|]; simpl in H; [|done].
    exists st, ups. destruct ((filter _ _).*1) eqn:Hf; [done|]. by simplify_eq.
  - intros (st & ups & -> & Hns & -> & Hne & ->). simpl.
    rewrite decide_False by done. by destruct ((filter _ _).*1).
Qed.

Lemma elem_of_unscanned_upstreams ups u :
  u ∈ (filter (λ kv : positive * StatusError, Status kv.2 ≠ scanned) (rangeMap E _ ups)).*1 ↔
  ∃ se, ups !! u = Some se ∧ Status se ≠ scanned.
Proof.
  rewrite list_elem_of_fmap. split.
  - intros ([k se] & -> & [Hns Hin%rangeMap_elem]%list_elem_of_filter). eauto.
  - intros (se & Hu & Hns). exists (u, se). split; [done|].
    apply list_elem_of_filter. split; [done|]. by apply rangeMap_elem.
Qed.


(** *** [preflight] and [Do] *)

Lemma unexpectStatusSteps_empty w :
  size (unexpectStatusSteps w) = 0 ↔ allPending w.
Proof.
  unfold unexpectStatusSteps, allPending.
  rewrite map_size_empty_iff, fmap_empty_iff, map_empty_filter. unfold map_Forall. simpl.
  split; intros H s st Hst; specialize (H s st Hst).
  - by apply dec_stable in H.
  - auto.
Qed.

Lemma unexpectStatusSteps_lookup w s ss :
  unexpectStatusSteps w !! s = Some ss ↔
  ∃ st, state w !! s = Some st ∧ GetStatus st = ss ∧ ss ≠ Pending.
Proof.
  unfold unexpectStatusSteps. rewrite lookup_fmap, fmap_Some. split.
  - intros (st & [Hst Hne]%map_lookup_filter_Some & ->). by exists st.
  - intros (st & Hst & <- & Hne). exists st. split; [|done].
    by apply map_lookup_filter_Some.
Qed.

Lemma preflight_unexpect w :
  ¬ allPending w →
  preflight E w = Some (w, Some (ErrUnexpectStepInitStatus (unexpectStatusSteps w))).
Proof.
  intros H. unfold preflight. rewrite bool_decide_eq_true_2; [done|].
  rewrite <- unexpectStatusSteps_empty in H. lia.
Qed.

Lemma preflight_pending w :
  allPending w →
  preflight E w =
  (w1 ← scanLoop E (size (state w)) w;
   cyc ← stepsInCycle E w1;
   if bool_decide (0 < size cyc) then Some (w1, Some (ErrCycleDependency cyc))
   else Some (resetPending w1, None)).
Proof.
  intros H. unfold preflight. rewrite bool_decide_eq_false_2; [done|].
  apply unexpectStatusSteps_empty in H. lia.
Qed.

Lemma hasCycle_nonempty w c : hasCycle E w c → empty w = false.
Proof.
  intros [Hne Hc]. destruct c as [|s c]; [done|].
  destruct (Hc 0 s eq_refl) as (_ & u & ups & _ & Hu & [se Hse]).
  by apply (UpstreamOf_lookup _ _ _ _ _ Hu) in Hse as (?&?&?&?&_).
Qed.

(** C3, as the code has it.  On a workflow that is not running, whose
    states are all [Pending] (as the build leaves them) and whose upstream
    relation over the roots has a cycle, [Do] returns an [ErrCycleDependency], whatever the
    schedule.  Its keys are the steps of the state table left unscanned,
    the steps of the cycle among them; each is listed with the keys of its
    [UpstreamOf] whose status is not scanned.  No step was started: the
    workflow differs only by scan marks, no state is [Running]. *)
Theorem Do_rejects_cycle ctx sched w c :
  isRunning w = false → allPending w → upstreamsDefined E w → hasCycle E w c →
  ∃ w1 m,
    Do E ctx sched w = Some (w1, Some (ErrCycleDependency m)) ∧
    (∀ s, s ∈ c → is_Some (m !! s)) ∧
    (∀ s, is_Some (m !! s) ↔ s ∈ unscanned w1) ∧
    (∀ s l, m !! s = Some l →
       ∃ ups, UpstreamOf E w1 s = Some ups ∧
         ∀ u, u ∈ l ↔ ∃ se, ups !! u = Some se ∧ Status se ≠ scanned) ∧
    sameShape w w1 ∧ inner w1 = inner w ∧ isRunning w1 = false ∧
    (∀ s st, state w1 !! s = Some st → GetStatus st = Pending ∨ GetStatus st = scanned).
Proof.
  intros Hrun Hfresh Hdef Hcyc.
  pose proof (hasCycle_nonempty _ _ Hcyc) as He.
  set (w0 := withRunning w true).
  assert (allPending w0) as Hfresh0 by done.
  assert (upstreamsDefined E w0) as Hdef0 by done.
  assert (hasCycle E w0 c) as Hcyc0 by done.
  destruct (scanLoop_cycle w0 c Hfresh0 Hdef0 Hcyc0 (size (state w0)))
    as (w1 & Hscan & Hsh & Hinner & Hstat & Hcy).
  assert (∀ s, is_Some (state w1 !! s) → is_Some (UpstreamOf E w1 s)) as Hdef1.
  { intros s Hs. eapply UpstreamOf_sameShape_total; [exact Hsh|].
    apply Hdef0. by apply (sameShape_state_is_Some _ _ s Hsh). }
  destruct (cycleSteps_total w1 (rangeMap E _ (state w1)).*1 ∅) as [m Hm].
  { intros s Hs%rangeMap_keys. auto. }
  fold (stepsInCycle E w1) in Hm.
  assert (∀ s, is_Some (m !! s) ↔ s ∈ unscanned w1) as Hkeys.
  { intros s. rewrite (stepsInCycle_lookup _ _ _ Hm), elem_of_unscanned. split.
    - intros [l (st & ups & ? & ? & _)%cycleEntry_Some]. eauto.
    - intros (st & Hst & Hns).
      destruct (scanLoop_unscanned_has_unscanned_upstream _ _ _ _ Hscan Hst Hns)
        as (ups & k & se & Hu & Hk & Hse).
      eexists. apply cycleEntry_Some. exists st, ups. repeat split; try done.
      intros Hnil. assert (k ∈ @nil positive) as Hin; [|by apply elem_of_nil in Hin].
      rewrite <- Hnil. apply elem_of_unscanned_upstreams. eauto. }
  assert (∀ s, s ∈ c → is_Some (m !! s)) as Hc.
  { intros s Hs. apply Hkeys, elem_of_unscanned.
    destruct (cycle_next w0 c Hcyc0 s Hs) as ([st0 Hst0] & _).
    destruct (proj2 (sameShape_state_is_Some _ _ s Hsh)) as [st Hst]; [by eexists|].
    exists st. split; [done|]. by eapply Hcy. }
  exists (withRunning w1 false), m. split; [|repeat split].
  - unfold Do. rewrite Hrun. fold w0.
    change (empty w0) with (empty w). rewrite He.
    rewrite preflight_pending by done. rewrite Hscan. simpl. rewrite Hm. simpl.
    rewrite bool_decide_eq_true_2; [done|].
    destruct Hcyc as [Hne _]. destruct c as [|s c]; [done|].
    destruct (Hc s) as [l Hl]; [by left|].
    destruct (decide (size m = 0)) as [Hz|]; [|lia].
    apply map_size_empty_iff in Hz. subst. by rewrite lookup_empty in Hl.
  - done.
  - apply Hkeys.
  - apply Hkeys.
  - intros s l Hl. rewrite (stepsInCycle_lookup _ _ _ Hm) in Hl.
    apply cycleEntry_Some in Hl as (st & ups & _ & _ & Hu & _ & ->).
    exists ups. split; [done|]. apply elem_of_unscanned_upstreams.
  - apply Hsh.
  - apply Hsh.
  - apply Hsh.
  - apply Hsh.
  - done.
  - intros s st Hst. by apply (Hstat s st).
Qed.


(** *** Status writes of the run *)

Lemma advances_refl a : advances a a.
Proof. by left. Qed.

Lemma advances_terminal a b : StatusIsTerminated a = true → advances a b → b = a.
Proof. intros Ht [->|[[-> _]|[-> _]]]; done. Qed.

Lemma advances_trans a b c : advances a b → advances b c → advances a c.
Proof.
  intros [->|[[-> Hb]|[-> Hb]]] Hbc; [done| |].
  - destruct Hb as [->|Hb].
    + destruct Hbc as [<-|[[? _]|[_ ?]]]; [right; left; auto|done|right; left; auto].
    + rewrite (advances_terminal _ _ Hb Hbc). right. left. auto.
  - rewrite (advances_terminal _ _ Hb Hbc). right. right. auto.
Qed.

Lemma resultStatus_terminal err : StatusIsTerminated (resultStatus E err) = true.
Proof.
  unfold resultStatus. destruct err as [e|]; [|done].
  destruct (DefaultIsCanceled E e); [done|]. by destruct (IsErrSkip E e).
Qed.

Lemma tickStep_advances w ctx s w' v ref a :
  tickStep E w ctx s = Some (w', v) → statusAt w ref = Some a →
  ∃ b, statusAt w' ref = Some b ∧ advances a b.
Proof.
  intros H Ha. destruct (decide (a = Pending)) as [->|Hne].
  2:{ exists a. split; [by eapply tickStep_keeps|apply advances_refl]. }
  apply tickStep_inv in H as (r0 & st & _ & Hd & Hv).
  destruct v as [|ns|r'].
  - destruct Hv as [-> _]. exists Pending. split; [done|apply advances_refl].
  - destruct Hv as (Hp & ups & _ & _ & _ & Ht & ->).
    rewrite statusAt_update. case_decide; [|exists Pending; split; [done|apply advances_refl]].
    subst. rewrite Hd. simpl. exists ns. split; [done|]. right. left. auto.
  - destruct Hv as (-> & Hp & ups & _ & _ & _ & ->).
    rewrite statusAt_update. case_decide; [|exists Pending; split; [done|apply advances_refl]].
    subst. rewrite Hd. simpl. exists Running. split; [done|]. right. left. auto.
Qed.

Lemma elem_of_delete_list {A} (l : list A) i x : x ∈ delete i l → x ∈ l.
Proof.
  revert i. induction l as [|a l IH]; intros [|i]; simpl; try done.
  - intros. by right.
  - intros [->|?]%elem_of_cons; [by left|right; eauto].
Qed.

Lemma NoDup_delete_list {A} (l : list A) i : NoDup l → NoDup (delete i l).
Proof.
  revert i. induction l as [|a l IH]; intros [|i]; simpl; try done.
  - by intros [_ ?]%NoDup_cons.
  - intros [Hn ?]%NoDup_cons. apply NoDup_cons. split; [|eauto].
    intros ?%elem_of_delete_list. done.
Qed.

Lemma fmap_delete_list {A B} (f : A → B) (l : list A) i :
  f <$> delete i l = delete i (f <$> l).
Proof. revert i. induction l as [|a l IH]; intros [|i]; simpl; try done. by rewrite IH. Qed.

Lemma NoDup_delete_lookup {A} (l : list A) i x :
  NoDup l → l !! i = Some x → x ∉ delete i l.
Proof.
  revert i. induction l as [|a l IH]; intros [|i]; simpl; try done.
  - intros [Hn _]%NoDup_cons [= ->]. done.
  - intros [Hn Hnd]%NoDup_cons Hi [->|Hin]%elem_of_cons.
    + apply Hn. by eapply list_elem_of_lookup_2.
    + by eapply IH.
Qed.

(** Every event of the run moves each status forward, and keeps the
    goroutines in flight [Running] on distinct states. *)
Lemma exec_advances ctx r ev r' :
  RunInv r → exec E ctx r ev = Some r' →
  RunInv r' ∧
  ∀ ref a, statusAt (runWorkflow r) ref = Some a →
    ∃ b, statusAt (runWorkflow r') ref = Some b ∧ advances a b.
Proof.
  intros [Hnd Hrun] H. destruct ev as [| |i err]; simpl in H.
  - destruct (cursor r); [done|]. destruct (finished r); [done|].
    destruct (signals r); [done|].
    destruct (selectPhase E (runWorkflow r) WorkflowPhases) as [[b|]|]; simpl in H; [| |done];
      simplify_eq; simpl; (split; [done|]); intros ref a Ha; exists a;
      (split; [done|apply advances_refl]).
  - destruct (cursor r) as [[|s l]|]; [done| |done].
    destruct (tickStep E (runWorkflow r) ctx s) as [[w' v]|] eqn:Hs; simpl in H; [|done].
    assert (∀ ref, ref ∈ (waitGroup r).*2 → statusAt w' ref = Some Running) as Hkeep.
    { intros ref Hin. eapply tickStep_keeps; [done|by apply Hrun|done]. }
    assert (∀ ref a, statusAt (runWorkflow r) ref = Some a →
              ∃ b, statusAt w' ref = Some b ∧ advances a b) as Hadv.
    { intros. by eapply tickStep_advances. }
    destruct v as [|ns|ref0]; simplify_eq; simpl; [done|done|].
    destruct (leaseFree _ _); [|done]. simplify_eq. simpl. split; [|done].
    pose proof Hs as Hs'.
    apply tickStep_inv in Hs' as (r0 & st & _ & Hd & <- & Hp & ups & _ & _ & _ & ->).
    unfold RunInv. simpl. rewrite fmap_app. simpl. split.
    + apply NoDup_app. split; [done|]. split; [|apply NoDup_singleton].
      intros ref Hin ->%list_elem_of_singleton.
      specialize (Hrun _ Hin). unfold statusAt in Hrun. rewrite Hd in Hrun. simpl in Hrun.
      congruence.
    + intros ref [Hin| ->%list_elem_of_singleton]%elem_of_app; [auto|].
      rewrite statusAt_update, decide_True by done. by rewrite Hd.
  - destruct (waitGroup r !! i) as [[s ref0]|] eqn:Hi; simpl in H; [|done].
    destruct (deref (runWorkflow r) ref0) as [st|] eqn:Hd; simpl in H; [|done].
    simplify_eq. simpl.
    assert ((waitGroup r).*2 !! i = Some ref0) as Hi2.
    { rewrite list_lookup_fmap, Hi. done. }
    split; [split; simpl|].
    + rewrite fmap_delete_list. by apply NoDup_delete_list.
    + intros ref Hin. rewrite fmap_delete_list in Hin.
      rewrite statusAt_update. case_decide as Heq.
      * subst. by apply NoDup_delete_lookup in Hin.
      * apply Hrun. by eapply elem_of_delete_list.
    + intros ref a Ha. rewrite statusAt_update. case_decide as Heq.
      * subst. rewrite Hd. simpl. eexists. split; [done|].
        assert (a = Running) as ->.
        { assert (statusAt (runWorkflow r) ref = Some Running) as Hr.
          { apply Hrun. by eapply list_elem_of_lookup_2. }
          congruence. }
        right. right. split; [done|]. apply resultStatus_terminal.
      * exists a. split; [done|apply advances_refl].
Qed.

Lemma run_advances ctx evs : ∀ r r',
  RunInv r → foldM (exec E ctx) r evs = Some r' →
  RunInv r' ∧
  ∀ ref a, statusAt (runWorkflow r) ref = Some a →
    ∃ b, statusAt (runWorkflow r') ref = Some b ∧ advances a b.
Proof.
  induction evs as [|ev evs IH]; intros r r' Hinv H.
  - simpl in H. simplify_eq. split; [done|]. intros ref a Ha. exists a.
    split; [done|apply advances_refl].
  - rewrite foldM_cons in H.
    destruct (exec E ctx r ev) as [r1|] eqn:Hev; simpl in H; [|done].
    destruct (exec_advances _ _ _ _ Hinv Hev) as [Hinv1 Hadv1].
    destruct (IH _ _ Hinv1 H) as [Hinv' Hadv']. split; [done|].
    intros ref a Ha. destruct (Hadv1 _ _ Ha) as (b & Hb & Hab).
    destruct (Hadv' _ _ Hb) as (c' & Hc & Hbc). exists c'. split; [done|].
    by eapply advances_trans.
Qed.

(** *** Status writes of preflight *)

Lemma resetPending_state w s :
  state (resetPending w) !! s = SetStatus Pending <$> state w !! s.
Proof. unfold resetPending. simpl. by rewrite lookup_fmap. Qed.

Lemma scanKeeps_mark w0 w s st ups :
  scanKeeps w0 w → state w !! s = Some st → GetStatus st ≠ scanned →
  UpstreamOf E w s = Some ups → isAllUpstreamScanned ups = true → scanKeeps w0 (mark w s).
Proof.
  intros (Hsh & Hin & Hst) Hs _ _ _.
  split; [eapply sameShape_trans; [done|apply mark_sameShape]|]. split; [done|].
  intros s' st' H. rewrite mark_state in H. case_decide; [|eauto]. subst.
  rewrite Hs in H. simpl in H. simplify_eq. by right.
Qed.

Lemma preflight_writes w w' e :
  preflight E w = Some (w', e) →
  (∀ ref a, statusAt w ref = Some a → StatusIsTerminated a = true → statusAt w' ref = Some a)
  ∧ (∀ ref, statusAt w' ref ≠ statusAt w ref →
       statusAt w ref = Some Pending ∧ statusAt w' ref = Some scanned)
  ∧ (e = None → allPending w ∧ allPending w').
Proof.
  intros H. destruct (decide (allPending w)) as [Hp|Hnp].
  2:{ rewrite preflight_unexpect in H by done. simplify_eq. done. }
  rewrite preflight_pending in H by done.
  destruct (scanLoop E (size (state w)) w) as [w1|] eqn:Hscan; simpl in H; [|done].
  destruct (stepsInCycle E w1) as [cyc|]; simpl in H; [|done].
  assert (scanKeeps w w1) as (Hsh & Hin & Hst).
  { eapply (scanLoop_invariant (scanKeeps w)); [apply scanKeeps_mark| |done].
    split; [apply sameShape_refl|]. split; [done|]. intros s st Hs. left. by eapply Hp. }
  assert (∀ s, statusAt w (RootState s) = Some Pending ∨ statusAt w (RootState s) = None) as Hw.
  { intros s. unfold statusAt. simpl. destruct (state w !! s) as [st|] eqn:Hs; [|auto].
    left. simpl. f_equal. by eapply Hp. }
  assert (∀ s, statusAt w (RootState s) = None → statusAt w1 (RootState s) = None) as Hnone.
  { intros s. unfold statusAt. simpl. intros Hn.
    destruct (state w !! s) eqn:Hs; [done|].
    destruct (state w1 !! s) eqn:Hs1; [|done].
    assert (is_Some (state w !! s)) as [? ?]; [|congruence].
    apply (sameShape_state_is_Some _ _ s Hsh). by eexists. }
  assert (∀ s, statusAt w1 (RootState s) = statusAt w (RootState s)
               ∨ (statusAt w (RootState s) = Some Pending
                  ∧ statusAt w1 (RootState s) = Some scanned)) as Hw1.
  { intros s. destruct (Hw s) as [Hs|Hs]; [|left; by rewrite Hnone].
    unfold statusAt in *. simpl in *.
    destruct (state w1 !! s) as [st1|] eqn:Hs1.
    - simpl. destruct (Hst _ _ Hs1) as [->| ->]; [left; by rewrite Hs|right; by rewrite Hs].
    - destruct (state w !! s) eqn:Hs0; [|done].
      assert (is_Some (state w1 !! s)) as [? ?]; [|congruence].
      apply (sameShape_state_is_Some _ _ s Hsh). by eexists. }
  case_bool_decide; simplify_eq.
  - split; [|split; [|done]].
    + intros [s|l] a Ha Hterm.
      * destruct (Hw s) as [Hs|Hs]; rewrite Hs in Ha; by simplify_eq.
      * unfold statusAt in *. simpl in *. by rewrite Hin.
    + intros [s|l] Hne.
      * destruct (Hw1 s) as [?|?]; done.
      * unfold statusAt in Hne. simpl in Hne. by rewrite Hin in Hne.
  - assert (∀ s, statusAt (resetPending w1) (RootState s) = statusAt w (RootState s)) as Hr.
    { intros s. unfold statusAt. cbn [deref]. rewrite resetPending_state.
      pose proof (sameShape_state_is_Some _ _ s Hsh) as Hiff.
      destruct (state w !! s) as [st0|] eqn:Hs0, (state w1 !! s) as [st1|] eqn:Hs1; simpl.
      - f_equal. symmetry. by eapply Hp.
      - destruct (proj2 Hiff) as [? ?]; [by eexists|done].
      - destruct (proj1 Hiff) as [? ?]; [by eexists|done].
      - done. }
    split; [|split].
    + intros [s|l] a Ha Hterm; [by rewrite Hr|].
      unfold statusAt in *. simpl in *. by rewrite Hin.
    + intros [s|l] Hne; [by rewrite Hr in Hne|].
      unfold statusAt in Hne. simpl in Hne. by rewrite Hin in Hne.
    + intros _. split; [done|]. intros s st Hs. rewrite resetPending_state in Hs.
      destruct (state w1 !! s); simpl in Hs; by simplify_eq.
Qed.

(** When [preflight] returns an [ErrCycleDependency], the workflow it
    leaves is the one the scan left: the loop that resets the marks has
    not run.  Every step of the state table whose upstreams are all
    scanned, a step with no upstream among them, is left with the status
    [scanned]. *)
Lemma preflight_cycle_keeps_marks w w1 m :
  preflight E w = Some (w1, Some (ErrCycleDependency m)) →
  scanLoop E (size (state w)) w = Some w1
  ∧ ∀ s st ups, state w1 !! s = Some st → UpstreamOf E w1 s = Some ups →
      (∀ k se, ups !! k = Some se → Status se = scanned) → GetStatus st = scanned.
Proof.
  intros H. unfold preflight in H. case_bool_decide; [by simplify_eq|].
  destruct (scanLoop E (size (state w)) w) as [w2|] eqn:Hscan; simpl in H; [|done].
  destruct (stepsInCycle E w2) as [cyc|]; simpl in H; [|done].
  case_bool_decide; [|by simplify_eq]. simplify_eq. split; [done|].
  intros s st ups Hst Hups Hall.
  destruct (decide (GetStatus st = scanned)) as [|Hns]; [done|].
  destruct (scanLoop_unscanned_has_unscanned_upstream _ _ _ _ Hscan Hst Hns)
    as (ups' & k & se & Hu' & Hk & Hse).
  simplify_eq. destruct Hse. by eapply Hall.
Qed.

(** C4, as the code has it.  Between any two points of the run that
    follows preflight, the status of every state of the workflow's own
    table moves forward along Pending, Running, terminal (a [Condition]
    may take a step from [Pending] straight to a terminal status), so a
    terminal status is never overwritten.  [preflight] never overwrites a
    terminal status either; the statuses it changes were [Pending] and are
    left [scanned], and when it succeeds every state is [Pending] before
    and after. *)
Theorem status_only_advances ctx w s1 s2 r2 w0 wp e :
  DoRun E ctx (s1 ++ s2) w = Some r2 →
  preflight E w0 = Some (wp, e) →
  (∃ r1, DoRun E ctx s1 w = Some r1 ∧
     ∀ s a, statusAt (runWorkflow r1) (RootState s) = Some a →
       ∃ b, statusAt (runWorkflow r2) (RootState s) = Some b ∧ advances a b ∧
            (StatusIsTerminated a = true → b = a))
  ∧ (∀ ref a, statusAt w0 ref = Some a → StatusIsTerminated a = true →
       statusAt wp ref = Some a)
  ∧ (∀ ref, statusAt wp ref ≠ statusAt w0 ref →
       statusAt w0 ref = Some Pending ∧ statusAt wp ref = Some scanned)
  ∧ (e = None → allPending w0 ∧ allPending wp).
Proof.
  intros Hrun Hpre. split; [|by apply preflight_writes].
  unfold DoRun in *. rewrite foldM_app in Hrun.
  destruct (foldM (exec E ctx) _ s1) as [r1|] eqn:H1; simpl in Hrun; [|done].
  exists r1. split; [done|].
  assert (RunInv (mkRun w 1 [] None false)) as Hinit.
  { split; simpl; [apply NoDup_nil_2|]. by intros ? ?%elem_of_nil. }
  destruct (run_advances _ _ _ _ Hinit H1) as [Hinv1 _].
  destruct (run_advances _ _ _ _ Hinv1 Hrun) as [_ Hadv].
  intros s a Ha. destruct (Hadv _ _ Ha) as (b & Hb & Hab).
  exists b. split; [done|]. split; [done|]. intros Ht. by eapply advances_terminal.
Qed.


(** *** The entry of [Do] *)

Lemma withRunning_id w : withRunning (withRunning w true) (isRunning w) = w.
Proof. by destruct w. Qed.

Lemma Do_while_running ctx sched w :
  isRunning w = true → Do E ctx sched w = Some (w, Some ErrWorkflowIsRunning).
Proof. intros H. unfold Do. by rewrite H. Qed.

Lemma update_isRunning w r f : isRunning (update w r f) = isRunning w.
Proof. by destruct r. Qed.

Lemma exec_isRunning ctx r ev r' :
  exec E ctx r ev = Some r' → isRunning (runWorkflow r') = isRunning (runWorkflow r).
Proof.
  intros H. destruct ev as [| |i err]; unfold exec in H.
  - destruct (cursor r); [done|]. destruct (finished r); [done|].
    destruct (signals r); [done|].
    destruct (selectPhase E (runWorkflow r) WorkflowPhases) as [[b|]|]; simpl in H; by simplify_eq.
  - destruct (cursor r) as [[|s l]|]; [done| |done].
    destruct (tickStep E (runWorkflow r) ctx s) as [[w' v]|] eqn:Hs; simpl in H; [|done].
    assert (isRunning w' = isRunning (runWorkflow r)) as Hw.
    { apply tickStep_inv in Hs as (r0 & st & _ & _ & Hv). destruct v.
      - by destruct Hv as [-> _].
      - destruct Hv as (_ & ? & _ & _ & _ & _ & ->). apply update_isRunning.
      - destruct Hv as (_ & _ & ? & _ & _ & _ & ->). apply update_isRunning. }
    destruct v; [by simplify_eq..|]. destruct (leaseFree _ _); by simplify_eq.
  - destruct (waitGroup r !! i) as [[s ref0]|]; simpl in H; [|done].
    destruct (deref (runWorkflow r) ref0); simpl in H; [|done].
    simplify_eq. simpl. apply update_isRunning.
Qed.

(** While the run goes on, the workflow is locked: a call of [Do] made at
    any point of it returns [ErrWorkflowIsRunning]. *)
Lemma Do_during_run ctx ctx' sched sched' w r :
  isRunning w = true → DoRun E ctx sched w = Some r →
  Do E ctx' sched' (runWorkflow r) = Some (runWorkflow r, Some ErrWorkflowIsRunning).
Proof.
  intros Hw Hr. apply Do_while_running. unfold DoRun in Hr.
  assert (∀ evs r0 r1, foldM (exec E ctx) r0 evs = Some r1 →
            isRunning (runWorkflow r1) = isRunning (runWorkflow r0)) as Hfold.
  { induction evs as [|ev evs IH]; intros r0 r1 H; [simpl in H; by simplify_eq|].
    rewrite foldM_cons in H. destruct (exec E ctx r0 ev) as [r2|] eqn:Hev; simpl in H; [|done].
    rewrite (IH _ _ H). by eapply exec_isRunning. }
  by rewrite (Hfold _ _ _ Hr).
Qed.

(** No path of [Do] returns [ErrWorkflowHasRun]. *)
Lemma Do_never_has_run ctx sched w w' e :
  Do E ctx sched w = Some (w', e) → e ≠ Some ErrWorkflowHasRun.
Proof.
  unfold Do. intros H. destruct (isRunning w); [by simplify_eq|].
  destruct (empty _); [by simplify_eq|].
  destruct (preflight E _) as [[w1 e1]|] eqn:Hp; simpl in H; [|done].
  destruct e1 as [e1|].
  - simplify_eq. unfold preflight in Hp. case_bool_decide; [by simplify_eq|].
    destruct (scanLoop E _ _); simpl in Hp; [|done].
    destruct (stepsInCycle E _); simpl in Hp; [|done].
    case_bool_decide; by simplify_eq.
  - destruct (DoRun E ctx sched w1); simpl in H; [|done].
    destruct (_ && _); [|done]. simplify_eq. by destruct (ErrWorkflow_IsNil _).
Qed.

(** A workflow that is not empty and has a state that is not [Pending]
    (every workflow that has run a step) gets [ErrUnexpectStepInitStatus]
    from [Do], with the states it found. *)
Lemma Do_after_run ctx sched w :
  isRunning w = false → empty w = false → ¬ allPending w →
  Do E ctx sched w = Some (w, Some (ErrUnexpectStepInitStatus (unexpectStatusSteps w))).
Proof.
  intros Hr He Hp. unfold Do. rewrite Hr.
  change (empty (withRunning w true)) with (empty w). rewrite He.
  rewrite preflight_unexpect by done. simpl.
  rewrite <- Hr at 1. by rewrite withRunning_id.
Qed.

(** C10.  On an empty workflow that is not running, every call of [Do]
    returns nil and leaves the workflow as it was, whatever the schedule
    and however often it is repeated: neither preflight nor the scheduler
    gets to write. *)
Theorem Do_on_empty_workflow ctx scheds w :
  empty w = true → isRunning w = false →
  DoTimes E ctx scheds w = Some (w, replicate (length scheds) None)
  ∧ ∀ sched, Do E ctx sched w = Some (w, None).
Proof.
  intros He Hr.
  assert (∀ sched, Do E ctx sched w = Some (w, None)) as HDo.
  { intros sched. unfold Do. rewrite Hr.
    change (empty (withRunning w true)) with (empty w). rewrite He.
    rewrite <- Hr at 1. by rewrite withRunning_id. }
  split; [|done].
  induction scheds as [|sched scheds IH]; [done|].
  simpl. rewrite HDo. simpl. by rewrite IH.
Qed.

(** *** Panics *)

(** C6.  When the step's [Do] or one of its input callbacks panics, the
    attempt returns the panic as an [ErrPanic] (around the panic value when
    it is an error, around the error made of its text otherwise; inside the
    [ErrInput] wrapper for an input callback) exactly when [DontPanic] is
    set, and lets the panic through exactly when it is not. *)
Theorem panic_recovered_iff_DontPanic w step st ctx site v :
  panicsAt E w step st ctx site v →
  (DontPanic w = true ↔
     (makeDoForStep E w step st ctx).2 = Returns (Some (panicError site v)))
  ∧ (DontPanic w = false ↔ (makeDoForStep E w step st ctx).2 = Panics v)
  ∧ catchPanicAsError (Panics v) = Returns (Some (ErrPanic (recovered v))).
Proof.
  intros H. unfold panicsAt in H. unfold makeDoForStep.
  destruct (notifyStep w ctx step) as [ctx' hooks]. simpl in H.
  destruct site; [rewrite H|destruct H as [-> ->]];
    destruct (DontPanic w), v; simpl; by repeat split.
Qed.


(** *** [UpstreamOf] and [DownstreamOf] *)

Lemma foldM_keys {A V} (f : gmap positive V → A → option (gmap positive V))
    (Q : A → positive → Prop) l :
  (∀ a rv rv', a ∈ l → f rv a = Some rv' →
     ∀ k, is_Some (rv' !! k) ↔ is_Some (rv !! k) ∨ Q a k) →
  ∀ rv rv', foldM f rv l = Some rv' →
    ∀ k, is_Some (rv' !! k) ↔ is_Some (rv !! k) ∨ ∃ a, a ∈ l ∧ Q a k.
Proof.
  induction l as [|a l IH]; intros Hf rv rv' H k.
  - simpl in H. simplify_eq. split; [auto|]. intros [?|(a & Hin & _)]; [done|].
    by apply elem_of_nil in Hin.
  - rewrite foldM_cons in H. destruct (f rv a) as [rv1|] eqn:Ha; simpl in H; [|done].
    rewrite (IH (λ a' rv rv' Hin, Hf a' rv rv' (list_elem_of_further _ _ _ Hin)) _ _ H k).
    rewrite (Hf a rv rv1 (list_elem_of_here _ _) Ha k). split.
    + intros [[?|?]|(a' & Hin & HQ)]; [auto| |].
      * right. exists a. split; [by left|done].
      * right. exists a'. split; [by right|done].
    + intros [?|(a' & [->|Hin]%elem_of_cons & HQ)]; [auto|auto|].
      right. exists a'. done.
Qed.

Lemma is_Some_insert {V} (m : gmap positive V) d e k :
  is_Some (<[d := e]> m !! k) ↔ is_Some (m !! k) ∨ k = d.
Proof.
  destruct (decide (k = d)) as [->|Hne].
  - rewrite lookup_insert_eq. split; [auto|by eexists].
  - rewrite lookup_insert_ne by done. split; [auto|]. by intros [?|?].
Qed.

Lemma downUps_keys w (root : option positive) (down : positive) (e : StatusError) l
    (rv rv' : gmap positive StatusError) k :
  foldM (λ rv up, if decide (RootOf w up = root) then Some (<[down := e]> rv) else Some rv)
        rv l = Some rv' →
  is_Some (rv' !! k) ↔
  is_Some (rv !! k) ∨ (k = down ∧ ∃ up, up ∈ l ∧ RootOf w up = root).
Proof.
  intros H. etrans.
  { eapply (foldM_keys _ (λ up k, k = down ∧ RootOf w up = root)); [|exact H].
    intros up rv0 rv1 _ H0 k0. cbv beta in H0. case_decide as Hd; simplify_eq.
    - rewrite is_Some_insert. naive_solver.
    - naive_solver. }
  naive_solver.
Qed.

Lemma downSteps_keys w (root : option positive) dl (rv rv' : gmap positive StatusError) k :
  foldM (λ rv down,
           st ← stateAt E w down;
           foldM (λ rv up,
                    if decide (RootOf w up = root)
                    then Some (<[down := GetStatusError st]> rv)
                    else Some rv)
                 rv (rangeSet E (StateUpstreams st)))
        rv dl = Some rv' →
  is_Some (rv' !! k) ↔
  is_Some (rv !! k) ∨
  (k ∈ dl ∧ ∃ st up, stateAt E w k = Some st ∧ up ∈ StateUpstreams st ∧ RootOf w up = root).
Proof.
  intros H. etrans.
  { eapply (foldM_keys _
      (λ down k, k = down ∧ ∃ st up, stateAt E w k = Some st ∧ up ∈ StateUpstreams st
         ∧ RootOf w up = root)); [|exact H].
    intros down rv0 rv1 _ H0 k0. cbv beta in H0.
    destruct (stateAt E w down) as [st|] eqn:Hst; simpl in H0; [|done].
    rewrite (downUps_keys _ _ _ _ _ _ _ k0 H0). split.
    - intros [?|(-> & up & Hin%rangeSet_elem & ?)]; [auto|]. right.
      split; [done|]. by exists st, up.
    - intros [?|(-> & st' & up & ? & ? & ?)]; [auto|]. simplify_eq. right.
      split; [done|]. exists up. split; [by apply rangeSet_elem|done]. }
  naive_solver.
Qed.

(** The keys of [DownstreamOf]: the steps of the buckets that have an
    upstream whose root is what the tree maps the step to. *)
Lemma DownstreamOf_keys w step ds k :
  empty w = false → DownstreamOf E w step = Some ds →
  is_Some (ds !! k) ↔
  ∃ phase b st up, phase ∈ WorkflowPhases ∧ steps w !! phase = Some b ∧ k ∈ b ∧
    stateAt E w k = Some st ∧ up ∈ StateUpstreams st ∧ RootOf w up = tree w !! step.
Proof.
  intros He H. unfold DownstreamOf in H. rewrite He in H. etrans.
  { eapply (foldM_keys _
      (λ phase k, ∃ b st up, steps w !! phase = Some b ∧ k ∈ b ∧
         stateAt E w k = Some st ∧ up ∈ StateUpstreams st ∧ RootOf w up = tree w !! step));
      [|exact H].
    intros phase rv0 rv1 _ H0 k0. cbv beta in H0.
    rewrite (downSteps_keys _ _ _ _ _ k0 H0). split.
    - intros [?|(Hin%rangeSet_elem & st & up & ?)]; [auto|]. right.
      destruct (steps w !! phase) as [b|] eqn:Hb; simpl in Hin;
        [|by apply elem_of_empty in Hin].
      by exists b, st, up.
    - intros [?|(b & st & up & Hb & Hk & ?)]; [auto|]. right.
      split; [apply rangeSet_elem; by rewrite Hb|]. by exists st, up. }
  rewrite lookup_empty. split.
  - intros [[? ?]|(phase & Hin & b & st & up & ?)]; [done|]. by exists phase, b, st, up.
  - intros (phase & b & st & up & Hin & ?). right. exists phase. split; [done|].
    by exists b, st, up.
Qed.

Lemma inPhases_bucket w s :
  inPhases w (Some s) = true ↔
  ∃ phase b, phase ∈ WorkflowPhases ∧ steps w !! phase = Some b ∧ s ∈ b.
Proof.
  unfold inPhases. rewrite existsb_exists. split.
  - intros (phase & Hin%list_elem_of_In & Hb). unfold bucketHas in Hb.
    destruct (steps w !! phase) as [b|] eqn:Hsb; [|done].
    apply bool_decide_eq_true in Hb. by exists phase, b.
  - intros (phase & b & Hin%list_elem_of_In & Hsb & Hs). exists phase. split; [done|].
    unfold bucketHas. rewrite Hsb. by apply bool_decide_eq_true.
Qed.

(** The keys of [UpstreamOf] have a state: the fold dereferenced them. *)
Lemma UpstreamOf_upstream_defined w s ups r st up :
  UpstreamOf E w s = Some ups → empty w = false → RootOf w s = Some r →
  inPhases w (Some r) = true → stateAt E w r = Some st → up ∈ StateUpstreams st →
  ∃ k, RootOf w up = Some k ∧ is_Some (entryAt E w k).
Proof.
  intros Hu He Hr Hin Hst Hup. rewrite UpstreamOf_unfold, Hr in Hu by done.
  assert (is_Some (foldM (upBody E w (Some r)) ∅ WorkflowPhases)) as Hs by eauto.
  apply upBody_total in Hs; [|exact Hin]. destruct Hs as [_ Hall].
  destruct (Hall up) as (k & Hk & [stk Hstk]).
  { unfold upList. rewrite Hst. by apply rangeSet_elem. }
  exists k. split; [done|]. unfold entryAt. rewrite Hstk. by eexists.
Qed.

(** C7, as the code has it.  For two roots [u] and [s] of the Step Tree,
    [u] is a key of [UpstreamOf(s)] if and only if [s] is a key of
    [DownstreamOf(u)].  The keys of [UpstreamOf] are always roots. *)
Theorem upstream_downstream_inverse_on_roots w u s ups ds :
  tree w !! u = Some u → tree w !! s = Some s →
  UpstreamOf E w s = Some ups → DownstreamOf E w u = Some ds →
  (is_Some (ups !! u) ↔ is_Some (ds !! s))
  ∧ (∀ k, is_Some (ups !! k) → tree w !! k = Some k).
Proof.
  intros Hru Hrs Hu Hd. split.
  2:{ intros k [se Hk].
      apply (UpstreamOf_lookup _ _ _ _ _ Hu) in Hk as (r&st&up&_&_&_&_&_&Hr&_).
      by apply RootOf_root in Hr as [? _]. }
  destruct (empty w) eqn:He.
  { unfold UpstreamOf, DownstreamOf in *. rewrite He in *. simplify_eq.
    rewrite !lookup_empty. split; by intros [? ?]. }
  pose proof (RootOf_of_root _ _ He Hrs) as Hroot.
  rewrite (DownstreamOf_keys _ _ _ _ He Hd). split.
  - intros [se Hk].
    apply (UpstreamOf_lookup _ _ _ _ _ Hu) in Hk
      as (r & st & up & _ & Hr & Hin & Hst & Hup & Hk & _).
    rewrite Hroot in Hr. simplify_eq.
    apply inPhases_bucket in Hin as (phase & b & Hp & Hb & Hsb).
    exists phase, b, st, up. by rewrite Hru.
  - intros (phase & b & st & up & Hp & Hb & Hsb & Hst & Hup & Hk).
    rewrite Hru in Hk.
    assert (inPhases w (Some s) = true) as Hin.
    { apply inPhases_bucket. by exists phase, b. }
    destruct (UpstreamOf_upstream_defined _ _ _ _ _ _ Hu He Hroot Hin Hst Hup)
      as (k & Hk' & [se Hse]).
    rewrite Hk in Hk'. simplify_eq. exists se.
    apply (UpstreamOf_lookup _ _ _ _ _ Hu). by exists s, st, up.
Qed.


(** *** The Step Tree after [Add] *)

Lemma climb_mono n t s r :
  StepTree.climb n t s = Some r → StepTree.climb (S n) t s = Some r.
Proof.
  revert s. induction n as [|n IH]; intros s H; simpl in *.
  - destruct (t !! s) as [p|]; [|done]. by case_decide.
  - destruct (t !! s) as [p|]; [|done]. case_decide; [done|]. by apply IH.
Qed.

Lemma climb_mono_le n m t s r :
  n ≤ m → StepTree.climb n t s = Some r → StepTree.climb m t s = Some r.
Proof. induction 1; [done|]. intros. by apply climb_mono, IHle. Qed.

Lemma climb_at_root n t s : t !! s = Some s → StepTree.climb n t s = Some s.
Proof. intros H. destruct n; simpl; rewrite H; by rewrite decide_True. Qed.

Lemma registered_lookup (ds : list (positive * positive)) : ∀ t0 : gmap positive positive,
  NoDup ds.*1 →
  (∀ d c, (d, c) ∈ ds → fold_left (λ acc dc, <[dc.1 := dc.2]> acc) ds t0 !! d = Some c)
  ∧ (∀ x, x ∉ ds.*1 → fold_left (λ acc dc, <[dc.1 := dc.2]> acc) ds t0 !! x = t0 !! x).
Proof.
  induction ds as [|[d0 c0] ds IH]; intros t0 Hnd; simpl.
  - split; [by intros ? ? ?%elem_of_nil|done].
  - apply NoDup_cons in Hnd as [Hn0 Hnd]. destruct (IH (<[d0 := c0]> t0) Hnd) as [IH1 IH2].
    split.
    + intros d c [Heq|Hin]%elem_of_cons; [|auto]. simplify_eq.
      rewrite IH2 by done. by rewrite lookup_insert_eq.
    + intros x Hx. apply not_elem_of_cons in Hx as [Hne Hx].
      rewrite IH2 by done. by rewrite lookup_insert_ne.
Qed.

Section TreeAdd.
Variable t : gmap positive positive.
Variable step : positive.
Variable ds : list (positive * positive).
Hypothesis ds_tree : exposesTree step ds.

Let t' := (StepTree.Add ds t step).1.
Let olds := (StepTree.Add ds t step).2.

Lemma Add_step : t' !! step = Some step.
Proof.
  destruct ds_tree as (Hnd & Hns & _). unfold t', StepTree.Add. simpl.
  rewrite (proj2 (registered_lookup ds _ Hnd)) by done. by rewrite lookup_insert_eq.
Qed.

Lemma Add_descendant d c : (d, c) ∈ ds → t' !! d = Some c.
Proof.
  destruct ds_tree as (Hnd & _). unfold t', StepTree.Add. simpl.
  by apply (registered_lookup ds _ Hnd).
Qed.

Lemma Add_other x : x ≠ step → x ∉ ds.*1 → t' !! x = t !! x.
Proof.
  intros Hne Hx. destruct ds_tree as (Hnd & _). unfold t', StepTree.Add. simpl.
  rewrite (proj2 (registered_lookup ds _ Hnd)) by done. by rewrite lookup_insert_ne.
Qed.

Lemma Add_container_differs i d c : ds !! i = Some (d, c) → c ≠ d.
Proof.
  intros Hi ->. destruct ds_tree as (Hnd & Hns & Hch).
  destruct (Hch i d d Hi) as [->|(j & c' & Hlt & Hj)].
  - apply Hns. apply list_elem_of_fmap. exists (step, step). split; [done|].
    by eapply list_elem_of_lookup_2.
  - assert (ds.*1 !! i = Some d) as Hi1 by (by rewrite list_lookup_fmap, Hi).
    assert (ds.*1 !! j = Some d) as Hj1 by (by rewrite list_lookup_fmap, Hj).
    pose proof (NoDup_lookup _ _ _ _ Hnd Hi1 Hj1). lia.
Qed.

Lemma Add_climb i : ∀ d c, ds !! i = Some (d, c) → StepTree.climb (S i) t' d = Some step.
Proof.
  induction i as [i IH] using lt_wf_ind. intros d c Hi.
  pose proof (Add_container_differs _ _ _ Hi) as Hne.
  simpl. rewrite (Add_descendant d c) by (by eapply list_elem_of_lookup_2).
  rewrite decide_False by done.
  destruct ds_tree as (_ & _ & Hch).
  destruct (Hch i d c Hi) as [->|(j & c' & Hlt & Hj)].
  - destruct i; [|apply climb_at_root, Add_step].
    simpl. rewrite Add_step. by rewrite decide_True.
  - destruct i as [|i]; [lia|].
    apply (climb_mono_le (S j)); [lia|]. by eapply IH.
Qed.

Lemma Add_size : length ds < size t'.
Proof.
  destruct ds_tree as (Hnd & Hns & _).
  assert (list_to_set (step :: ds.*1) ⊆ dom t') as Hsub.
  { intros x Hx. apply elem_of_list_to_set in Hx. apply elem_of_dom.
    apply elem_of_cons in Hx as [->|Hx]; [rewrite Add_step; by eexists|].
    apply list_elem_of_fmap in Hx as ([d c] & -> & Hin). simpl.
    rewrite (Add_descendant d c Hin). by eexists. }
  apply subseteq_size in Hsub. rewrite size_dom in Hsub.
  rewrite size_list_to_set in Hsub; [|by apply NoDup_cons].
  simpl in Hsub. rewrite length_fmap in Hsub. lia.
Qed.

(** Every descendant has the step as its root. *)
Lemma Add_RootOf d : d ∈ ds.*1 → StepTree.RootOf t' d = Some step.
Proof.
  intros ([d' c] & -> & Hin)%list_elem_of_fmap.
  apply list_elem_of_lookup in Hin as [i Hi]. unfold StepTree.RootOf.
  apply (climb_mono_le (S i)); [|by eapply Add_climb].
  pose proof Add_size. apply lookup_lt_Some in Hi. lia.
Qed.

Lemma Add_olds x : x ∈ olds ↔ x ∈ ds.*1 ∧ t !! x = Some x.
Proof.
  unfold olds, StepTree.Add. simpl. rewrite elem_of_list_to_set, list_elem_of_filter.
  unfold StepTree.IsRoot. rewrite bool_decide_eq_true. tauto.
Qed.

(** The roots after the addition: the step, and the roots it does not
    contain. *)
Lemma Add_roots x : t' !! x = Some x ↔ x = step ∨ ((x ∉ ds.*1) ∧ t !! x = Some x).
Proof.
  destruct (decide (x = step)) as [->|Hne]; [rewrite Add_step; tauto|].
  destruct (decide (x ∈ ds.*1)) as [Hin|Hnin].
  - apply list_elem_of_fmap in Hin as ([d c] & -> & Hin). simpl.
    rewrite (Add_descendant d c Hin).
    apply list_elem_of_lookup in Hin as [i Hi].
    pose proof (Add_container_differs _ _ _ Hi). split.
    + intros [= ?]. done.
    + intros [?|[Hn _]]; [done|]. destruct Hn. apply list_elem_of_fmap.
      exists (d, c). split; [done|]. by eapply list_elem_of_lookup_2.
  - rewrite Add_other by done. tauto.
Qed.
End TreeAdd.


(** *** [addStep] of a composite over registered roots *)

Lemma empty_false w a b p :
  is_Some (tree w !! a) → is_Some (state w !! b) → is_Some (steps w !! p) → empty w = false.
Proof.
  intros [? Ha] [? Hb] [? Hp]. unfold empty.
  rewrite !bool_decide_eq_false_2; [done|..]; intros Hz%map_size_empty_iff;
    rewrite Hz in *; by rewrite lookup_empty in *.
Qed.

Lemma StateOf_unregistered w s : tree w !! s = None → StateOf E w s = None.
Proof. intros H. unfold StateOf. rewrite H. by destruct (empty w). Qed.

Lemma migrated_init w0 step st0 :
  state w0 !! step = Some st0 → migrated w0 step [] w0.
Proof.
  intros Hst. split; [done|]. split; [done|]. split.
  { exists st0. split; [done|]. by intros ? ? ?%elem_of_nil. }
  split.
  { intros s _. rewrite decide_False; [done|]. by intros ?%elem_of_nil. }
  split; [done|]. split.
  - intros p bpx x Hp Hx. right. split; [by intros ?%elem_of_nil|]. eauto.
  - intros p bp0 Hp. exists bp0. repeat split; try done. by intros ? ?%elem_of_nil.
Qed.

Lemma migrate_step w0 step gone wx old :
  migrated w0 step gone wx → old ∉ gone → old ≠ step → is_Some (state w0 !! old) →
  ∃ wy, migrate step wx old = Some wy ∧ migrated w0 step (old :: gone) wy.
Proof.
  intros (Ht & Hi & (stx & Hstx & Hcfg) & Hst & Hdom & Hmem & Hkeep) Hnd Hne [so Hso].
  assert (state wx !! old = Some so) as Hold.
  { rewrite Hst by done. by rewrite decide_False. }
  unfold migrate. rewrite Hold, Hstx. simpl. eexists. split; [done|].
  split; [done|]. split; [done|]. split.
  { exists (MergeConfig (Config so) stx). simpl.
    rewrite lookup_delete_ne by done. rewrite lookup_insert_eq. split; [done|].
    intros o sto [->|Hin]%elem_of_cons Ho.
    - simplify_eq. unfold StateUpstreams. simpl. split; [set_solver|].
      intros f Hf. apply elem_of_app. by right.
    - destruct (Hcfg o sto Hin Ho) as [Hu Hf]. unfold StateUpstreams in *. simpl.
      split; [set_solver|]. intros f Hin'. apply elem_of_app. left. by apply Hf. }
  split.
  { intros s Hs. simpl. destruct (decide (s = old)) as [->|Hso'].
    - rewrite lookup_delete_eq. rewrite decide_True; [done|by left].
    - rewrite lookup_delete_ne, lookup_insert_ne by done. rewrite Hst by done.
      destruct (decide (s ∈ gone)) as [Hd|Hd].
      + rewrite decide_True; [done|by right].
      + rewrite decide_False; [done|]. by intros [?|?]%elem_of_cons. }
  split.
  { intros p. simpl. rewrite lookup_fmap, fmap_is_Some. apply Hdom. }
  split.
  - intros p bpy x Hp Hx. simpl in Hp. rewrite lookup_fmap in Hp.
    destruct (steps wx !! p) as [bpx|] eqn:Hpx; simpl in Hp; [|done]. simplify_eq.
    assert (x = step ∨ (x ∈ bpx ∧ x ≠ old)) as [->|[Hxb Hxo]].
    { case_bool_decide as Hob; [set_solver|]. right. split; [done|]. by intros ->. }
    { by left. }
    destruct (Hmem p bpx x Hpx Hxb) as [->|(Hxd & bp0 & Hp0 & Hx0)]; [by left|].
    right. split; [|eauto]. by intros [?|?]%elem_of_cons.
  - intros p bp0 Hp0. destruct (Hkeep p bp0 Hp0) as (bpx & Hpx & Hc & Hd & Hk).
    simpl. rewrite lookup_fmap, Hpx. simpl. eexists. split; [done|].
    split; [|split].
    + intros Hin. specialize (Hc Hin). case_bool_decide; set_solver.
    + intros o [->|Ho]%elem_of_cons Hob.
      * assert (old ∈ bpx) by (by apply Hk). rewrite bool_decide_eq_true_2 by done.
        set_solver.
      * specialize (Hd o Ho Hob). case_bool_decide; set_solver.
    + intros x Hx0 Hxd. apply not_elem_of_cons in Hxd as [Hxo Hxd].
      specialize (Hk x Hx0 Hxd). case_bool_decide; set_solver.
Qed.

Lemma migrate_all w0 step l : ∀ gone wx,
  migrated w0 step gone wx → NoDup l →
  (∀ o, o ∈ l → (o ∉ gone) ∧ o ≠ step ∧ is_Some (state w0 !! o)) →
  ∃ wy gone', foldM (migrate step) wx l = Some wy ∧ migrated w0 step gone' wy ∧
    ∀ o, o ∈ gone' ↔ o ∈ gone ∨ o ∈ l.
Proof.
  induction l as [|old l IH]; intros gone wx Hm Hnd Hl.
  - exists wx, gone. split; [done|]. split; [done|]. intros o. split; [auto|].
    intros [?|?%elem_of_nil]; done.
  - apply NoDup_cons in Hnd as [Hnin Hnd].
    destruct (Hl old) as (Hod & Hos & Hst); [by left|].
    destruct (migrate_step _ _ _ _ _ Hm Hod Hos Hst) as (wy & Hwy & Hmy).
    destruct (IH (old :: gone) wy Hmy Hnd) as (wz & gone' & Hwz & Hmz & Hdone).
    { intros o Ho. destruct (Hl o) as (? & ? & ?); [by right|].
      split; [|done]. intros [->|?]%elem_of_cons; done. }
    exists wz, gone'. rewrite foldM_cons, Hwy. simpl. split; [done|]. split; [done|].
    intros o. rewrite Hdone, !elem_of_cons. tauto.
Qed.


Lemma rangeSet_NoDup (s : gset positive) : NoDup (rangeSet E s).
Proof. destruct E_ok as [_ H]. rewrite (H s). apply NoDup_elements. Qed.

(** A workflow passes the check when the keys of its state table are the
    roots of its tree and its buckets hold roots. *)
Lemma rootsOnly_checked w :
  dom (state w) = dom (filter (λ kv : positive * positive, kv.1 = kv.2) (tree w)) →
  map_Forall (λ _ b, set_Forall (λ s, tree w !! s = Some s) b) (steps w) →
  rootsOnly w.
Proof.
  intros Hdom Hb. split.
  - intros s. rewrite <- elem_of_dom, Hdom, elem_of_dom. split.
    + intros [x Hx]. apply map_lookup_filter_Some in Hx as [Hx Heq]. simpl in Heq. by subst.
    + intros Hs. exists s. by apply map_lookup_filter_Some.
  - intros phase b s Hphase Hs. exact (Hb phase b Hphase s Hs).
Qed.

Section Composite.
Variable w : Workflow.
Variable phase : Phase.
Variable b : gset positive.
Variable C s1 : positive.
Variable st1 : State.
Hypothesis w_roots : rootsOnly w.
Hypothesis w_phase : steps w !! phase = Some b.
Hypothesis C_new : tree w !! C = None.
Hypothesis C_tree : exposesTree C (nest E C).
Hypothesis s1_inner : s1 ∈ (nest E C).*1.
Hypothesis s1_state : state w !! s1 = Some st1.

Let t' := (StepTree.Add (nest E C) (tree w) C).1.
Let olds := (StepTree.Add (nest E C) (tree w) C).2.
Let wa := withSteps w (<[phase := {[C]} ∪ b]> (steps w)).
Let wc := withTree (withState wa (<[C := newState]> (state w))) t'.
Let adoptedHere := adoptedAt E w phase C s1 st1.

Lemma s1_root : tree w !! s1 = Some s1.
Proof. apply w_roots. by eexists. Qed.

Lemma s1_old : s1 ∈ olds.
Proof. apply Add_olds. split; [done|apply s1_root]. Qed.

Lemma s1_not_C : s1 ≠ C.
Proof. intros Heq. pose proof s1_root as H. rewrite Heq in H. congruence. Qed.

Lemma addStepRoot_composite :
  ∃ wd gone, addStepRoot E w phase C = Some wd ∧ migrated wc C gone wd ∧
    ∀ o, o ∈ gone ↔ o ∈ olds.
Proof.
  unfold addStepRoot. rewrite w_phase. simpl. fold wa.
  rewrite StateOf_unregistered by done.
  destruct (migrate_all wc C (rangeSet E olds) [] wc) as (wd & gone & Hwd & Hm & Hdone).
  { apply (migrated_init _ _ newState). simpl. by rewrite lookup_insert_eq. }
  { apply rangeSet_NoDup. }
  { intros o Ho'%rangeSet_elem. apply Add_olds in Ho' as [_ Hroot].
    split; [by intros ?%elem_of_nil|]. assert (o ≠ C) by (intros ->; congruence).
    split; [done|]. simpl. rewrite lookup_insert_ne by done. by apply w_roots. }
  exists wd, gone. split; [exact Hwd|]. split; [done|].
  intros o. rewrite Hdone, rangeSet_elem. split; [|auto]. by intros [?%elem_of_nil|?].
Qed.

(** What the fold over the declared upstreams keeps. *)
Lemma adopted_after_migration wd gone :
  migrated wc C gone wd → (∀ o, o ∈ gone ↔ o ∈ olds) →
  adopted w phase C s1 st1 wd ∧ tree wd = t'.
Proof.
  intros (Ht & Hi & (stC & HstC & Hcfg) & Hst & Hdom & Hmem & Hkeep) Hdone.
  assert (tree wd = t') as Htree by done.
  assert (s1 ∈ gone) as Hs1d by (apply Hdone, s1_old).
  assert (∃ bpd, steps wd !! phase = Some bpd ∧ C ∈ bpd) as Hphase.
  { destruct (Hkeep phase ({[C]} ∪ b)) as (bpx & Hpx & Hc & _).
    { simpl. by rewrite lookup_insert_eq. }
    exists bpx. split; [done|]. apply Hc. set_solver. }
  assert (empty wd = false) as He.
  { destruct Hphase as (bpd & Hpd & _).
    apply (empty_false wd C C phase); [|by eexists..].
    rewrite Htree. unfold t'. rewrite Add_step by done. by eexists. }
  split; [|done]. split; [|split; [|split; [|split; [|split; [|split]]]]].
  - unfold RootOf. rewrite He, Htree. by apply Add_RootOf.
  - rewrite Hst by apply s1_not_C. by rewrite decide_True.
  - intros p bp Hp Hin. destruct (Hmem p bp s1 Hp Hin) as [?|[? _]]; [|done].
    by apply s1_not_C.
  - intros p bp Hp Hin. destruct (Hkeep p (if decide (p = phase) then {[C]} ∪ b else bp))
      as (bpx & Hpx & _ & Hd & _).
    { simpl. case_decide; subst; [by rewrite lookup_insert_eq|].
      by rewrite lookup_insert_ne. }
    exists bpx. split; [done|]. apply (Hd s1 Hs1d). case_decide; [|done]. subst.
    rewrite w_phase in Hp. simplify_eq. set_solver.
  - done.
  - exists stC. split; [done|]. apply (Hcfg s1 st1 Hs1d). simpl.
    rewrite lookup_insert_ne; [done|]. intros Heq. by apply s1_not_C.
  - split.
    + intros s. rewrite Htree. unfold t'. rewrite Add_roots by done. fold olds.
      destruct (decide (s = C)) as [->|Hne]; [rewrite HstC; split; [auto|by eexists]|].
      rewrite Hst by done. simpl. rewrite lookup_insert_ne by done.
      case_decide as Hd.
      * apply Hdone, Add_olds in Hd as [Hin _]. split; [by intros [? ?]|].
        intros [?|[? _]]; done.
      * rewrite (proj1 w_roots s). split; [|by intros [?|[_ ?]]].
        intros Hroot. right. split; [|done]. intros Hin. apply Hd, Hdone, Add_olds. done.
    + intros p bp s Hp Hin. rewrite Htree. unfold t'. rewrite Add_roots by done.
      destruct (Hmem p bp s Hp Hin) as [->|(Hnd & bp0 & Hp0 & Hin0)]; [by left|].
      destruct (decide (s = C)) as [->|Hne]; [by left|]. right.
      assert (tree w !! s = Some s) as Hroot.
      { simpl in Hp0. destruct (decide (p = phase)) as [->|Hpp].
        - rewrite lookup_insert_eq in Hp0. simplify_eq.
          apply (proj2 w_roots phase b); [done|set_solver].
        - rewrite lookup_insert_ne in Hp0 by done. by apply (proj2 w_roots p bp0). }
      split; [|done]. intros Hds. apply Hnd, Hdone, Add_olds. done.
Qed.

Lemma adoptedAt_nonempty wx : adoptedHere wx → empty wx = false.
Proof.
  intros [(_ & _ & _ & _ & (bp & Hbp & _) & (stC & HstC & _) & _) Ht].
  apply (empty_false wx C C phase); [|by eexists..].
  rewrite Ht. unfold t'. rewrite Add_step by done. by eexists.
Qed.

Lemma adoptedAt_RootOf wx : tree wx = t' → empty wx = false → RootOf wx s1 = Some C.
Proof. intros Ht He. unfold RootOf. rewrite He, Ht. by apply Add_RootOf. Qed.

(** A root that is not [s1] joins the bucket of [phase]. *)
Lemma adoptedAt_bucket wx bp up :
  adoptedHere wx → steps wx !! phase = Some bp → tree wx !! up = Some up → up ≠ s1 →
  adoptedHere (withSteps wx (<[phase := {[up]} ∪ bp]> (steps wx))).
Proof.
  intros Had Hbp Hup Hne. pose proof (adoptedAt_nonempty _ Had) as He.
  destruct Had as [(_ & Hs1 & Hout & Hin & (bp' & Hbp' & HC) & HstC & Hroots) Ht].
  rewrite Hbp in Hbp'. simplify_eq.
  set (wy := withSteps wx _).
  assert (empty wy = false) as Hey.
  { destruct HstC as (stC & HstC & _).
    apply (empty_false wy C C phase); [| by eexists |].
    - change (tree wy) with (tree wx). rewrite Ht. unfold t'.
      rewrite Add_step by done. by eexists.
    - unfold wy. simpl. rewrite lookup_insert_eq. by eexists. }
  split; [|done]. split; [by apply adoptedAt_RootOf|]. split; [done|].
  split; [|split; [|split; [|split]]].
  - intros p bq Hp. unfold wy in Hp. simpl in Hp.
    destruct (decide (p = phase)) as [->|Hpp].
    + rewrite lookup_insert_eq in Hp. simplify_eq.
      specialize (Hout phase bp' Hbp). set_solver.
    + rewrite lookup_insert_ne in Hp by done. by apply (Hout p).
  - intros p bq Hp Hq. destruct (Hin p bq Hp Hq) as (bq' & Hq' & HCq).
    unfold wy. simpl. destruct (decide (p = phase)) as [->|Hpp].
    + rewrite lookup_insert_eq. eexists. split; [done|]. rewrite Hbp in Hq'.
      simplify_eq. set_solver.
    + rewrite lookup_insert_ne by done. eauto.
  - unfold wy. simpl. rewrite lookup_insert_eq. eexists. split; [done|]. set_solver.
  - done.
  - destruct Hroots as [Hkeys Hmem]. split; [done|].
    intros p bq s Hp Hs. unfold wy in Hp. simpl in Hp. change (tree wy) with (tree wx).
    destruct (decide (p = phase)) as [->|Hpp].
    + rewrite lookup_insert_eq in Hp. simplify_eq.
      apply elem_of_union in Hs as [->%elem_of_singleton|Hs]; [done|].
      by apply (Hmem phase bp').
    + rewrite lookup_insert_ne in Hp by done. by apply (Hmem p bq).
Qed.

(** The state of [C] gets more configuration. *)
Lemma adoptedAt_config wx f :
  adoptedHere wx →
  (∀ st, Upstreams (Config st) ⊆ Upstreams (Config (f st)) ∧
         ∀ g, g ∈ Input (Config st) → g ∈ Input (Config (f st))) →
  adoptedHere (update wx (RootState C) f).
Proof.
  intros Had Hf. pose proof (adoptedAt_nonempty _ Had) as He.
  destruct Had as [(_ & Hs1 & Hout & Hin & Hphase & (stC & HstC & Hu & Hi) & Hroots) Ht].
  set (wy := update wx (RootState C) f).
  assert (state wy !! C = Some (f stC)) as HstC'.
  { unfold wy. simpl. by rewrite lookup_alter_eq, HstC. }
  assert (empty wy = false) as Hey.
  { destruct Hphase as (bp & Hbp & _).
    apply (empty_false wy C C phase); [| by eexists | by eexists].
    change (tree wy) with (tree wx). rewrite Ht. unfold t'.
    rewrite Add_step by done. by eexists. }
  split; [|done]. split; [by apply adoptedAt_RootOf|]. split.
  { unfold wy. simpl. rewrite lookup_alter_ne; [done|]. intros Heq.
    by apply s1_not_C. }
  split; [done|]. split; [done|]. split; [done|]. split.
  - exists (f stC). split; [done|]. destruct (Hf stC) as [Hfu Hfi].
    unfold StateUpstreams in *. split; [set_solver|]. auto.
  - destruct Hroots as [Hkeys Hmem]. split; [|done].
    intros s. change (tree wy) with (tree wx). rewrite <- Hkeys.
    unfold wy. simpl. rewrite lookup_alter. case_decide; [|done]. subst.
    by rewrite fmap_is_Some.
Qed.

Lemma lowestOwner_root wx up n :
  adoptedHere wx →
  (∀ inner_StateOf, nestedStateOf E C = Some inner_StateOf → inner_StateOf up = None) →
  lowestOwner E n wx C up C = Some (Some (RootState C)).
Proof.
  intros Had Hcap. pose proof (adoptedAt_nonempty _ Had) as He.
  destruct Had as [(_ & _ & _ & _ & _ & (stC & HstC & _) & _) Ht].
  assert (tree wx !! C = Some C) as HC.
  { rewrite Ht. unfold t'. by rewrite Add_step. }
  assert (StepTree.IsRoot (tree wx) C = true) as Hroot.
  { unfold StepTree.IsRoot. by apply bool_decide_eq_true. }
  assert (StateOf E wx C = Some (RootState C)) as HSt.
  { rewrite StateOf_root by done. by rewrite HstC. }
  destruct n; simpl; rewrite Hroot, HSt; simpl;
    destruct (nestedStateOf E C) as [g|] eqn:Hg; try done;
    destruct (nestedRootOf E C); try done; by rewrite (Hcap g eq_refl).
Qed.

Lemma setUpstream_outerRoot wx up :
  adoptedHere wx → outerRoot E w C up →
  ∃ wy, setUpstream E wx phase C up = Some wy ∧ adoptedHere wy.
Proof.
  intros Had (Hup & Hnin & Hcap).
  assert (up ≠ C) as HneC by (intros Heq; rewrite Heq in Hup; congruence).
  assert (up ≠ s1) as Hne1 by (intros Heq; by rewrite Heq in Hnin).
  pose proof Had as [(_ & _ & _ & _ & (bp & Hbp & _) & _ & Hroots) Ht].
  assert (tree wx !! up = Some up) as Hupx.
  { rewrite Ht. unfold t'. by rewrite Add_other. }
  pose proof (adoptedAt_bucket _ _ _ Had Hbp Hupx Hne1) as Had1.
  set (w1 := withSteps wx (<[phase := {[up]} ∪ bp]> (steps wx))) in *.
  pose proof (adoptedAt_nonempty _ Had1) as He1.
  assert (StateOf E w1 up = Some (RootState up)) as HSup.
  { rewrite StateOf_root by done. change (state w1) with (state wx).
    destruct (proj2 (proj1 Hroots up) Hupx) as [st ->]. done. }
  assert (addStepRoot E wx phase up = Some w1) as Hadd.
  { unfold addStepRoot. rewrite Hbp. simpl. fold w1. by rewrite HSup. }
  pose proof Had1 as [(_ & _ & _ & _ & _ & (stC & HstC & _) & _) Ht1].
  unfold setUpstream. rewrite Hadd. simpl. rewrite HSup.
  assert (tree wx !! C = Some C) as HC.
  { rewrite Ht. unfold t'. by rewrite Add_step. }
  rewrite HC. rewrite (lowestOwner_root w1 up _ Had1 Hcap). simpl.
  unfold addUpstreamAt. simpl. change (state w1) with (state wx) in HstC.
  rewrite HstC. simpl. eexists. split; [done|].
  change (adoptedHere (update w1 (RootState C) (AddUpstream up))).
  apply adoptedAt_config; [done|]. intros st. simpl. split; [set_solver|done].
Qed.

Lemma setUpstreams_outerRoots l : ∀ wx,
  adoptedHere wx → (∀ up, up ∈ l → outerRoot E w C up) →
  ∃ wy, foldM (λ w0 up, setUpstream E w0 phase C up) wx l = Some wy ∧ adoptedHere wy.
Proof.
  induction l as [|up l IH]; intros wx Had Hl; [by exists wx|].
  destruct (setUpstream_outerRoot wx up Had) as (wy & Hwy & Hady); [apply Hl; by left|].
  destruct (IH wy Hady) as (wz & Hwz & Hadz); [intros; apply Hl; by right|].
  exists wz. rewrite foldM_cons, Hwy. done.
Qed.
End Composite.

(** The adoption of an internal step.  In a workflow whose state table
    and buckets hold roots only, let [s1] be a root with a state, and let the
    composite [C] be new to the tree, expose a tree of descendants that
    has [s1], and declare only upstreams that are roots outside it.  Then
    [addStep] of [C] succeeds and leaves the workflow as [adopted] says:
    [RootOf(s1)] is [C]; [s1] is out of the state table and of every
    bucket, [C] in its place; the config of [s1] is merged into the state
    of [C]; the state table and the buckets still hold roots only. *)
Theorem addStep_composite_adopts_inner_step w phase b C s1 st1 c :
  rootsOnly w → steps w !! phase = Some b →
  tree w !! C = None → exposesTree C (nest E C) →
  s1 ∈ (nest E C).*1 → state w !! s1 = Some st1 →
  (∀ up, up ∈ Upstreams c → outerRoot E w C up) →
  ∃ w', addStep E w phase C (Some c) = Some w' ∧ adopted w phase C s1 st1 w'.
Proof.
  intros Hroots Hphase Hnew Htree Hs1 Hst1 Hups.
  destruct (addStepRoot_composite w phase b C Hroots Hphase Hnew)
    as (wd & gone & Hwd & Hm & Hgone).
  pose proof (adopted_after_migration w phase b C s1 st1 Hroots Hphase Hnew Htree Hs1 Hst1
                wd gone Hm Hgone) as Had.
  destruct (setUpstreams_outerRoots w phase b C s1 st1 Hroots Hphase Hnew Htree Hs1 Hst1
              (rangeSet E (Upstreams c)) wd Had) as (wy & Hwy & Hady).
  { intros up Hup%rangeSet_elem. by apply Hups. }
  pose proof (adoptedAt_nonempty w phase C s1 st1 Htree wy Hady) as He.
  pose proof Hady as [(_ & _ & _ & _ & _ & (stC & HstC & _) & _) Ht].
  assert (StateOf E wy C = Some (RootState C)) as HSt.
  { rewrite StateOf_root; [by rewrite HstC|done|].
    rewrite Ht. by apply Add_step. }
  unfold addStep. rewrite Hwd. simpl. rewrite Hwy. simpl. rewrite HSt. simpl.
  rewrite HstC. simpl. eexists. split; [done|].
  apply (adoptedAt_config w phase b C s1 st1 Hroots Hphase Hnew Htree Hs1 Hst1 wy _ Hady).
  intros st. simpl. split; [set_solver|]. intros g Hg. apply elem_of_app. by left.
Qed.

(** ** Further properties of [preflight] *)

Lemma resetPending_mark w s : resetPending (mark w s) = resetPending w.
Proof.
  unfold resetPending, withState. destruct w as [t st bs inn run lb nt dp]. simpl.
  f_equal. apply map_eq. intros k. rewrite !lookup_fmap.
  pose proof (mark_state (mkWorkflow t st bs inn run lb nt dp) s k) as Hm. simpl in Hm.
  unfold mark, update in Hm. simpl in Hm. rewrite Hm.
  case_decide; [|done]. destruct (st !! k) as [[[ss e] c]|]; done.
Qed.

Lemma resetPending_pending w : allPending w → resetPending w = w.
Proof.
  intros Hp. unfold resetPending, withState. destruct w as [t st bs inn run lb nt dp]. simpl.
  f_equal. apply map_eq. intros k. rewrite lookup_fmap.
  destruct (st !! k) as [[[ss e] c]|] eqn:Hk; [|done].
  pose proof (Hp k _ Hk) as Hs. unfold GetStatus in Hs. simpl in *. by subst.
Qed.

Lemma scanLoop_resetPending n w w1 :
  scanLoop E n w = Some w1 → resetPending w1 = resetPending w.
Proof.
  apply (scanLoop_invariant (λ x, resetPending x = resetPending w)); [|done].
  intros x s st ups Hx _ _ _ _. by rewrite resetPending_mark.
Qed.

(** X1.  When some state is not [Pending], [preflight] returns
    [ErrUnexpectStepInitStatus] and leaves the workflow as it is; the error
    lists exactly the steps of the state table whose status is not
    [Pending], each with that status. *)
Theorem preflight_reports_unexpected_status w s st :
  state w !! s = Some st → GetStatus st ≠ Pending →
  ∃ m, preflight E w = Some (w, Some (ErrUnexpectStepInitStatus m)) ∧
    ∀ k ss, m !! k = Some ss ↔
      ∃ sk, state w !! k = Some sk ∧ GetStatus sk = ss ∧ ss ≠ Pending.
Proof.
  intros Hs Hst. exists (unexpectStatusSteps w). split.
  - apply preflight_unexpect. intros Hp. by apply Hst, (Hp s).
  - intros k ss. apply unexpectStatusSteps_lookup.
Qed.

(** X2.  When [preflight] returns nil, the workflow it leaves is the one
    it was given, mark for mark; every state of it is [Pending], and its
    upstream relation has no cycle. *)
Theorem preflight_nil_leaves_workflow w w' :
  preflight E w = Some (w', None) →
  w' = w ∧ allPending w ∧ ∀ c, ¬ hasCycle E w c.
Proof.
  intros H. destruct (preflight_writes _ _ _ H) as (_ & _ & Hp).
  destruct (Hp eq_refl) as [Hw _]. rewrite preflight_pending in H by done.
  destruct (scanLoop E (size (state w)) w) as [w1|] eqn:Hscan; simpl in H; [|done].
  destruct (stepsInCycle E w1) as [cyc|] eqn:Hcyc; simpl in H; [|done].
  case_bool_decide as Hsz; [done|]. simplify_eq.
  split; [|split; [done|]].
  { rewrite (scanLoop_resetPending _ _ _ Hscan). by apply resetPending_pending. }
  intros c Hc.
  pose proof (scanLoop_invariant (scanInv w c) (scanInv_mark w c Hc) _ _ _
                (scanInv_init w c Hw) Hscan) as (Hsh & _ & _ & Hkeep).
  destruct Hc as [Hne Hc]. destruct c as [|s c]; [done|].
  destruct (Hc 0 s eq_refl) as [Hst _].
  apply (sameShape_state_is_Some _ _ s Hsh) in Hst as [st1 Hst1].
  assert (GetStatus st1 ≠ scanned) as Hns by (eapply Hkeep; [by left|done]).
  destruct (scanLoop_unscanned_has_unscanned_upstream _ _ _ _ Hscan Hst1 Hns)
    as (ups & k & se & Hups & Hk & Hse).
  assert (is_Some (cycleEntry E w1 s)) as [l Hl].
  { unfold cycleEntry. rewrite Hst1. simpl. rewrite decide_False by done.
    rewrite Hups. simpl.
    destruct ((filter _ _).*1) as [|x l] eqn:Hf; [|by eexists].
    assert (k ∈ (filter (λ kv : positive * StatusError, Status kv.2 ≠ scanned)
                   (rangeMap E _ ups)).*1) as Hin
      by (apply elem_of_unscanned_upstreams; eauto).
    rewrite Hf in Hin. by apply elem_of_nil in Hin. }
  rewrite <- (stepsInCycle_lookup _ _ s Hcyc) in Hl.
  apply Hsz. destruct (decide (size cyc = 0)) as [Hz|]; [|lia].
  apply map_size_empty_inv in Hz. subst. by rewrite lookup_empty in Hl.
Qed.

(** X3.  [preflight] accepts every acyclic workflow: when every state is
    [Pending], [UpstreamOf] is defined on the state table and the upstream
    relation has a ranking, [preflight] returns nil and leaves the workflow
    as it is. *)
Theorem preflight_accepts_ranked w rank :
  allPending w → upstreamsDefined E w → ranked E w rank →
  preflight E w = Some (w, None).
Proof.
  intros Hp Hdef Hrank. rewrite preflight_pending by done.
  set (P := λ x, scanKeeps w x).
  assert (P w) as HPw.
  { split; [apply sameShape_refl|]. split; [done|]. intros s st Hs. left. by eapply Hp. }
  assert (∀ x s st ups, P x → state x !! s = Some st → GetStatus st ≠ scanned →
            UpstreamOf E x s = Some ups → isAllUpstreamScanned ups = true → P (mark x s))
    as HPmark by (intros; by eapply scanKeeps_mark).
  assert (∀ x s, P x → is_Some (state x !! s) → is_Some (UpstreamOf E x s)) as HPtotal.
  { intros x s [Hsh _] Hs. apply (UpstreamOf_sameShape_total w x s Hsh).
    apply Hdef. by apply (sameShape_state_is_Some _ _ s Hsh). }
  assert (∀ x x0 s, P x0 → P x → is_Some (state x0 !! s) → is_Some (state x !! s)) as HPkeys.
  { intros x x0 s [Hsh0 _] [Hsh _] Hs. apply (sameShape_state_is_Some _ _ s Hsh).
    by apply (sameShape_state_is_Some _ _ s Hsh0). }
  destruct (scanLoop_total P HPmark HPtotal HPkeys (size (state w)) w HPw) as [w1 Hscan].
  pose proof (scanLoop_invariant P HPmark _ _ _ HPw Hscan) as [Hsh _].
  rewrite Hscan. simpl.
  assert (∀ n s st, rank s < n → state w1 !! s = Some st → GetStatus st = scanned) as Hall.
  { induction n as [|n IH]; intros s st Hn Hst; [lia|].
    destruct (decide (GetStatus st = scanned)) as [|Hns]; [done|].
    destruct (scanLoop_unscanned_has_unscanned_upstream _ _ _ _ Hscan Hst Hns)
      as (ups & k & se & Hups & Hk & Hse).
    destruct (UpstreamOf_key_root _ _ _ _ _ Hups Hk) as (stk & Hstk & ->).
    assert (is_Some (state w !! s)) as Hsw
      by (apply (sameShape_state_is_Some _ _ s Hsh); eauto).
    destruct (Hdef s Hsw) as [ups0 Hups0].
    assert (is_Some (ups0 !! k)) as Hk0.
    { apply (UpstreamOf_sameShape_key w1 w s ups ups0 k); [by apply sameShape_sym|done..|eauto]. }
    pose proof (Hrank s ups0 k Hsw Hups0 Hk0) as Hlt.
    destruct Hse. apply (IH k stk); [lia|done]. }
  assert (is_Some (stepsInCycle E w1)) as [cyc Hcyc].
  { apply cycleSteps_total. intros s Hs%rangeMap_keys. split; [done|].
    apply HPtotal; [|done]. by eapply (scanLoop_invariant P HPmark). }
  rewrite Hcyc. simpl.
  assert (cyc = ∅) as ->.
  { apply map_eq. intros s. rewrite lookup_empty, (stepsInCycle_lookup _ _ s Hcyc).
    unfold cycleEntry. destruct (state w1 !! s) as [st|] eqn:Hst; [|done]. simpl.
    rewrite decide_True; [done|]. apply (Hall (S (rank s)) s st); [lia|done]. }
  rewrite bool_decide_eq_false_2 by (rewrite map_size_empty; lia).
  by rewrite (scanLoop_resetPending _ _ _ Hscan), resetPending_pending.
Qed.

(** ** Further properties of [tick] and of the run *)

Lemma rangeSet_empty : rangeSet E ∅ = [].
Proof.
  destruct (rangeSet E ∅) as [|x l] eqn:Hl; [done|].
  assert (x ∈ rangeSet E ∅) as Hx by (rewrite Hl; by left).
  apply rangeSet_elem in Hx. set_solver.
Qed.

Lemma allTerminated_spec w l :
  allTerminated E w l = Some true ↔
  ∀ x, x ∈ l → ∃ st, stateAt E w x = Some st ∧ StatusIsTerminated (GetStatus st) = true.
Proof.
  split; [apply allTerminated_true|].
  induction l as [|a l IH]; intros H; [done|]. simpl.
  destruct (H a) as (st & -> & Ht); [by left|]. simpl. rewrite Ht.
  apply IH. intros x Hx. apply H. by right.
Qed.

Lemma IsPhaseTerminated_bucketless w p :
  steps w !! p = None → IsPhaseTerminated E w p = Some true.
Proof.
  intros H. unfold IsPhaseTerminated. destruct (empty w); [done|].
  rewrite H. simpl. by rewrite rangeSet_empty.
Qed.

Lemma selectPhase_allPhases w ps : ∀ sel,
  selectPhase E w ps = Some sel →
  allPhasesTerminated E w ps = Some (bool_decide (sel = None)).
Proof.
  induction ps as [|p ps IH]; intros sel H.
  - rewrite selectPhase_nil in H. by simplify_eq.
  - rewrite selectPhase_cons in H. simpl.
    destruct (IsPhaseTerminated E w p) as [[|]|] eqn:Hp; simpl in *; [by apply IH| |done].
    simplify_eq. destruct (steps w !! p) eqn:Hb; [done|].
    rewrite IsPhaseTerminated_bucketless in Hp; done.
Qed.

(** X4.  [tick] returns true exactly when [IsTerminated] holds: what it
    returns is what [IsTerminated] answers for the workflow it was given;
    and when it returns true it has written nothing, posted no signal and
    started no goroutine. *)
Theorem tick_done_iff_terminated w ctx t fin :
  tick E w ctx = Some (t, fin) →
  IsTerminated E w = Some fin ∧ (fin = true → t = mkTicked w 0 []).
Proof.
  unfold tick, IsTerminated. intros H.
  destruct (selectPhase E w WorkflowPhases) as [sel|] eqn:Hsel; simpl in H; [|done].
  rewrite (selectPhase_allPhases _ _ _ Hsel). destruct sel as [b|].
  - destruct (tickLoop E w ctx (rangeSet E b)); simpl in H; [|done]. by simplify_eq.
  - by simplify_eq.
Qed.

(** What a run and [preflight] leave of a workflow besides the statuses and
    the errors. *)
Lemma update_settings w r f :
  leaseBucket (update w r f) = leaseBucket w ∧ notify (update w r f) = notify w
  ∧ DontPanic (update w r f) = DontPanic w.
Proof. by destruct r. Qed.

Lemma tickStep_settings w ctx s w' v :
  tickStep E w ctx s = Some (w', v) →
  isRunning w' = isRunning w ∧ leaseBucket w' = leaseBucket w ∧ notify w' = notify w
  ∧ DontPanic w' = DontPanic w.
Proof.
  intros Hs. apply tickStep_inv in Hs as (r0 & st & _ & _ & Hv). destruct v.
  - by destruct Hv as [-> _].
  - destruct Hv as (_ & ? & _ & _ & _ & _ & ->).
    split; [apply update_isRunning|apply update_settings].
  - destruct Hv as (_ & _ & ? & _ & _ & _ & ->).
    split; [apply update_isRunning|apply update_settings].
Qed.

Lemma exec_settings ctx r ev r' :
  exec E ctx r ev = Some r' →
  sameShape (runWorkflow r) (runWorkflow r')
  ∧ leaseBucket (runWorkflow r') = leaseBucket (runWorkflow r)
  ∧ notify (runWorkflow r') = notify (runWorkflow r)
  ∧ DontPanic (runWorkflow r') = DontPanic (runWorkflow r).
Proof.
  intros H. destruct ev as [| |i err]; simpl in H.
  - destruct (cursor r); [done|]. destruct (finished r); [done|].
    destruct (signals r); [done|].
    destruct (selectPhase E (runWorkflow r) WorkflowPhases) as [[b|]|]; simpl in H;
      simplify_eq; simpl; (split; [apply sameShape_refl|done]).
  - destruct (cursor r) as [[|s l]|]; [done| |done].
    destruct (tickStep E (runWorkflow r) ctx s) as [[w' v]|] eqn:Hs; simpl in H; [|done].
    pose proof (tickStep_sameShape _ _ _ _ _ Hs) as Hsh.
    pose proof (tickStep_settings _ _ _ _ _ Hs) as (_ & Hl & Hn & Hd).
    destruct v; [by simplify_eq..|]. destruct (leaseFree _ _); by simplify_eq.
  - destruct (waitGroup r !! i) as [[s ref0]|]; simpl in H; [|done].
    destruct (deref (runWorkflow r) ref0); simpl in H; [|done].
    simplify_eq. simpl. split; [by apply sameShape_update|apply update_settings].
Qed.

Lemma DoRun_settings ctx evs : ∀ r r',
  foldM (exec E ctx) r evs = Some r' →
  sameShape (runWorkflow r) (runWorkflow r')
  ∧ isRunning (runWorkflow r') = isRunning (runWorkflow r)
  ∧ leaseBucket (runWorkflow r') = leaseBucket (runWorkflow r)
  ∧ notify (runWorkflow r') = notify (runWorkflow r)
  ∧ DontPanic (runWorkflow r') = DontPanic (runWorkflow r).
Proof.
  induction evs as [|ev evs IH]; intros r r' H.
  - simpl in H. simplify_eq. split; [apply sameShape_refl|done].
  - rewrite foldM_cons in H. destruct (exec E ctx r ev) as [r1|] eqn:Hev; simpl in H; [|done].
    destruct (IH _ _ H) as (Hsh & Hr & Hl & Hn & Hd).
    destruct (exec_settings _ _ _ _ Hev) as (Hsh1 & Hl1 & Hn1 & Hd1).
    pose proof (exec_isRunning _ _ _ _ Hev) as Hr1.
    split; [by eapply sameShape_trans|]. by rewrite Hr, Hl, Hn, Hd.
Qed.

Lemma resetPending_sameShape w : sameShape w (resetPending w).
Proof.
  split; [done|]. split; [done|]. split; [|done]. intros s.
  rewrite resetPending_state. by destruct (state w !! s).
Qed.

Lemma preflight_settings w w' e :
  preflight E w = Some (w', e) →
  sameShape w w' ∧ isRunning w' = isRunning w ∧ leaseBucket w' = leaseBucket w
  ∧ notify w' = notify w ∧ DontPanic w' = DontPanic w.
Proof.
  intros H. unfold preflight in H. case_bool_decide.
  { simplify_eq. split; [apply sameShape_refl|done]. }
  destruct (scanLoop E (size (state w)) w) as [w1|] eqn:Hscan; simpl in H; [|done].
  destruct (stepsInCycle E w1) as [cyc|]; simpl in H; [|done].
  assert (sameShape w w1 ∧ isRunning w1 = isRunning w ∧ leaseBucket w1 = leaseBucket w
          ∧ notify w1 = notify w ∧ DontPanic w1 = DontPanic w) as (Hsh & Hr & Hl & Hn & Hd).
  { apply (scanLoop_invariant
             (λ x, sameShape w x ∧ isRunning x = isRunning w ∧ leaseBucket x = leaseBucket w
                   ∧ notify x = notify w ∧ DontPanic x = DontPanic w))
      with (n := size (state w)) (w := w); [|split; [apply sameShape_refl|done]|done].
    intros x s st ups (Hsh & Hr & Hl & Hn & Hd) _ _ _ _.
    split; [eapply sameShape_trans; [done|apply mark_sameShape]|done]. }
  case_bool_decide; simplify_eq; [done|].
  split; [|done]. eapply sameShape_trans; [done|apply resetPending_sameShape].
Qed.

(** X5.  [Do] writes statuses and errors only.  Whatever it returns, the
    Step Tree, the phase buckets and the configuration of every state
    (upstreams, condition, input callbacks) are as before, no state is
    added or removed, the options of the workflow are unchanged, and the
    lock is as [Do] found it: a workflow that was not running is not
    running when [Do] returns. *)
Theorem Do_writes_statuses_only ctx sched w w' e :
  Do E ctx sched w = Some (w', e) →
  tree w' = tree w ∧ steps w' = steps w
  ∧ (∀ s, Config <$> state w' !! s = Config <$> state w !! s)
  ∧ (∀ l, Config <$> inner w' !! l = Config <$> inner w !! l)
  ∧ isRunning w' = isRunning w ∧ leaseBucket w' = leaseBucket w
  ∧ notify w' = notify w ∧ DontPanic w' = DontPanic w.
Proof.
  unfold Do. intros H. destruct (isRunning w) eqn:Hrun; [by simplify_eq|].
  destruct (empty _); [simplify_eq; by rewrite <- Hrun, withRunning_id|].
  destruct (preflight E _) as [[w1 e1]|] eqn:Hp; simpl in H; [|done].
  destruct (preflight_settings _ _ _ Hp) as ((Ht & Hb & Hs & Hi) & _ & Hl & Hn & Hd).
  simpl in *. destruct e1 as [e1|]; [by simplify_eq|].
  destruct (DoRun E ctx sched w1) as [r|] eqn:Hr; simpl in H; [|done].
  destruct (_ && _); [|done]. simplify_eq. simpl.
  destruct (DoRun_settings _ _ _ _ Hr) as ((Ht2 & Hb2 & Hs2 & Hi2) & _ & Hl2 & Hn2 & Hd2).
  simpl in *. rewrite Ht2, Hb2, Hl2, Hn2, Hd2.
  repeat split; try done.
  - intros s. by rewrite Hs2.
  - intros l. by rewrite Hi2.
Qed.

(** X6.  The lease bounds the goroutines in flight: in a workflow whose
    lease bucket has the capacity [cap], at most [cap] steps run at any
    point of the run. *)
Theorem lease_bounds_running ctx sched w r cap :
  leaseBucket w = Some cap → DoRun E ctx sched w = Some r →
  length (waitGroup r) ≤ cap.
Proof.
  intros Hcap. unfold DoRun.
  assert (∀ evs r0 r1, foldM (exec E ctx) r0 evs = Some r1 →
            leaseBucket (runWorkflow r0) = Some cap → length (waitGroup r0) ≤ cap →
            length (waitGroup r1) ≤ cap) as Hfold.
  { induction evs as [|ev evs IH]; intros r0 r1 H Hl Hle; [simpl in H; by simplify_eq|].
    rewrite foldM_cons in H. destruct (exec E ctx r0 ev) as [r2|] eqn:Hev; simpl in H; [|done].
    apply (IH _ _ H).
    { destruct (exec_settings _ _ _ _ Hev) as (_ & -> & _). done. }
    clear H IH. destruct ev as [| |i err]; simpl in Hev.
    - destruct (cursor r0); [done|]. destruct (finished r0); [done|].
      destruct (signals r0); [done|].
      destruct (selectPhase E (runWorkflow r0) WorkflowPhases) as [[b|]|]; simpl in Hev;
        by simplify_eq.
    - destruct (cursor r0) as [[|s l]|]; [done| |done].
      destruct (tickStep E (runWorkflow r0) ctx s) as [[w' v]|]; simpl in Hev; [|done].
      destruct v; [by simplify_eq..|].
      unfold leaseFree in Hev. rewrite Hl in Hev. case_bool_decide; [|done].
      simplify_eq. simpl. rewrite length_app. simpl. lia.
    - destruct (waitGroup r0 !! i) as [[s ref0]|] eqn:Hi; simpl in Hev; [|done].
      destruct (deref (runWorkflow r0) ref0); simpl in Hev; [|done].
      simplify_eq. simpl. rewrite length_delete by eauto. lia. }
  intros H. apply (Hfold _ _ _ H); simpl; [done|lia].
Qed.

Lemma allPhasesTerminated_spec w ps :
  allPhasesTerminated E w ps = Some true ↔
  ∀ p, p ∈ ps → IsPhaseTerminated E w p = Some true.
Proof.
  induction ps as [|q ps IH]; simpl.
  - split; [by intros _ p ?%elem_of_nil|done].
  - destruct (IsPhaseTerminated E w q) as [[|]|] eqn:Hq; simpl.
    + rewrite IH. split.
      * intros H p [->|Hp]%elem_of_cons; auto.
      * intros H p Hp. apply H. by right.
    + split; [done|]. intros H. specialize (H q ltac:(by left)). congruence.
    + split; [done|]. intros H. specialize (H q ltac:(by left)). congruence.
Qed.

Lemma IsPhaseTerminated_advances w w' p :
  sameShape w w' →
  (∀ ref a, statusAt w ref = Some a → ∃ b, statusAt w' ref = Some b ∧ advances a b) →
  IsPhaseTerminated E w p = Some true → IsPhaseTerminated E w' p = Some true.
Proof.
  intros Hsh Hadv. unfold IsPhaseTerminated.
  rewrite (sameShape_empty _ _ Hsh). destruct (empty w); [done|].
  destruct Hsh as (Ht & Hb & Hs & Hi). rewrite Hb. rewrite !allTerminated_spec.
  intros H x Hx. destruct (H x Hx) as (st & Hst & Hterm).
  unfold stateAt in *.
  rewrite (sameShape_StateOf w w' x) by done.
  destruct (StateOf E w x) as [r|]; simpl in *; [|done].
  destruct (Hadv r (GetStatus st)) as (b & Hb' & Hab); [unfold statusAt; by rewrite Hst|].
  apply advances_terminal in Hab; [|done]. subst b.
  unfold statusAt in Hb'. destruct (deref w' r) as [st'|]; simpl in Hb'; [|done].
  exists st'. split; [done|]. injection Hb' as Hb'. by rewrite Hb'.
Qed.

Lemma exec_runDone ctx r ev r' :
  RunInv r → runDone E r → exec E ctx r ev = Some r' → runDone E r'.
Proof.
  intros Hinv Hdone H.
  pose proof (exec_advances _ _ _ _ Hinv H) as [_ Hadv].
  pose proof (exec_settings _ _ _ _ H) as [Hsh _].
  destruct ev as [| |i err]; simpl in H.
  - destruct (cursor r); [done|]. destruct (finished r); [done|].
    destruct (signals r); [done|].
    destruct (selectPhase E (runWorkflow r) WorkflowPhases) as [[b|]|] eqn:Hsel; simpl in H;
      [| |done]; simplify_eq; intros Hf; simpl in *; [done|].
    split; [done|]. apply allPhasesTerminated_spec.
    by rewrite (selectPhase_allPhases _ _ _ Hsel).
  - destruct (cursor r) as [[|s l]|]; [done| |done].
    destruct (tickStep E (runWorkflow r) ctx s) as [[w' v]|]; simpl in H; [|done].
    destruct v; [by simplify_eq..|]. destruct (leaseFree _ _); by simplify_eq.
  - destruct (waitGroup r !! i) as [[s ref0]|]; simpl in H; [|done].
    destruct (deref (runWorkflow r) ref0); simpl in H; [|done].
    simplify_eq. intros Hf. simpl in *. destruct (Hdone Hf) as [Hc Hall].
    split; [done|]. intros p Hp. eapply IsPhaseTerminated_advances; [done|done|by apply Hall].
Qed.

Lemma DoRun_runDone ctx sched w r :
  DoRun E ctx sched w = Some r → RunInv r ∧ runDone E r.
Proof.
  unfold DoRun.
  assert (∀ evs r0 r1, foldM (exec E ctx) r0 evs = Some r1 →
            RunInv r0 → runDone E r0 → RunInv r1 ∧ runDone E r1) as Hfold.
  { induction evs as [|ev evs IH]; intros r0 r1 H Hi Hd; [simpl in H; by simplify_eq|].
    rewrite foldM_cons in H. destruct (exec E ctx r0 ev) as [r2|] eqn:Hev; simpl in H; [|done].
    apply (IH _ _ H); [by eapply exec_advances|by eapply exec_runDone]. }
  intros H. apply (Hfold _ _ _ H).
  - split; simpl; [apply NoDup_nil_2|]. by intros ? ?%elem_of_nil.
  - by intros ?.
Qed.

Lemma preflight_error_kind w w' e :
  preflight E w = Some (w', Some e) →
  (∃ m, e = ErrUnexpectStepInitStatus m) ∨ (∃ m, e = ErrCycleDependency m).
Proof.
  unfold preflight. intros H. case_bool_decide; [simplify_eq; eauto|].
  destruct (scanLoop E _ _); simpl in H; [|done].
  destruct (stepsInCycle E _); simpl in H; [|done].
  case_bool_decide; simplify_eq. eauto.
Qed.

Lemma IsPhaseTerminated_withRunning w b p :
  IsPhaseTerminated E (withRunning w b) p = IsPhaseTerminated E w p.
Proof.
  unfold IsPhaseTerminated.
  change (empty (withRunning w b)) with (empty w). destruct (empty w); [done|].
  change (steps (withRunning w b)) with (steps w).
  generalize (rangeSet E (default ∅ (steps w !! p))).
  induction l as [|x l IH]; simpl; [done|]. unfold stateAt.
  assert (StateOf E (withRunning w b) x = StateOf E w x) as ->.
  { apply sameShape_StateOf. split; [done|]. split; [done|]. by split. }
  destruct (StateOf E w x) as [ref|]; simpl; [|done].
  assert (deref (withRunning w b) ref = deref w ref) as -> by (by destruct ref).
  destruct (deref w ref) as [st|]; simpl; [|done].
  destruct (StatusIsTerminated (GetStatus st)); [apply IH|done].
Qed.

(** X7.  When [Do] returns nil or an [ErrWorkflow], every step is
    terminated: [IsTerminated] holds of the workflow it leaves.  An
    [ErrWorkflow] has the status and error of every state of the state
    table, and the error of at least one of them is not nil. *)
Theorem Do_ends_terminated ctx sched w w' e :
  Do E ctx sched w = Some (w', e) →
  (e = None ∨ ∃ m, e = Some (ErrWorkflow m)) →
  IsTerminated E w' = Some true
  ∧ ∀ m, e = Some (ErrWorkflow m) →
      m = GetStatusError <$> state w' ∧ ∃ s se, m !! s = Some se ∧ Err se ≠ None.
Proof.
  unfold Do. intros H He. destruct (isRunning w) eqn:Hrun.
  { simplify_eq. by destruct He as [?|[m ?]]. }
  destruct (empty (withRunning w true)) eqn:Hempty.
  { simplify_eq. split; [|done]. unfold IsTerminated. apply allPhasesTerminated_spec.
    intros p _. unfold IsPhaseTerminated.
    change (empty (withRunning (withRunning w true) false)) with (empty (withRunning w true)).
    by rewrite Hempty. }
  destruct (preflight E _) as [[w1 e1]|] eqn:Hp; simpl in H; [|done].
  destruct e1 as [e1|].
  { simplify_eq. apply preflight_error_kind in Hp as [[m ->]|[m ->]];
      by destruct He as [?|[m' ?]]. }
  destruct (DoRun E ctx sched w1) as [r|] eqn:Hr; simpl in H; [|done].
  destruct (finished r) eqn:Hfin; simpl in H; [|done].
  case_bool_decide; [|done]. simplify_eq.
  destruct (DoRun_runDone _ _ _ _ Hr) as [_ Hdone]. destruct (Hdone Hfin) as [_ Hall].
  split.
  - unfold IsTerminated. apply allPhasesTerminated_spec. intros p Hp'.
    rewrite IsPhaseTerminated_withRunning. by apply Hall.
  - intros m Hm. destruct (ErrWorkflow_IsNil _) eqn:Hnil; [done|]. simplify_eq.
    split; [done|]. unfold ErrWorkflow_IsNil in Hnil. apply bool_decide_eq_false in Hnil.
    apply map_not_Forall in Hnil as (s & se & Hs & Hse); [|apply _]. eauto.
Qed.

(** *** The signals fit the channel *)

Lemma elem_of_unfinishedRoots w s :
  s ∈ unfinishedRoots w ↔
  ∃ st, state w !! s = Some st ∧ StatusIsTerminated (GetStatus st) = false.
Proof.
  unfold unfinishedRoots. rewrite elem_of_dom. unfold is_Some.
  setoid_rewrite map_lookup_filter_Some. naive_solver.
Qed.

Lemma elem_of_unfinishedInner w l :
  l ∈ unfinishedInner w ↔
  ∃ st, inner w !! l = Some st ∧ StatusIsTerminated (GetStatus st) = false.
Proof.
  unfold unfinishedInner. rewrite elem_of_dom. unfold is_Some.
  setoid_rewrite map_lookup_filter_Some. naive_solver.
Qed.

Lemma unfinished_size w :
  size (unfinishedRoots w) + size (unfinishedInner w) ≤ size (state w) + size (inner w).
Proof.
  unfold unfinishedRoots, unfinishedInner. rewrite !size_dom.
  pose proof (map_subseteq_size _ _
    (map_filter_subseteq
       (λ kv : positive * State, StatusIsTerminated (GetStatus kv.2) = false) (state w))).
  pose proof (map_subseteq_size _ _
    (map_filter_subseteq
       (λ kv : positive * State, StatusIsTerminated (GetStatus kv.2) = false) (inner w))).
  lia.
Qed.

Lemma unfinished_at w ref a :
  statusAt w ref = Some a → StatusIsTerminated a = false →
  match ref with
  | RootState s => s ∈ unfinishedRoots w
  | InnerState l => l ∈ unfinishedInner w
  end.
Proof.
  unfold statusAt. intros H Ha. destruct ref as [s|l]; simpl in H.
  - apply elem_of_unfinishedRoots. destruct (state w !! s) as [st|]; simpl in H; [|done].
    exists st. split; [done|]. by simplify_eq.
  - apply elem_of_unfinishedInner. destruct (inner w !! l) as [st|]; simpl in H; [|done].
    exists st. split; [done|]. by simplify_eq.
Qed.

Lemma finished_at w ref b :
  statusAt w ref = Some b → StatusIsTerminated b = true →
  match ref with
  | RootState s => s ∉ unfinishedRoots w
  | InnerState l => l ∉ unfinishedInner w
  end.
Proof.
  unfold statusAt. intros H Hb. destruct ref as [s|l]; simpl in H.
  - intros (st & Hst & Hn)%elem_of_unfinishedRoots. rewrite Hst in H. simpl in H.
    simplify_eq. congruence.
  - intros (st & Hst & Hn)%elem_of_unfinishedInner. rewrite Hst in H. simpl in H.
    simplify_eq. congruence.
Qed.

Lemma unfinished_mono w w' :
  (∀ ref a, statusAt w ref = Some a → ∃ b, statusAt w' ref = Some b ∧ advances a b) →
  sameShape w w' →
  unfinishedRoots w' ⊆ unfinishedRoots w ∧ unfinishedInner w' ⊆ unfinishedInner w.
Proof.
  intros Hadv (_ & _ & Hs & Hi).
  assert (∀ ref a', statusAt w' ref = Some a' → StatusIsTerminated a' = false →
            is_Some (deref w ref) →
            ∃ a, statusAt w ref = Some a ∧ StatusIsTerminated a = false) as Hback.
  { intros ref a' Ha' Hn [st Hst]. exists (GetStatus st).
    assert (statusAt w ref = Some (GetStatus st)) as Ha by (unfold statusAt; by rewrite Hst).
    split; [done|]. destruct (StatusIsTerminated (GetStatus st)) eqn:Ht; [|done].
    destruct (Hadv _ _ Ha) as (b & Hb & Hab). apply advances_terminal in Hab; [|done].
    congruence. }
  split.
  - intros s (st' & Hst' & Hn)%elem_of_unfinishedRoots.
    destruct (Hback (RootState s) (GetStatus st')) as (a & Ha & Hna); [|done| |].
    + unfold statusAt. simpl. by rewrite Hst'.
    + simpl. specialize (Hs s). rewrite Hst' in Hs. simpl in Hs.
      destruct (state w !! s); [by eexists|done].
    + by apply (unfinished_at w (RootState s) a).
  - intros l (st' & Hst' & Hn)%elem_of_unfinishedInner.
    destruct (Hback (InnerState l) (GetStatus st')) as (a & Ha & Hna); [|done| |].
    + unfold statusAt. simpl. by rewrite Hst'.
    + simpl. specialize (Hi l). rewrite Hst' in Hi. simpl in Hi.
      destruct (inner w !! l); [by eexists|done].
    + by apply (unfinished_at w (InnerState l) a).
Qed.

Lemma unfinished_strict w w' ref a b :
  (∀ ref a, statusAt w ref = Some a → ∃ b, statusAt w' ref = Some b ∧ advances a b) →
  sameShape w w' →
  statusAt w ref = Some a → StatusIsTerminated a = false →
  statusAt w' ref = Some b → StatusIsTerminated b = true →
  size (unfinishedRoots w') + size (unfinishedInner w')
  < size (unfinishedRoots w) + size (unfinishedInner w).
Proof.
  intros Hadv Hsh Ha Hna Hb Hb'.
  destruct (unfinished_mono _ _ Hadv Hsh) as [Hr Hi].
  pose proof (unfinished_at _ _ _ Ha Hna) as Hin.
  pose proof (finished_at _ _ _ Hb Hb') as Hout.
  destruct ref as [s|l].
  - assert (unfinishedRoots w' ⊂ unfinishedRoots w) as Hlt%subset_size
      by (split; [done|]; intros Hsub; by apply Hout, Hsub).
    apply subseteq_size in Hi. lia.
  - assert (unfinishedInner w' ⊂ unfinishedInner w) as Hlt%subset_size
      by (split; [done|]; intros Hsub; by apply Hout, Hsub).
    apply subseteq_size in Hr. lia.
Qed.

Lemma exec_signals ctx r ev r' :
  RunInv r → exec E ctx r ev = Some r' →
  signals r' + (size (unfinishedRoots (runWorkflow r')) + size (unfinishedInner (runWorkflow r')))
  ≤ signals r + (size (unfinishedRoots (runWorkflow r)) + size (unfinishedInner (runWorkflow r))).
Proof.
  intros Hinv H.
  pose proof (exec_advances _ _ _ _ Hinv H) as [_ Hadv].
  pose proof (exec_settings _ _ _ _ H) as [Hsh _].
  destruct (unfinished_mono _ _ Hadv Hsh) as [Hr%subseteq_size Hi%subseteq_size].
  destruct ev as [| |i err]; simpl in H.
  - destruct (cursor r); [done|]. destruct (finished r); [done|].
    destruct (signals r) as [|n]; [done|].
    destruct (selectPhase E (runWorkflow r) WorkflowPhases) as [[b|]|]; simpl in H; [| |done];
      simplify_eq; simpl in *; lia.
  - destruct (cursor r) as [[|s l]|]; [done| |done].
    destruct (tickStep E (runWorkflow r) ctx s) as [[w' v]|] eqn:Hs; simpl in H; [|done].
    destruct v as [|ns|ref0].
    + simplify_eq. simpl in *. lia.
    + simplify_eq. simpl in *.
      apply tickStep_inv in Hs as (r0 & st & _ & Hd & Hp & ups & _ & _ & _ & Hterm & ->).
      assert (size (unfinishedRoots (update (runWorkflow r) r0 (SetStatus ns)))
              + size (unfinishedInner (update (runWorkflow r) r0 (SetStatus ns)))
              < size (unfinishedRoots (runWorkflow r)) + size (unfinishedInner (runWorkflow r)));
        [|lia].
      apply (unfinished_strict _ _ r0 Pending ns); [done|done| |done| |done].
      * unfold statusAt. rewrite Hd. simpl. by rewrite Hp.
      * rewrite statusAt_update, decide_True by done. by rewrite Hd.
    + destruct (leaseFree _ _); [|done]. simplify_eq. simpl in *. lia.
  - destruct (waitGroup r !! i) as [[s ref0]|] eqn:Hi'; simpl in H; [|done].
    destruct (deref (runWorkflow r) ref0) as [st|] eqn:Hd; simpl in H; [|done].
    simplify_eq. simpl in *.
    assert (size (unfinishedRoots
                    (update (runWorkflow r) ref0
                       (λ st, SetError err (SetStatus (resultStatus E err) st))))
            + size (unfinishedInner
                      (update (runWorkflow r) ref0
                         (λ st, SetError err (SetStatus (resultStatus E err) st))))
            < size (unfinishedRoots (runWorkflow r)) + size (unfinishedInner (runWorkflow r)));
      [|lia].
    apply (unfinished_strict _ _ ref0 Running (resultStatus E err)); [done|done| |done| |].
    + apply Hinv. apply list_elem_of_fmap. exists (s, ref0). split; [done|].
      by eapply list_elem_of_lookup_2.
    + rewrite statusAt_update, decide_True by done. by rewrite Hd.
    + apply resultStatus_terminal.
Qed.

(** X8.  The signals waiting for the coordinator, together with the states
    that have yet to post theirs, never exceed the number of states plus
    one: the first signal, and one for each state that terminates.  When no
    nested workflow owns a state, that is [len(w.state)+1], the capacity
    the channel is made with, so that no post blocks. *)
Theorem signals_fit_channel ctx sched w r :
  DoRun E ctx sched w = Some r →
  signals r + (size (unfinishedRoots (runWorkflow r)) + size (unfinishedInner (runWorkflow r)))
  ≤ size (state w) + size (inner w) + 1
  ∧ (inner w = ∅ → signals r ≤ size (state w) + 1).
Proof.
  unfold DoRun.
  assert (∀ evs r0 r1, foldM (exec E ctx) r0 evs = Some r1 → RunInv r0 →
            signals r1 + (size (unfinishedRoots (runWorkflow r1))
                          + size (unfinishedInner (runWorkflow r1)))
            ≤ signals r0 + (size (unfinishedRoots (runWorkflow r0))
                            + size (unfinishedInner (runWorkflow r0)))) as Hfold.
  { induction evs as [|ev evs IH]; intros r0 r1 H Hi; [simpl in H; by simplify_eq|].
    rewrite foldM_cons in H. destruct (exec E ctx r0 ev) as [r2|] eqn:Hev; simpl in H; [|done].
    pose proof (exec_signals _ _ _ _ Hi Hev).
    pose proof (IH _ _ H (proj1 (exec_advances _ _ _ _ Hi Hev))). lia. }
  intros H.
  assert (RunInv (mkRun w 1 [] None false)) as Hinit.
  { split; simpl; [apply NoDup_nil_2|]. by intros ? ?%elem_of_nil. }
  pose proof (Hfold _ _ _ H Hinit) as Hle. simpl in Hle.
  pose proof (unfinished_size w) as Hsz.
  split; [lia|]. intros Hin. rewrite Hin, map_size_empty in Hsz. lia.
Qed.

(** ** Further properties of the queries *)

Lemma RootOf_unregistered w s : tree w !! s = None → RootOf w s = None.
Proof.
  intros H. unfold RootOf. destruct (empty w); [done|]. unfold StepTree.RootOf.
  destruct (size (tree w)); simpl; by rewrite H.
Qed.

Lemma bucketHas_None w p : bucketHas w p None = false.
Proof. unfold bucketHas. by destruct (steps w !! p). Qed.

(** X9.  A step that the Step Tree does not know has no state and no
    root; its phase is [PhaseUnknown], and [UpstreamOf] answers the empty
    map for it: none of the queries dereferences a nil state. *)
Theorem queries_of_unregistered_step w s :
  tree w !! s = None →
  StateOf E w s = None ∧ RootOf w s = None ∧ PhaseOf w s = PhaseUnknown
  ∧ UpstreamOf E w s = Some ∅.
Proof.
  intros H. split; [by apply StateOf_unregistered|].
  pose proof (RootOf_unregistered _ _ H) as Hr. split; [done|]. split.
  - unfold PhaseOf. destruct (empty w); [done|]. rewrite Hr.
    unfold WorkflowPhases. simpl. by rewrite !bucketHas_None.
  - destruct (empty w) eqn:He; [unfold UpstreamOf; by rewrite He|].
    rewrite UpstreamOf_unfold, Hr by done. apply upBody_None.
Qed.

Lemma RootOf_container w s a r :
  tree w !! s = Some a → RootOf w s = Some r → RootOf w a = Some r.
Proof.
  intros Ha. unfold RootOf. destruct (empty w); [done|]. unfold StepTree.RootOf.
  destruct (decide (a = s)) as [->|Hne]; [done|].
  destruct (size (tree w)) as [|n] eqn:Hn; simpl; rewrite Ha, decide_False by done; [done|].
  intros H. by apply climb_mono.
Qed.

(** X10.  The queries answer for a nested step what they answer for its
    root: the root of a step is its own root, and [PhaseOf] and
    [UpstreamOf] of the step are those of the root.  When the container of
    the step is no workflow (it has no [StateOf] of its own), [StateOf]
    of the step is the state of the root as well. *)
Theorem queries_follow_root w s r a :
  RootOf w s = Some r → tree w !! s = Some a →
  RootOf w r = Some r ∧ PhaseOf w s = PhaseOf w r ∧ UpstreamOf E w s = UpstreamOf E w r
  ∧ (nestedStateOf E a = None → StateOf E w s = StateOf E w r).
Proof.
  intros Hr Ha. destruct (RootOf_root _ _ _ Hr) as [Ht He].
  pose proof (RootOf_of_root _ _ He Ht) as Hrr.
  split; [done|]. split; [unfold PhaseOf; by rewrite Hr, Hrr|].
  split; [rewrite !UpstreamOf_unfold by done; by rewrite Hr, Hrr|].
  intros Hcap. rewrite (StateOf_root w r) by done.
  unfold StateOf. rewrite He, Ha. case_decide as Heq.
  - subst a. rewrite (RootOf_of_root _ _ He Ha) in Hr. by simplify_eq.
  - rewrite Hcap. rewrite (RootOf_container _ _ _ _ Ha Hr). done.
Qed.

(** X11.  [UpstreamOf(s)] has the entry [se] for [k] exactly when the root
    of [s] is in the bucket of some phase, an upstream recorded on the
    state of that root has [k] as its root, and [se] is the status and
    error that the state of [k] has now. *)
Theorem UpstreamOf_entries w s ups k se :
  UpstreamOf E w s = Some ups →
  ups !! k = Some se ↔
  ∃ r st up stk,
    RootOf w s = Some r
    ∧ (∃ phase b, phase ∈ WorkflowPhases ∧ steps w !! phase = Some b ∧ r ∈ b)
    ∧ state w !! r = Some st ∧ up ∈ StateUpstreams st ∧ RootOf w up = Some k
    ∧ state w !! k = Some stk ∧ se = GetStatusError stk.
Proof.
  intros H. rewrite (UpstreamOf_lookup _ _ _ _ _ H). split.
  - intros (r & st & up & He & Hr & Hin & Hst & Hup & Hk & Hse).
    destruct (RootOf_root _ _ _ Hr) as [Htr _]. destruct (RootOf_root _ _ _ Hk) as [Htk _].
    rewrite stateAt_root in Hst by done.
    unfold entryAt in Hse. rewrite stateAt_root in Hse by done.
    destruct (state w !! k) as [stk|] eqn:Hstk; simpl in Hse; [|done].
    exists r, st, up, stk. apply inPhases_bucket in Hin. by simplify_eq.
  - intros (r & st & up & stk & Hr & Hin & Hst & Hup & Hk & Hstk & ->).
    destruct (RootOf_root _ _ _ Hr) as [Htr He]. destruct (RootOf_root _ _ _ Hk) as [Htk _].
    exists r, st, up. split; [done|]. split; [done|]. split; [by apply inPhases_bucket|].
    split; [by rewrite stateAt_root|]. split; [done|]. split; [done|].
    unfold entryAt. rewrite stateAt_root by done. by rewrite Hstk.
Qed.

Lemma DownstreamOf_values w step ds k se :
  DownstreamOf E w step = Some ds → ds !! k = Some se →
  ∃ st, stateAt E w k = Some st ∧ se = GetStatusError st.
Proof.
  unfold DownstreamOf. destruct (empty w); [intros; by simplify_eq|].
  set (P := λ rv : gmap positive StatusError,
              ∀ k se, rv !! k = Some se → ∃ st, stateAt E w k = Some st ∧ se = GetStatusError st).
  intros H. revert k se. change (P ds).
  eapply foldM_invariant;
    [|unfold P; intros k0 se0 Hk; by rewrite lookup_empty in Hk|exact H].
  intros phase rv rv1 _ Hrv Hphase. cbv beta in Hphase.
  eapply foldM_invariant; [|exact Hrv|exact Hphase].
  intros down rv2 rv3 _ Hrv2 Hdown. cbv beta in Hdown.
  destruct (stateAt E w down) as [st|] eqn:Hst; simpl in Hdown; [|done].
  eapply foldM_invariant; [|exact Hrv2|exact Hdown].
  intros up rv4 rv5 _ Hrv4 Hup. cbv beta in Hup. case_decide; simplify_eq; [|done].
  unfold P in *. intros k se. rewrite lookup_insert. case_decide; [|by apply Hrv4].
  intros [= <-]. subst. eauto.
Qed.

(** X12.  The keys of [DownstreamOf(step)] are the members of the phase
    buckets that have, among the upstreams recorded on their state, one
    whose root is the container [tree[step]] of the step; the entry of a
    key is the status and error its state has now. *)
Theorem DownstreamOf_members w step ds k :
  empty w = false → DownstreamOf E w step = Some ds →
  (is_Some (ds !! k) ↔
   ∃ phase b st up, phase ∈ WorkflowPhases ∧ steps w !! phase = Some b ∧ k ∈ b ∧
     stateAt E w k = Some st ∧ up ∈ StateUpstreams st ∧ RootOf w up = tree w !! step)
  ∧ (∀ se, ds !! k = Some se →
       ∃ st, stateAt E w k = Some st ∧ se = GetStatusError st).
Proof.
  intros He H. split.
  - by apply DownstreamOf_keys.
  - intros se Hse. by eapply DownstreamOf_values.
Qed.


(** X14.  [IsTerminated] holds exactly when every member of the bucket of
    every phase has a state with a terminal status; it holds of an empty
    workflow. *)
Theorem IsTerminated_iff_members_terminal w :
  (empty w = true → IsTerminated E w = Some true)
  ∧ (empty w = false →
       IsTerminated E w = Some true ↔
       ∀ phase b x, phase ∈ WorkflowPhases → steps w !! phase = Some b → x ∈ b →
         ∃ st, stateAt E w x = Some st ∧ StatusIsTerminated (GetStatus st) = true).
Proof.
  unfold IsTerminated. split.
  - intros He. apply allPhasesTerminated_spec. intros p _. unfold IsPhaseTerminated.
    by rewrite He.
  - intros He. rewrite allPhasesTerminated_spec. split.
    + intros H phase b x Hp Hb Hx.
      eapply IsPhaseTerminated_true; [done|by apply H|done|done].
    + intros H p Hp. unfold IsPhaseTerminated. rewrite He. apply allTerminated_spec.
      intros x Hx%rangeSet_elem. destruct (steps w !! p) as [b|] eqn:Hb; simpl in Hx.
      * by eapply H.
      * set_solver.
Qed.

(** ** Further properties of the step runner *)

Lemma notifyStep_fold w ctx step :
  notifyStep w ctx step
  = (fold_left (λ c n, match BeforeStep n with Some f => f c step | None => c end)
       (notify w) ctx,
     omap AfterStep (notify w)).
Proof.
  unfold notifyStep.
  assert (∀ l c hs,
            fold_left (λ (acc : Context * list string) n,
                 (match BeforeStep n with Some f => f acc.1 step | None => acc.1 end,
                  match AfterStep n with Some h => acc.2 ++ [h] | None => acc.2 end))
              l (c, hs)
            = (fold_left (λ c n, match BeforeStep n with Some f => f c step | None => c end) l c,
               hs ++ omap AfterStep l)) as Hgen.
  { induction l as [|n l IH]; intros c hs; simpl; [by rewrite app_nil_r|].
    rewrite IH. f_equal. destruct (AfterStep n); simpl; [|done].
    by rewrite <- app_assoc. }
  by rewrite Hgen.
Qed.

(** X15.  One attempt of a step calls every registered [AfterStep] once,
    in the order of registration, with the step and with the context that
    the [BeforeStep] notifiers made.  The notifiers see the error the
    attempt returns, except that they see nil when [step.Do] panics: the
    deferred call runs before the panic is recovered.  With [DontPanic]
    set the attempt never panics. *)
Theorem attempt_notifies_after_step w step st ctx :
  let ctx' := (notifyStep w ctx step).1 in
  let calls := (makeDoForStep E w step st ctx).1 in
  let out := (makeDoForStep E w step st ctx).2 in
  afterHook <$> calls = omap AfterStep (notify w)
  ∧ (∀ c, c ∈ calls → afterStep c = step ∧ afterCtx c = ctx')
  ∧ (∀ v, runInput (Input (Config st)) ctx' = Returns None → stepDo E step ctx' = Panics v →
       ∀ c, c ∈ calls → afterErr c = None)
  ∧ (∀ e, out = Returns e →
       (runInput (Input (Config st)) ctx' = Returns None → ∃ e', stepDo E step ctx' = Returns e') →
       ∀ c, c ∈ calls → afterErr c = e)
  ∧ (DontPanic w = true → ∃ e, out = Returns e).
Proof.
  unfold makeDoForStep. rewrite notifyStep_fold. cbv zeta. simpl.
  set (ctx' := fold_left _ (notify w) ctx).
  set (hooks := omap AfterStep (notify w)).
  assert (∀ (l : list string) err,
            afterHook <$> ((λ h, mkAfterCall h ctx' step err) <$> l) = l) as Hhooks.
  { intros l err. induction l as [|h l IH]; [done|]. simpl. f_equal. exact IH. }
  assert (∀ err c, c ∈ (λ h, mkAfterCall h ctx' step err) <$> hooks →
            afterStep c = step ∧ afterCtx c = ctx' ∧ afterErr c = err) as Hcall.
  { intros err c (h & -> & _)%list_elem_of_fmap. done. }
  assert (∀ err (seen : option GoError) (out : Outcome (option GoError)),
            (∀ v, runInput (Input (Config st)) ctx' = Returns None →
                  stepDo E step ctx' = Panics v → seen = None) →
            (∀ e, out = Returns e →
                  (runInput (Input (Config st)) ctx' = Returns None →
                   ∃ e', stepDo E step ctx' = Returns e') → seen = e) →
            (DontPanic w = true → ∃ e, out = Returns e) →
            err = seen →
            afterHook <$> ((λ h, mkAfterCall h ctx' step err) <$> hooks) = hooks
            ∧ (∀ c, c ∈ (λ h, mkAfterCall h ctx' step err) <$> hooks →
                 afterStep c = step ∧ afterCtx c = ctx')
            ∧ (∀ v, runInput (Input (Config st)) ctx' = Returns None →
                 stepDo E step ctx' = Panics v →
                 ∀ c, c ∈ (λ h, mkAfterCall h ctx' step err) <$> hooks → afterErr c = None)
            ∧ (∀ e, out = Returns e →
                 (runInput (Input (Config st)) ctx' = Returns None →
                  ∃ e', stepDo E step ctx' = Returns e') →
                 ∀ c, c ∈ (λ h, mkAfterCall h ctx' step err) <$> hooks → afterErr c = e)
            ∧ (DontPanic w = true → ∃ e, out = Returns e)) as Hleaf.
  { intros err seen out Hpanic Hret Hdp ->. split; [apply Hhooks|].
    split; [intros c Hc; by destruct (Hcall _ c Hc) as (? & ? & ?)|].
    split.
    { intros v Hn Hp c Hc. destruct (Hcall _ c Hc) as (_ & _ & ->). by eapply Hpanic. }
    split; [|done].
    intros e He Hd c Hc. destruct (Hcall _ c Hc) as (_ & _ & ->). by apply Hret. }
  destruct (DontPanic w) eqn:Hflag; simpl.
  - destruct (runInput (Input (Config st)) ctx') as [[ierr|]|v] eqn:Hin; simpl.
    + apply (Hleaf _ (Some (ErrInput ierr)) (Returns (Some (ErrInput ierr))));
        [done|by intros e [= <-] _|by eexists|done].
    + destruct (stepDo E step ctx') as [err|v] eqn:Hdo; simpl.
      * apply (Hleaf _ err (Returns err)); [done|by intros e [= <-] _|by eexists|done].
      * apply (Hleaf _ None (catchPanicAsError (Panics v)));
          [done| |by destruct v; eexists|done].
        intros e _ Hd. by destruct (Hd eq_refl) as [e' ?].
    + destruct v as [t|text]; simpl.
      * apply (Hleaf _ (Some (ErrInput (ErrPanic t))) (Returns (Some (ErrInput (ErrPanic t)))));
          [done|by intros e [= <-] _|by eexists|done].
      * apply (Hleaf _ (Some (ErrInput (ErrPanic (UserError text))))
                 (Returns (Some (ErrInput (ErrPanic (UserError text))))));
          [done|by intros e [= <-] _|by eexists|done].
  - destruct (runInput (Input (Config st)) ctx') as [[ierr|]|v] eqn:Hin; simpl.
    + apply (Hleaf _ (Some (ErrInput ierr)) (Returns (Some (ErrInput ierr))));
        [done|by intros e [= <-] _|done|done].
    + destruct (stepDo E step ctx') as [err|v] eqn:Hdo; simpl.
      * apply (Hleaf _ err (Returns err)); [done|by intros e [= <-] _|done|done].
      * apply (Hleaf _ None (Panics v)); [done|done|done|done].
    + apply (Hleaf _ None (Panics v)); [done|done|done|done].
Qed.

(** ** The build of a workflow of plain steps *)

Lemma built_nonempty w s : built w → is_Some (tree w !! s) → empty w = false.
Proof.
  intros (_ & B2 & _ & B4 & _) Hs. destruct (B4 s Hs) as (phase & b & _ & Hb & _).
  apply (empty_false w s s phase); [done|by apply B2|by eexists].
Qed.

Lemma built_root w s : built w → is_Some (tree w !! s) → tree w !! s = Some s.
Proof. intros (B1 & _) [p Hp]. by rewrite Hp, (B1 s p Hp). Qed.

Lemma built_register w phase s :
  built w → phase ∈ WorkflowPhases → built (register w phase s).
Proof.
  intros (B1 & B2 & B3 & B4 & B5 & B6) Hphase. unfold register.
  split; [|split; [|split; [|split; [|split]]]]; simpl.
  - intros x p. rewrite lookup_insert. case_decide; [by intros [= <-]|apply B1].
  - intros x. rewrite !lookup_insert. case_decide; [split; by eexists|apply B2].
  - intros q b x. rewrite lookup_insert. case_decide as Hq.
    + intros [= <-]. rewrite lookup_insert. case_decide; [by eexists|].
      intros [?%elem_of_singleton|Hx]%elem_of_union; [done|].
      destruct (steps w !! phase) as [b0|] eqn:Hb0; simpl in Hx; [|set_solver].
      subst q. by eapply B3.
    + intros Hb Hx. rewrite lookup_insert. case_decide; [by eexists|by eapply B3].
  - intros x. rewrite lookup_insert. case_decide as Hx.
    + intros _. subst x. exists phase, ({[s]} ∪ default ∅ (steps w !! phase)).
      split; [done|]. split; [by rewrite lookup_insert_eq|set_solver].
    + intros Hin. destruct (B4 x Hin) as (q & b & Hq & Hb & Hxb).
      destruct (decide (phase = q)) as [->|Hne].
      * exists q, ({[s]} ∪ default ∅ (steps w !! q)). split; [done|].
        split; [by rewrite lookup_insert_eq|]. rewrite Hb. set_solver.
      * exists q, b. split; [done|]. split; [by rewrite lookup_insert_ne|done].
  - unfold allPending. simpl. intros x st. rewrite lookup_insert. case_decide; [|apply B5].
    intros [= <-]. subst x. destruct (state w !! s) as [st0|] eqn:Hst; simpl; [|done].
    by eapply B5.
  - intros x st up. rewrite !lookup_insert. case_decide as Hx.
    + intros [= <-]. subst x. destruct (state w !! s) as [st0|] eqn:Hst; simpl.
      * intros Hup. case_decide; [by eexists|by eapply B6].
      * unfold StateUpstreams. simpl. set_solver.
    + intros Hst Hup. case_decide; [by eexists|by eapply B6].
Qed.

Lemma addStepRoot_plain w phase b s :
  plainEnv E → built w → steps w !! phase = Some b →
  addStepRoot E w phase s = Some (register w phase s).
Proof.
  intros Hplain Hw Hb. pose proof Hw as (B1 & B2 & B3 & B4 & B5 & B6).
  unfold addStepRoot. rewrite Hb. simpl.
  set (w1 := withSteps w (<[phase := {[s]} ∪ b]> (steps w))).
  destruct (tree w !! s) as [p|] eqn:Hs.
  - pose proof (B1 s p Hs). subst p.
    assert (is_Some (state w !! s)) as [st Hst] by (apply B2; by eexists).
    assert (empty w1 = false) as He.
    { apply (empty_false w1 s s phase); [by eexists|by eexists|].
      unfold w1. simpl. rewrite lookup_insert_eq. by eexists. }
    rewrite (StateOf_root w1 s He Hs). change (state w1) with (state w). rewrite Hst. simpl.
    f_equal. unfold w1, withSteps, register. rewrite Hb, Hst. simpl.
    by rewrite (insert_id (tree w) s s Hs), (insert_id (state w) s st Hst).
  - rewrite (StateOf_unregistered w1 s) by done.
    destruct (Hplain s) as [-> _]. unfold StepTree.Add. simpl.
    rewrite rangeSet_empty. simpl. f_equal. unfold w1, withTree, withState, withSteps, register.
    simpl. rewrite Hb. assert (state w !! s = None) as ->; [|done].
    destruct (state w !! s) eqn:Hst; [|done].
    assert (is_Some (tree w !! s)) as [? ?] by (apply B2; by eexists). congruence.
Qed.

Lemma lowestOwner_plain w step up n :
  plainEnv E → tree w !! step = Some step →
  lowestOwner E n w step up step = Some <$> StateOf E w step.
Proof.
  intros Hplain Ht. destruct (Hplain step) as [_ Hcap].
  assert (StepTree.IsRoot (tree w) step = true) as Hroot
    by (unfold StepTree.IsRoot; by apply bool_decide_eq_true).
  destruct n; simpl; by rewrite Hcap, Hroot.
Qed.

Lemma setUpstream_plain w phase b step up :
  plainEnv E → built w → phase ∈ WorkflowPhases → steps w !! phase = Some b →
  is_Some (tree w !! step) →
  setUpstream E w phase step up
  = Some (update (register w phase up) (RootState step) (AddUpstream up)).
Proof.
  intros Hplain Hw Hphase Hb Hstep. unfold setUpstream.
  rewrite (addStepRoot_plain _ _ _ _ Hplain Hw Hb). cbn [mbind option_bind].
  pose proof (built_register w phase up Hw Hphase) as Hw1.
  set (w1 := register w phase up) in *.
  assert (tree w1 !! up = Some up) as Hup by (unfold w1, register; simpl; apply lookup_insert_eq).
  assert (tree w1 !! step = Some step) as Hst.
  { apply built_root; [done|]. unfold w1, register. simpl. rewrite lookup_insert.
    case_decide; [by eexists|done]. }
  assert (empty w1 = false) as He by (eapply built_nonempty; [done|by eexists]).
  clearbody w1. destruct Hw1 as (_ & B2 & _).
  assert (is_Some (state w1 !! up)) as [stu Hstu] by (apply B2; by eexists).
  assert (is_Some (state w1 !! step)) as [sts Hsts] by (apply B2; by eexists).
  rewrite (StateOf_root w1 up He Hup), Hstu. cbn [fmap option_fmap option_map]. rewrite Hst.
  rewrite (lowestOwner_plain w1 step up _ Hplain Hst).
  rewrite (StateOf_root w1 step He Hst), Hsts. cbn [fmap option_fmap option_map mbind option_bind].
  unfold addUpstreamAt, const. cbn [deref]. by rewrite Hsts.
Qed.

Lemma built_AddUpstream w step up :
  built w → is_Some (tree w !! up) → built (update w (RootState step) (AddUpstream up)).
Proof.
  intros (B1 & B2 & B3 & B4 & B5 & B6) Hup.
  split; [done|]. split; [|split; [done|split; [done|split]]]; simpl.
  - intros x. rewrite lookup_alter. case_decide; [|apply B2].
    subst. rewrite <- B2. unfold is_Some. destruct (state w !! x); naive_solver.
  - unfold allPending. simpl. intros x st. rewrite lookup_alter. case_decide; [|apply B5]. subst.
    destruct (state w !! x) as [st0|] eqn:Hst; simpl; [|done]. intros [= <-].
    by apply (B5 x st0).
  - intros x st u. rewrite lookup_alter. case_decide; [|apply B6]. subst.
    destruct (state w !! x) as [st0|] eqn:Hst; simpl; [|done]. intros [= <-].
    unfold StateUpstreams. simpl. intros [->%elem_of_singleton|Hu]%elem_of_union; [done|].
    by eapply B6.
Qed.

Lemma built_update w s f :
  built w →
  (∀ st, GetStatus (f st) = GetStatus st ∧ StateUpstreams (f st) = StateUpstreams st) →
  built (update w (RootState s) f).
Proof.
  intros (B1 & B2 & B3 & B4 & B5 & B6) Hf.
  split; [done|]. split; [|split; [done|split; [done|split]]]; simpl.
  - intros x. rewrite lookup_alter. case_decide; [|apply B2].
    subst. rewrite <- B2. unfold is_Some. destruct (state w !! x); naive_solver.
  - unfold allPending. simpl. intros x st. rewrite lookup_alter. case_decide; [|apply B5]. subst.
    destruct (state w !! x) as [st0|] eqn:Hst; simpl; [|done]. intros [= <-].
    destruct (Hf st0) as [-> _]. by apply (B5 x st0).
  - intros x st u. rewrite lookup_alter. case_decide; [|apply B6]. subst.
    destruct (state w !! x) as [st0|] eqn:Hst; simpl; [|done]. intros [= <-].
    destruct (Hf st0) as [_ ->]. by eapply B6.
Qed.

(** What one call of [setUpstream] does to a workflow of plain steps. *)
Lemma setUpstream_plain_effect w phase b step up sx :
  plainEnv E → built w → phase ∈ WorkflowPhases → steps w !! phase = Some b →
  state w !! step = Some sx →
  ∃ w', setUpstream E w phase step up = Some w' ∧ built w'
    ∧ steps w' !! phase = Some ({[up]} ∪ b)
    ∧ (∀ p, p ≠ phase → steps w' !! p = steps w !! p)
    ∧ state w' !! step = Some (AddUpstream up sx)
    ∧ (∀ s, s ≠ step → is_Some (state w !! s) → state w' !! s = state w !! s)
    ∧ (∀ s, is_Some (tree w !! s) → is_Some (tree w' !! s))
    ∧ is_Some (tree w' !! up).
Proof.
  intros Hplain Hw Hphase Hb Hsx. pose proof Hw as (_ & B2 & _).
  assert (is_Some (tree w !! step)) as Hstep by (apply B2; by eexists).
  eexists. split; [by eapply setUpstream_plain|].
  split; [apply built_AddUpstream; [by apply built_register|]|].
  { unfold register. simpl. rewrite lookup_insert_eq. by eexists. }
  split; [simpl; by rewrite lookup_insert_eq, Hb|].
  split; [intros p Hp; simpl; by rewrite lookup_insert_ne|].
  split.
  { simpl. rewrite lookup_alter, decide_True by done. rewrite lookup_insert.
    case_decide; [subst; by rewrite Hsx|by rewrite Hsx]. }
  split.
  { intros s Hs [st Hst]. simpl. rewrite lookup_alter, decide_False by done.
    rewrite lookup_insert. case_decide; [subst; by rewrite Hst|done]. }
  split.
  - intros s Hs. simpl. rewrite lookup_insert. case_decide; [by eexists|done].
  - simpl. rewrite lookup_insert_eq. by eexists.
Qed.

Lemma setUpstreams_plain phase step l : ∀ w b sx,
  plainEnv E → built w → phase ∈ WorkflowPhases → steps w !! phase = Some b →
  state w !! step = Some sx →
  ∃ w' sy, foldM (λ w0 up, setUpstream E w0 phase step up) w l = Some w' ∧ built w'
    ∧ steps w' !! phase = Some (list_to_set l ∪ b)
    ∧ (∀ p, p ≠ phase → steps w' !! p = steps w !! p)
    ∧ state w' !! step = Some sy
    ∧ GetStatus sy = GetStatus sx
    ∧ StateUpstreams sy = list_to_set l ∪ StateUpstreams sx
    ∧ Condition (Config sy) = Condition (Config sx)
    ∧ Input (Config sy) = Input (Config sx)
    ∧ (∀ s, s ≠ step → is_Some (state w !! s) → state w' !! s = state w !! s)
    ∧ (∀ s, is_Some (tree w !! s) → is_Some (tree w' !! s))
    ∧ (∀ up, up ∈ l → is_Some (tree w' !! up)).
Proof.
  induction l as [|up l IH]; intros w b sx Hplain Hw Hphase Hb Hsx.
  - exists w, sx. simpl. split; [done|]. split; [done|].
    split; [rewrite Hb; f_equal; set_solver|]. split; [done|]. split; [done|].
    split; [done|]. split; [set_solver|]. split; [done|]. split; [done|].
    split; [done|]. split; [done|]. by intros ? ?%elem_of_nil.
  - rewrite foldM_cons.
    destruct (setUpstream_plain_effect w phase b step up sx Hplain Hw Hphase Hb Hsx)
      as (w1 & -> & Hw1 & Hb1 & Hp1 & Hs1 & Ho1 & Ht1 & Hu1).
    cbn [mbind option_bind].
    destruct (IH w1 _ _ Hplain Hw1 Hphase Hb1 Hs1)
      as (w2 & sy & -> & Hw2 & Hb2 & Hp2 & Hs2 & Hg2 & Hu2 & Hc2 & Hi2 & Ho2 & Ht2 & Hl2).
    exists w2, sy. split; [done|]. split; [done|].
    split; [rewrite Hb2; f_equal; set_solver|].
    split; [intros p Hp; by rewrite Hp2, Hp1|]. split; [done|]. split; [done|].
    split; [rewrite Hu2; unfold StateUpstreams; simpl; set_solver|].
    split; [done|]. split; [done|].
    split.
    { intros s Hs Hst. rewrite Ho2; [by apply Ho1|done|]. rewrite Ho1; done. }
    split; [intros s Hs; by apply Ht2, Ht1|].
    intros u [->|Hu]%elem_of_cons; [by apply Ht2|by apply Hl2].
Qed.

Lemma built_upstreamsDefined w : built w → upstreamsDefined E w.
Proof.
  intros Hw s Hs. pose proof Hw as (B1 & B2 & B3 & B4 & B5 & B6).
  assert (is_Some (tree w !! s)) as Hts by (by apply B2).
  pose proof (built_nonempty _ _ Hw Hts) as He.
  pose proof (built_root _ _ Hw Hts) as Hroot.
  rewrite UpstreamOf_unfold, (RootOf_of_root _ _ He Hroot) by done.
  apply upBody_total. intros _. rewrite stateAt_root by done. split; [done|].
  intros up Hup. unfold upList in Hup. rewrite stateAt_root in Hup by done.
  destruct Hs as [st Hst]. rewrite Hst in Hup. apply rangeSet_elem in Hup.
  pose proof (B6 s st up Hst Hup) as Htu. pose proof (built_root _ _ Hw Htu) as Hru.
  exists up. split; [by apply RootOf_of_root|]. rewrite stateAt_root by done. by apply B2.
Qed.

Lemma built_rootsOnly w : built w → rootsOnly w.
Proof.
  intros Hw. pose proof Hw as (B1 & B2 & B3 & B4 & B5 & B6). split.
  - intros s. rewrite B2. split; [by apply built_root|by eexists].
  - intros phase b s Hb Hs. apply built_root; [done|]. by eapply B3.
Qed.

(** The upstreams that [UpstreamOf] reports for a plain step are the ones
    recorded on its state. *)
Lemma built_UpstreamOf w s st :
  built w → state w !! s = Some st →
  ∃ ups, UpstreamOf E w s = Some ups ∧ dom ups = StateUpstreams st
    ∧ ∀ k se, ups !! k = Some se → Status se = Pending.
Proof.
  intros Hw Hst. pose proof Hw as (B1 & B2 & B3 & B4 & B5 & B6).
  assert (is_Some (tree w !! s)) as Hts by (apply B2; by eexists).
  pose proof (built_nonempty _ _ Hw Hts) as He.
  pose proof (built_root _ _ Hw Hts) as Hroot.
  destruct (built_upstreamsDefined w Hw s) as [ups Hups]; [by eexists|].
  exists ups. split; [done|]. split.
  - apply set_eq. intros k. rewrite elem_of_dom. unfold is_Some.
    setoid_rewrite (UpstreamOf_lookup _ _ _ _ _ Hups). split.
    + intros (se & r & st' & up & _ & Hr & _ & Hst' & Hup & Hk & _).
      rewrite (RootOf_of_root _ _ He Hroot) in Hr. simplify_eq.
      rewrite stateAt_root in Hst' by done. simplify_eq.
      pose proof (B6 _ _ _ Hst Hup) as Htu.
      rewrite (RootOf_of_root _ _ He (built_root _ _ Hw Htu)) in Hk. by simplify_eq.
    + intros Hk. pose proof (B6 _ _ _ Hst Hk) as Htk.
      pose proof (built_root _ _ Hw Htk) as Hrk.
      assert (is_Some (state w !! k)) as [stk Hstk] by (by apply B2).
      exists (GetStatusError stk), s, st, k. split; [done|].
      split; [by apply RootOf_of_root|]. split.
      { apply inPhases_bucket. destruct (B4 s Hts) as (p & b & ? & ? & ?). by exists p, b. }
      split; [by rewrite stateAt_root|]. split; [done|].
      split; [by apply RootOf_of_root|]. unfold entryAt. rewrite stateAt_root by done.
      by rewrite Hstk.
  - intros k se Hk. destruct (UpstreamOf_key_root _ _ _ _ _ Hups Hk) as (stk & Hstk & ->).
    by apply (B5 k stk).
Qed.

Lemma list_to_set_rangeSet (X : gset positive) : list_to_set (rangeSet E X) = X.
Proof. apply set_eq. intros x. by rewrite elem_of_list_to_set, rangeSet_elem. Qed.

Lemma register_effect w phase b s :
  built w → phase ∈ WorkflowPhases → steps w !! phase = Some b →
  built (register w phase s)
  ∧ tree (register w phase s) !! s = Some s
  ∧ steps (register w phase s) !! phase = Some ({[s]} ∪ b)
  ∧ (∀ p, p ≠ phase → steps (register w phase s) !! p = steps w !! p)
  ∧ state (register w phase s) !! s = Some (default newState (state w !! s))
  ∧ (∀ x, x ≠ s → state (register w phase s) !! x = state w !! x)
  ∧ (∀ x, is_Some (tree w !! x) → is_Some (tree (register w phase s) !! x)).
Proof.
  intros Hw Hphase Hb. split; [by apply built_register|]. unfold register. simpl.
  split; [apply lookup_insert_eq|]. split; [by rewrite lookup_insert_eq, Hb|].
  split; [intros p Hp; by rewrite lookup_insert_ne|].
  split; [apply lookup_insert_eq|]. split; [intros x Hx; by rewrite lookup_insert_ne|].
  intros x Hx. rewrite lookup_insert. case_decide; [by eexists|done].
Qed.

Lemma addStep_plain_config w phase b step c :
  plainEnv E → built w → phase ∈ WorkflowPhases → steps w !! phase = Some b →
  ∃ w' st',
    addStep E w phase step (Some c) = Some w' ∧ built w'
    ∧ tree w' !! step = Some step
    ∧ steps w' !! phase = Some (Upstreams c ∪ ({[step]} ∪ b))
    ∧ state w' !! step = Some st'
    ∧ StateUpstreams st' = Upstreams c ∪ StateUpstreams (default newState (state w !! step))
    ∧ Input (Config st') = Input (Config (default newState (state w !! step))) ++ Input c
    ∧ (∀ s, s ≠ step → is_Some (state w !! s) → state w' !! s = state w !! s).
Proof.
  intros Hplain Hw Hphase Hb. unfold addStep.
  rewrite (addStepRoot_plain _ _ _ _ Hplain Hw Hb). cbn [mbind option_bind].
  destruct (register_effect w phase b step Hw Hphase Hb)
    as (Hw0 & Ht0 & Hb0 & Hp0 & Hs0 & Ho0 & Hm0).
  set (w0 := register w phase step) in *. clearbody w0.
  destruct (setUpstreams_plain phase step (rangeSet E (Upstreams c)) w0 _ _
              Hplain Hw0 Hphase Hb0 Hs0)
    as (w1 & sy & -> & Hw1 & Hb1 & Hp1 & Hs1 & Hg1 & Hu1 & Hc1 & Hi1 & Ho1 & Ht1 & Hl1).
  cbn [mbind option_bind]. rewrite list_to_set_rangeSet in Hb1, Hu1.
  assert (tree w1 !! step = Some step) as Hroot
    by (apply built_root; [done|apply Ht1; by eexists]).
  assert (empty w1 = false) as He by (eapply built_nonempty; [done|by eexists]).
  rewrite (StateOf_root w1 step He Hroot), Hs1.
  unfold const. cbn [fmap option_fmap option_map mbind option_bind deref]. rewrite Hs1.
  cbn [mbind option_bind].
  set (f := MergeConfig (mkStepConfig ∅ (Condition c) (Input c))).
  assert (built (update w1 (RootState step) f)) as Hw2.
  { apply built_update; [done|]. intros st. unfold f, MergeConfig, GetStatus, StateUpstreams.
    simpl. split; [done|set_solver]. }
  assert (state (update w1 (RootState step) f) !! step = Some (f sy)) as Hs2.
  { simpl. by rewrite lookup_alter, decide_True, Hs1. }
  exists (update w1 (RootState step) f), (f sy).
  split; [done|]. split; [done|]. split; [done|]. split; [done|]. split; [done|].
  split; [unfold f, MergeConfig, StateUpstreams in *; simpl; set_solver|].
  split; [unfold f, MergeConfig; simpl; by rewrite Hi1|].
  intros s Hs Hst. simpl. rewrite lookup_alter, decide_False by done.
  rewrite Ho1, Ho0; [done|done|done|]. by rewrite Ho0.
Qed.

(** X16.  In a workflow of plain steps, [addStep] with a config
    dereferences no nil state, and it records what the config declares:
    the step is a root in the bucket of the phase, with every declared
    upstream beside it; the upstreams of its state are those it had and
    those declared; [UpstreamOf] reports exactly these, each [Pending];
    the states of the other steps that were there are untouched. *)
Theorem addStep_records_upstreams w phase b step c :
  plainEnv E → built w → phase ∈ WorkflowPhases → steps w !! phase = Some b →
  ∃ w' st' ups,
    addStep E w phase step (Some c) = Some w' ∧ built w'
    ∧ tree w' !! step = Some step
    ∧ steps w' !! phase = Some (Upstreams c ∪ ({[step]} ∪ b))
    ∧ state w' !! step = Some st'
    ∧ StateUpstreams st' = Upstreams c ∪ StateUpstreams (default newState (state w !! step))
    ∧ Input (Config st') = Input (Config (default newState (state w !! step))) ++ Input c
    ∧ UpstreamOf E w' step = Some ups ∧ dom ups = StateUpstreams st'
    ∧ (∀ k se, ups !! k = Some se → Status se = Pending)
    ∧ (∀ s, s ≠ step → is_Some (state w !! s) → state w' !! s = state w !! s).
Proof.
  intros Hplain Hw Hphase Hb.
  destruct (addStep_plain_config w phase b step c Hplain Hw Hphase Hb)
    as (w' & st' & Hadd & Hw' & Ht & Hb' & Hst & Hup & Hin & Hother).
  destruct (built_UpstreamOf _ step st' Hw' Hst) as (ups & Hups & Hdom & Hpend).
  exists w', st', ups. do 9 (split; [done|]). done.
Qed.

Lemma addStep_plain w phase b step cfg :
  plainEnv E → built w → phase ∈ WorkflowPhases → steps w !! phase = Some b →
  ∃ w', addStep E w phase step cfg = Some w' ∧ built w' ∧ is_Some (steps w' !! phase).
Proof.
  intros Hplain Hw Hphase Hb. destruct cfg as [c|].
  - destruct (addStep_plain_config w phase b step c Hplain Hw Hphase Hb)
      as (w' & st' & Hadd & Hw' & _ & Hb' & _).
    exists w'. split; [done|]. split; [done|]. by eexists.
  - unfold addStep. rewrite (addStepRoot_plain _ _ _ _ Hplain Hw Hb). cbn [mbind option_bind].
    eexists. split; [done|]. split; [by apply built_register|].
    unfold register. simpl. rewrite lookup_insert_eq. by eexists.
Qed.

Lemma built_new_bucket w phase :
  built w → steps w !! phase = None → built (withSteps w (<[phase := ∅]> (steps w))).
Proof.
  intros (B1 & B2 & B3 & B4 & B5 & B6) Hnone.
  split; [done|]. split; [done|]. split; [|split; [|done]]; simpl.
  - intros q b x. rewrite lookup_insert. case_decide; [|apply B3].
    intros [= <-]. set_solver.
  - intros x Hx. destruct (B4 x Hx) as (q & b & Hq & Hb & Hxb). exists q, b.
    split; [done|]. split; [|done]. rewrite lookup_insert_ne; [done|]. congruence.
Qed.

Lemma built_newWorkflow : built newWorkflow.
Proof.
  unfold built, allPending, newWorkflow. simpl.
  split; [intros s p; by rewrite lookup_empty|].
  split; [intros s; rewrite !lookup_empty; split; by intros [? ?]|].
  split; [intros phase b s; by rewrite lookup_empty|].
  split; [intros s; rewrite lookup_empty; by intros [? ?]|].
  split; [intros s st; by rewrite lookup_empty|].
  intros s st up; by rewrite lookup_empty.
Qed.

Lemma PhaseAdd_plain w phase was :
  plainEnv E → built w → phase ∈ WorkflowPhases →
  ∃ w', PhaseAdd E w phase was = Some w' ∧ built w'.
Proof.
  intros Hplain Hw Hphase. unfold PhaseAdd.
  set (w0 := match steps w !! phase with
             | Some _ => w
             | None => withSteps w (<[phase := ∅]> (steps w))
             end).
  assert (built w0 ∧ is_Some (steps w0 !! phase)) as H0.
  { unfold w0. destruct (steps w !! phase) as [b|] eqn:Hb.
    - split; [done|]. rewrite Hb. by eexists.
    - split; [by apply built_new_bucket|]. simpl. rewrite lookup_insert_eq. by eexists. }
  clearbody w0.
  destruct (foldM_total (λ x, built x ∧ is_Some (steps x !! phase))
              (λ w '(step, config),
                 match step with
                 | Some s => addStep E w phase s config
                 | None => Some w
                 end) (concat was) w0) as (w' & Hw' & Hb' & _); [|done|by exists w'].
  intros [[s|] cfg] x _ [Hx [b Hb]]; [|by exists x].
  destruct (addStep_plain x phase b s cfg Hplain Hx Hphase Hb) as (y & -> & Hy & Hby).
  by exists y.
Qed.

Lemma preflight_total w : allPending w → upstreamsDefined E w → is_Some (preflight E w).
Proof.
  intros Hp Hdef. rewrite preflight_pending by done.
  set (P := λ x, scanKeeps w x).
  assert (P w) as HPw.
  { split; [apply sameShape_refl|]. split; [done|]. intros s st Hs. left. by eapply Hp. }
  assert (∀ x s st ups, P x → state x !! s = Some st → GetStatus st ≠ scanned →
            UpstreamOf E x s = Some ups → isAllUpstreamScanned ups = true → P (mark x s))
    as HPmark by (intros; by eapply scanKeeps_mark).
  assert (∀ x s, P x → is_Some (state x !! s) → is_Some (UpstreamOf E x s)) as HPtotal.
  { intros x s [Hsh _] Hs. apply (UpstreamOf_sameShape_total w x s Hsh).
    apply Hdef. by apply (sameShape_state_is_Some _ _ s Hsh). }
  assert (∀ x x0 s, P x0 → P x → is_Some (state x0 !! s) → is_Some (state x !! s)) as HPkeys.
  { intros x x0 s [Hsh0 _] [Hsh _] Hs. apply (sameShape_state_is_Some _ _ s Hsh).
    by apply (sameShape_state_is_Some _ _ s Hsh0). }
  destruct (scanLoop_total P HPmark HPtotal HPkeys (size (state w)) w HPw) as [w1 Hscan].
  rewrite Hscan. cbn [mbind option_bind].
  assert (is_Some (stepsInCycle E w1)) as [cyc ->].
  { apply cycleSteps_total. intros s Hs%rangeMap_keys. split; [done|].
    apply HPtotal; [|done]. by eapply (scanLoop_invariant P HPmark). }
  cbn [mbind option_bind]. by case_bool_decide.
Qed.

(** X17.  Every workflow that [Add], [Init] and [Defer] build from
    [new(Workflow)] out of plain steps is well formed, and the build
    dereferences no nil state: the state table holds exactly the roots of
    the tree and every member of a bucket is a root, every step is its own
    root, every state is [Pending], [UpstreamOf] is defined on the state
    table, and [preflight] returns on it. *)
Theorem build_of_plain_steps calls :
  plainEnv E → (∀ call, call ∈ calls → call.1 ∈ WorkflowPhases) →
  ∃ w, buildAll E newWorkflow calls = Some w
    ∧ rootsOnly w ∧ allPending w ∧ upstreamsDefined E w
    ∧ (∀ s p, tree w !! s = Some p → p = s)
    ∧ is_Some (preflight E w).
Proof.
  intros Hplain Hcalls. unfold buildAll.
  destruct (foldM_total built (λ w call, PhaseAdd E w call.1 call.2) calls newWorkflow)
    as (w & Hw & Hbuilt); [|apply built_newWorkflow|].
  { intros call x Hin Hx. by apply PhaseAdd_plain; [|done|apply Hcalls]. }
  exists w. split; [done|]. split; [by apply built_rootsOnly|].
  pose proof (built_upstreamsDefined w Hbuilt) as Hdef.
  pose proof Hbuilt as (B1 & _ & _ & _ & B5 & _).
  split; [done|]. split; [done|]. split; [done|]. by apply preflight_total.
Qed.

(** X18.  Adding again, with no config, a plain step that is already in
    the bucket of the phase leaves the workflow exactly as it is. *)
Theorem addStep_again_changes_nothing w phase b s :
  plainEnv E → built w → steps w !! phase = Some b → s ∈ b →
  addStep E w phase s None = Some w.
Proof.
  intros Hplain Hw Hb Hs. pose proof Hw as (B1 & B2 & B3 & _).
  assert (is_Some (tree w !! s)) as Hts by (by eapply B3).
  pose proof (built_root _ _ Hw Hts) as Hroot.
  assert (is_Some (state w !! s)) as [st Hst] by (by apply B2).
  unfold addStep. rewrite (addStepRoot_plain _ _ _ _ Hplain Hw Hb). cbn [mbind option_bind].
  f_equal. unfold register. rewrite Hb, Hst. simpl.
  rewrite (insert_id (tree w) s s Hroot), (insert_id (state w) s st Hst).
  assert ({[s]} ∪ b = b) as -> by set_solver.
  rewrite (insert_id (steps w) phase b Hb). by destruct w.
Qed.

(** ** The run does not stall *)

Lemma tickLoop_idle ctx l : ∀ w t,
  tickLoop E w ctx l = Some t → tickLaunched t = [] → tickSignals t = 0 →
  ∀ x, x ∈ l → tickStep E w ctx x = Some (w, VisitSkip).
Proof.
  induction l as [|s l IH]; intros w t H Hl Hs x Hx; [by apply elem_of_nil in Hx|].
  rewrite tickLoop_cons in H.
  destruct (tickStep E w ctx s) as [[w1 v]|] eqn:Hstep; simpl in H; [|done].
  destruct (tickLoop E w1 ctx l) as [t'|] eqn:Hloop; simpl in H; [|done].
  simplify_eq. simpl in *. destruct v as [|ns|r]; [|done..].
  pose proof (tickStep_inv _ _ _ _ _ Hstep) as (r0 & st & _ & _ & -> & _).
  apply elem_of_cons in Hx as [->|Hx]; [done|]. by eapply IH.
Qed.

(** X19.  The run cannot stall on an acyclic phase.  Let [tick] select the
    bucket [b] and return false.  When no member of [b] is running (each
    is [Pending] or terminal), every upstream of a member that is not
    terminal is a member too, and the upstream relation over [b] has a
    ranking, the tick starts a goroutine or terminates a step. *)
Theorem tick_makes_progress w ctx t b rank :
  selectPhase E w WorkflowPhases = Some (Some b) →
  tick E w ctx = Some (t, false) →
  (∀ s st, s ∈ b → stateAt E w s = Some st →
     GetStatus st = Pending ∨ StatusIsTerminated (GetStatus st) = true) →
  (∀ s ups k se, s ∈ b → UpstreamOf E w s = Some ups → ups !! k = Some se →
     StatusIsTerminated (Status se) = true ∨ k ∈ b) →
  (∀ s ups k, s ∈ b → UpstreamOf E w s = Some ups → is_Some (ups !! k) → rank k < rank s) →
  tickLaunched t ≠ [] ∨ 0 < tickSignals t.
Proof.
  intros Hsel Htick Hstatus Hclosed Hrank.
  destruct (tickLaunched t) as [|x l] eqn:Hl; [|by left]. right.
  destruct (tickSignals t) as [|n] eqn:Hs; [|lia]. exfalso.
  unfold tick in Htick. rewrite Hsel in Htick. simpl in Htick.
  destruct (tickLoop E w ctx (rangeSet E b)) as [t'|] eqn:Hloop; simpl in Htick; [|done].
  simplify_eq.
  pose proof (tickLoop_idle _ _ _ _ Hloop Hl Hs) as Hidle.
  pose proof (selectPhase_nonempty _ _ _ Hsel) as He.
  destruct (selectPhase_inv _ _ _ Hsel) as (l1 & q & l2 & _ & Hq & Hfalse & _).
  assert (∀ n s, rank s < n → s ∈ b →
            ∃ st, stateAt E w s = Some st ∧ StatusIsTerminated (GetStatus st) = true) as Hall.
  { induction n as [|n IH]; intros s Hn Hsb; [lia|].
    pose proof (Hidle s (proj2 (rangeSet_elem b s) Hsb)) as Hstep.
    apply tickStep_inv in Hstep as (r & st & Hr & Hd & _ & Hskip).
    assert (stateAt E w s = Some st) as Hst by (unfold stateAt; by rewrite Hr).
    exists st. split; [done|].
    destruct (Hstatus s st Hsb Hst) as [Hp|Ht]; [|done].
    destruct Hskip as [Hnp|(ups & Hups & Hany)]; [done|].
    unfold isAnyUpstreamNotTerminated in Hany. apply negb_true_iff in Hany.
    apply bool_decide_eq_false in Hany.
    apply map_not_Forall in Hany as (k & se & Hk & Hse); [|apply _].
    destruct (Hclosed s ups k se Hsb Hups Hk) as [?|Hkb]; [done|].
    assert (rank k < rank s) as Hlt by (eapply Hrank; [done|done|by eexists]).
    destruct (IH k ltac:(lia) Hkb) as (stk & Hstk & Htk).
    destruct (UpstreamOf_key_root _ _ _ _ _ Hups Hk) as (stk' & Hstk' & ->).
    apply (UpstreamOf_lookup _ _ _ _ _ Hups) in Hk
      as (r' & st' & up & _ & _ & _ & _ & _ & Hroot & _).
    destruct (RootOf_root _ _ _ Hroot) as [Htk' _].
    rewrite stateAt_root in Hstk by done. by simplify_eq. }
  assert (IsPhaseTerminated E w q = Some true) as Htrue; [|congruence].
  unfold IsPhaseTerminated. rewrite He, Hq. simpl. apply allTerminated_spec.
  intros x Hx%rangeSet_elem. by apply (Hall (S (rank x))); [lia|].
Qed.

(** ** A phase whose steps all wait *)

Lemma preflight_nil_same w w' : preflight E w = Some (w', None) → w' = w.
Proof.
  intros H. destruct (preflight_writes _ _ _ H) as (_ & _ & Hp).
  destruct (Hp eq_refl) as [Hw _]. rewrite preflight_pending in H by done.
  destruct (scanLoop E (size (state w)) w) as [w1|] eqn:Hscan; simpl in H; [|done].
  destruct (stepsInCycle E w1) as [cyc|] eqn:Hcyc; simpl in H; [|done].
  case_bool_decide as Hsz; [done|]. simplify_eq.
  rewrite (scanLoop_resetPending _ _ _ Hscan). by apply resetPending_pending.
Qed.

Lemma selectPhase_withRunning w b ps :
  selectPhase E (withRunning w b) ps = selectPhase E w ps.
Proof.
  induction ps as [|p ps IH]; [done|].
  rewrite !selectPhase_cons, IsPhaseTerminated_withRunning, IH. done.
Qed.

Lemma UpstreamOf_withRunning w b s : UpstreamOf E (withRunning w b) s = UpstreamOf E w s.
Proof. reflexivity. Qed.

(** In a workflow whose states are all [Pending], a step that has an
    upstream is skipped by [tick]. *)
Lemma tickStep_waits w ctx s ups w' v :
  allPending w → UpstreamOf E w s = Some ups → ups ≠ ∅ →
  tickStep E w ctx s = Some (w', v) → w' = w ∧ v = VisitSkip.
Proof.
  intros Hp Hups Hne H.
  assert (isAnyUpstreamNotTerminated ups = true) as Hany.
  { unfold isAnyUpstreamNotTerminated. apply negb_true_iff, bool_decide_eq_false.
    intros Hall. apply map_choose in Hne as (k & se & Hk).
    pose proof (Hall k se Hk) as Ht. simpl in Ht.
    destruct (UpstreamOf_key_root _ _ _ _ _ Hups Hk) as (stk & Hstk & ->).
    pose proof (Hp k stk Hstk) as Hpk. unfold GetStatus in Hpk.
    unfold GetStatusError in Ht. by rewrite Hpk in Ht. }
  apply tickStep_inv in H as (r & st & _ & _ & Hv). destruct v as [|ns|r'].
  - by destruct Hv as [-> _].
  - destruct Hv as (_ & ups' & Hups' & Hany' & _). congruence.
  - destruct Hv as (_ & _ & ups' & Hups' & Hany' & _). congruence.
Qed.

Lemma DoRun_waits ctx w b sched r :
  allPending w → selectPhase E w WorkflowPhases = Some (Some b) →
  (∀ s, s ∈ b → ∃ ups, UpstreamOf E w s = Some ups ∧ ups ≠ ∅) →
  DoRun E ctx sched w = Some r →
  runWorkflow r = w ∧ waitGroup r = [] ∧ signals r ≤ 1 ∧ finished r = false.
Proof.
  intros Hp Hsel Hwait Hrun.
  set (P := λ x : Run, runWorkflow x = w ∧ waitGroup x = [] ∧ signals x ≤ 1
                      ∧ finished x = false
                      ∧ ∀ l s, cursor x = Some l → s ∈ l → s ∈ b).
  assert (P r) as (? & ? & ? & ? & _); [|done].
  apply (foldM_invariant P (exec E ctx) sched (mkRun w 1 [] None false) r); [| |exact Hrun].
  2:{ unfold P; simpl. split; [done|]. split; [done|]. split; [lia|]. split; [done|]. done. }
  intros ev x y _ (Hw & Hwg & Hsig & Hfin & Hcur) Hex. unfold P.
  destruct ev as [| |i err]; simpl in Hex.
  - destruct (cursor x); [done|]. destruct (finished x); [done|].
    destruct (signals x) as [|n] eqn:Hn; [done|].
    rewrite Hw, Hsel in Hex. simpl in Hex. simplify_eq. simpl.
    split; [done|]. split; [done|]. split; [lia|]. split; [done|].
    intros l s Hl Hs. apply (rangeSet_elem b s).
    destruct (rangeSet E b); simpl in Hl; by simplify_eq.
  - destruct (cursor x) as [[|step l]|] eqn:Hc; [done| |done].
    destruct (tickStep E (runWorkflow x) ctx step) as [[w1 v]|] eqn:Hstep; simpl in Hex; [|done].
    rewrite Hw in Hstep.
    destruct (Hwait step) as (ups & Hups & Hne); [by apply (Hcur (step :: l)); [|left]|].
    destruct (tickStep_waits _ _ _ _ _ _ Hp Hups Hne Hstep) as [-> ->].
    simplify_eq. simpl. split; [done|]. split; [done|]. split; [done|]. split; [done|].
    intros l' s Hl Hs. apply (Hcur (step :: l)); [done|]. right.
    destruct l; simpl in Hl; by simplify_eq.
  - rewrite Hwg in Hex. done.
Qed.

Lemma scanStep_withRunning w b f s :
  scanStep E (withRunning w b, f) s
  = (λ a : Workflow * bool, (withRunning a.1 b, a.2)) <$> scanStep E (w, f) s.
Proof.
  unfold scanStep. cbn [fst snd]. change (state (withRunning w b)) with (state w).
  destruct (state w !! s) as [st|]; [|done]. cbn [mbind option_bind].
  case_decide; [done|]. rewrite UpstreamOf_withRunning.
  destruct (UpstreamOf E w s) as [ups|]; [|done]. cbn [mbind option_bind].
  by destruct (isAllUpstreamScanned ups).
Qed.

Lemma scanFold_withRunning b l : ∀ w f,
  foldM (scanStep E) (withRunning w b, f) l
  = (λ a : Workflow * bool, (withRunning a.1 b, a.2)) <$> foldM (scanStep E) (w, f) l.
Proof.
  induction l as [|s l IH]; intros w f; [done|]. simpl.
  rewrite scanStep_withRunning.
  destruct (scanStep E (w, f) s) as [[w1 f1]|]; [|done]. apply IH.
Qed.

Lemma scanLoop_withRunning b n : ∀ w,
  scanLoop E n (withRunning w b) = (λ x, withRunning x b) <$> scanLoop E n w.
Proof.
  induction n as [|n IH]; intros w; simpl; unfold scanPass;
    change (state (withRunning w b)) with (state w); rewrite scanFold_withRunning;
    destruct (foldM (scanStep E) (w, false) _) as [[w1 f1]|]; simpl; try done;
    destruct f1; try done; apply IH.
Qed.

Lemma preflight_withRunning w b :
  preflight E (withRunning w b)
  = (λ a : Workflow * option DoError, (withRunning a.1 b, a.2)) <$> preflight E w.
Proof.
  unfold preflight. change (unexpectStatusSteps (withRunning w b)) with (unexpectStatusSteps w).
  case_bool_decide; [done|]. change (state (withRunning w b)) with (state w).
  rewrite scanLoop_withRunning. destruct (scanLoop E _ w) as [w1|]; [|done]. simpl.
  change (stepsInCycle E (withRunning w1 b)) with (stepsInCycle E w1).
  destruct (stepsInCycle E w1) as [cyc|]; [|done]. simpl. by case_bool_decide.
Qed.

(** X20.  A phase whose steps all wait stalls the run.  When [preflight]
    accepts the workflow and the bucket that the first [tick] selects has
    only steps with an upstream, [Do] returns on no schedule of its
    goroutines: the tick skips every step, so that at every point the run
    reaches nothing is written, no goroutine is in flight, and [tick] has
    not returned true; the coordinator waits for a signal that never
    comes. *)
Theorem Do_stalls_when_every_step_waits ctx sched w b :
  isRunning w = false → preflight E w = Some (w, None) →
  selectPhase E w WorkflowPhases = Some (Some b) →
  (∀ s, s ∈ b → ∃ ups, UpstreamOf E w s = Some ups ∧ ups ≠ ∅) →
  Do E ctx sched w = None
  ∧ ∀ r, DoRun E ctx sched (withRunning w true) = Some r →
      runWorkflow r = withRunning w true ∧ waitGroup r = [] ∧ signals r ≤ 1
      ∧ finished r = false.
Proof.
  intros Hrun Hp Hsel Hwait.
  destruct (preflight_writes _ _ _ Hp) as (_ & _ & Hpend).
  destruct (Hpend eq_refl) as [Hpw _].
  assert (∀ r, DoRun E ctx sched (withRunning w true) = Some r →
            runWorkflow r = withRunning w true ∧ waitGroup r = [] ∧ signals r ≤ 1
            ∧ finished r = false) as Hstall.
  { intros r Hr. apply (DoRun_waits ctx _ b sched r); [done| | |done].
    - by rewrite selectPhase_withRunning.
    - intros s Hs. rewrite UpstreamOf_withRunning. by apply Hwait. }
  split; [|done]. unfold Do. rewrite Hrun.
  change (empty (withRunning w true)) with (empty w).
  rewrite (selectPhase_nonempty _ _ _ Hsel), preflight_withRunning, Hp. simpl.
  destruct (DoRun E ctx sched (withRunning w true)) as [r|] eqn:Hr; [|done]. simpl.
  destruct (Hstall r eq_refl) as (_ & _ & _ & ->). done.
Qed.

(** ** The phases of a workflow whose buckets hold roots only *)

(** In a workflow whose buckets hold roots only, [tick] keeps the order of
    the phases: a status it writes is that of a root step [s] of the phase
    [PhaseOf(s)], and every member of the bucket of every earlier phase
    has a terminal status. *)
Lemma tick_keeps_phase_order_of_roots w ctx t fin r :
  rootsOnly w → tick E w ctx = Some (t, fin) →
  statusAt (tickWorkflow t) r ≠ statusAt w r →
  ∃ s, r = RootState s ∧ tree w !! s = Some s ∧ statusAt w r = Some Pending
    ∧ PhaseOf w s ∈ WorkflowPhases
    ∧ ∀ p bp x, phaseBefore p (PhaseOf w s) → steps w !! p = Some bp → x ∈ bp →
        ∃ st, stateAt E w x = Some st ∧ StatusIsTerminated (GetStatus st) = true.
Proof.
  intros [_ Hroots] Htick Hne.
  destruct (tick_dispatches_earliest_unfinished_phase _ _ _ _ _ Htick Hne)
    as (q & b & s & Hsel & Hq & Hb & _ & Hbefore & Hs & Hst & Hp & _ & Hphase).
  pose proof (Hroots q b s Hb Hs) as Hroot.
  pose proof (selectPhase_nonempty _ _ _ Hsel) as He.
  exists s. rewrite (Hphase Hroot). rewrite (StateOf_root _ _ He Hroot) in Hst.
  destruct (state w !! s); simpl in Hst; [|done]. simplify_eq.
  split; [done|]. split; [done|]. split; [done|]. split; [done|].
  intros p bp x Hpq Hbp Hx. destruct (Hbefore p Hpq) as [_ Hall]. by eapply Hall.
Qed.

End Facts.

(** ** The examples, evaluated *)

Lemma E0_ok : rangeOk E0.
Proof. split; intros; reflexivity. Qed.

Lemma E1_ok : rangeOk E1.
Proof. split; intros; reflexivity. Qed.

Example exCycle_statuses :
  statuses exCycle = [(3, Pending); (2, Pending); (1, Pending)]%positive.
Proof. vm_compute. reflexivity. Qed.

Example exDag_upstreams :
  (dom <$> UpstreamOf E0 exDag 1, dom <$> UpstreamOf E0 exDag 3,
   dom <$> DownstreamOf E0 exDag 4, dom <$> DownstreamOf E0 exDag 2)%positive
  = (Some {[2; 3]}, Some {[4]}, Some {[3]}, Some {[1]})%positive.
Proof. vm_compute. reflexivity. Qed.

Example exTwo_then_composite :
  (λ w', (buckets w', map_to_list (tree w'), statuses w'))
    <$> addStep E3 exTwo PhaseMain 10 (Some (dependsOn [21%positive]))
  = Some ([(PhaseMain, [21; 10; 20])],
          [(11, 10); (21, 20); (10, 10); (20, 20)],
          [(10, Pending); (20, Pending)])%positive.
Proof. vm_compute. reflexivity. Qed.

Example exInner_then_composite_on_itself :
  (λ w', (buckets w', map_to_list (tree w'), statuses w'))
    <$> addStep E1 exInner PhaseMain 10 (Some (dependsOn [11%positive]))
  = Some ([(PhaseMain, [11; 10; 1])],
          [(11, 10); (10, 10); (1, 1)],
          [(10, Pending); (1, Pending)])%positive.
Proof. vm_compute. reflexivity. Qed.

(** ** The theorems at the examples *)

(** The first tick of [exDag] starts the steps [2] and [4], the two that
    have no upstream. *)
Example exDag_first_tick :
  (λ t, ((tickLaunched t.1).*1, statuses (tickWorkflow t.1), t.2)) <$> tick E0 exDag ctx0
  = Some ([4; 2], [(3, Pending); (4, Running); (2, Running); (1, Pending)], false)%positive.
Proof. vm_compute. reflexivity. Qed.

Lemma tick_starts_only_ready_steps_exDag :
  tick E0 exDag ctx0 = Some (ticked E0 exDag, false)
  ∧ (∀ s r, (s, r) ∈ tickLaunched (ticked E0 exDag) →
       ∃ b l1 l2 ti ups,
         selectPhase E0 exDag WorkflowPhases = Some (Some b) ∧
         rangeSet E0 b = l1 ++ s :: l2 ∧
         tickLoop E0 exDag ctx0 l1 = Some ti ∧
         StateOf E0 (tickWorkflow ti) s = Some r ∧
         statusAt (tickWorkflow ti) r = Some Pending ∧
         UpstreamOf E0 (tickWorkflow ti) s = Some ups ∧
         allTerminal ups ∧
         statusAt (tickWorkflow (ticked E0 exDag)) r = Some Running)
  ∧ (∀ r, statusAt (tickWorkflow (ticked E0 exDag)) r = Some Running →
       statusAt exDag r = Some Running ∨ ∃ s, (s, r) ∈ tickLaunched (ticked E0 exDag))
  ∧ (∀ wi s ups w' v,
       tickStep E0 wi ctx0 s = Some (w', v) → UpstreamOf E0 wi s = Some ups →
       ¬ allTerminal ups → w' = wi ∧ v = VisitSkip).
Proof.
  split; [vm_compute; reflexivity|].
  apply (tick_starts_only_ready_steps E0 exDag ctx0 (ticked E0 exDag) false).
  vm_compute; reflexivity.
Defined.

Lemma tick_dispatches_earliest_unfinished_phase_exDag :
  tick E0 exDag ctx0 = Some (ticked E0 exDag, false)
  ∧ statusAt (tickWorkflow (ticked E0 exDag)) (RootState 4) ≠ statusAt exDag (RootState 4)
  ∧ ∃ q b s,
      selectPhase E0 exDag WorkflowPhases = Some (Some b) ∧
      q ∈ WorkflowPhases ∧ steps exDag !! q = Some b ∧
      IsPhaseTerminated E0 exDag q = Some false ∧
      (∀ p, phaseBefore p q →
         IsPhaseTerminated E0 exDag p = Some true ∧
         ∀ bp x, steps exDag !! p = Some bp → x ∈ bp →
           ∃ st, stateAt E0 exDag x = Some st ∧ StatusIsTerminated (GetStatus st) = true) ∧
      s ∈ b ∧ StateOf E0 exDag s = Some (RootState 4) ∧
      statusAt exDag (RootState 4) = Some Pending ∧
      firstPhase exDag s = Some q ∧
      (tree exDag !! s = Some s → PhaseOf exDag s = q).
Proof.
  assert (statusAt (tickWorkflow (ticked E0 exDag)) (RootState 4)
          ≠ statusAt exDag (RootState 4)) as Hne.
  { vm_compute. discriminate. }
  split; [vm_compute; reflexivity|]. split; [exact Hne|].
  apply (tick_dispatches_earliest_unfinished_phase E0 E0_ok exDag ctx0
           (ticked E0 exDag) false (RootState 4)); [vm_compute; reflexivity|exact Hne].
Defined.

Lemma Do_on_empty_workflow_new :
  empty newWorkflow = true ∧ isRunning newWorkflow = false
  ∧ DoTimes E0 ctx0 [[]; [EvTick]] newWorkflow
    = Some (newWorkflow, replicate (length [[]; [EvTick]]) None)
  ∧ ∀ sched, Do E0 ctx0 sched newWorkflow = Some (newWorkflow, None).
Proof.
  split; [reflexivity|]. split; [reflexivity|].
  apply (Do_on_empty_workflow E0 ctx0 [[]; [EvTick]] newWorkflow); reflexivity.
Defined.

Lemma panic_recovered_iff_DontPanic_boom :
  panicsAt E2 exDontPanic 1 newState ctx0 InDo (PanicOther "boom")
  ∧ (DontPanic exDontPanic = true ↔
       (makeDoForStep E2 exDontPanic 1 newState ctx0).2
       = Returns (Some (panicError InDo (PanicOther "boom"))))
  ∧ (DontPanic exDontPanic = false ↔
       (makeDoForStep E2 exDontPanic 1 newState ctx0).2 = Panics (PanicOther "boom"))
  ∧ catchPanicAsError (Panics (PanicOther "boom"))
    = Returns (Some (ErrPanic (recovered (PanicOther "boom")))).
Proof.
  assert (panicsAt E2 exDontPanic 1 newState ctx0 InDo (PanicOther "boom")) as H.
  { split; reflexivity. }
  split; [exact H|].
  apply (panic_recovered_iff_DontPanic E2 exDontPanic 1 newState ctx0 InDo
           (PanicOther "boom") H).
Defined.

Lemma upstream_downstream_inverse_on_roots_exDag :
  tree exDag !! 4%positive = Some 4%positive
  ∧ tree exDag !! 3%positive = Some 3%positive
  ∧ UpstreamOf E0 exDag 3 = Some {[4%positive := mkStatusError Pending None]}
  ∧ DownstreamOf E0 exDag 4 = Some {[3%positive := mkStatusError Pending None]}
  ∧ (is_Some (({[4%positive := mkStatusError Pending None]} : gmap positive StatusError) !! 4%positive)
     ↔ is_Some (({[3%positive := mkStatusError Pending None]} : gmap positive StatusError) !! 3%positive))
  ∧ (∀ k, is_Some (({[4%positive := mkStatusError Pending None]} : gmap positive StatusError) !! k) →
       tree exDag !! k = Some k).
Proof.
  split; [vm_compute; reflexivity|]. split; [vm_compute; reflexivity|].
  split; [vm_compute; reflexivity|]. split; [vm_compute; reflexivity|].
  apply (upstream_downstream_inverse_on_roots E0 E0_ok exDag 4 3); vm_compute; reflexivity.
Defined.

Lemma exCycle_allPending : allPending exCycle.
Proof.
  change (map_Forall (λ _ st, GetStatus st = Pending) (state exCycle)).
  apply (bool_decide_unpack _). vm_compute. exact I.
Qed.

Lemma exCycle_upstreamsDefined : upstreamsDefined E0 exCycle.
Proof.
  intros s [st Hst]. revert s st Hst.
  change (map_Forall (λ s _, is_Some (UpstreamOf E0 exCycle s)) (state exCycle)).
  apply (bool_decide_unpack _). vm_compute. exact I.
Qed.

Lemma exCycle_hasCycle : hasCycle E0 exCycle [2; 3]%positive.
Proof.
  split; [done|]. intros [|[|i]] s Hi; simplify_eq/=.
  - split; [by eexists; vm_compute|].
    exists 3%positive, {[3%positive := mkStatusError Pending None]}.
    split; [done|]. split; [vm_compute; reflexivity|]. by eexists; vm_compute.
  - split; [by eexists; vm_compute|].
    exists 2%positive, {[2%positive := mkStatusError Pending None]}.
    split; [done|]. split; [vm_compute; reflexivity|]. by eexists; vm_compute.
Qed.

Lemma Do_rejects_cycle_exCycle :
  isRunning exCycle = false ∧ allPending exCycle ∧ upstreamsDefined E0 exCycle
  ∧ hasCycle E0 exCycle [2; 3]%positive
  ∧ ∃ w1 m,
      Do E0 ctx0 schedOne exCycle = Some (w1, Some (ErrCycleDependency m)) ∧
      (∀ s, s ∈ [2; 3]%positive → is_Some (m !! s)) ∧
      (∀ s, is_Some (m !! s) ↔ s ∈ unscanned w1) ∧
      (∀ s l, m !! s = Some l →
         ∃ ups, UpstreamOf E0 w1 s = Some ups ∧
           ∀ u, u ∈ l ↔ ∃ se, ups !! u = Some se ∧ Status se ≠ scanned) ∧
      sameShape exCycle w1 ∧ inner w1 = inner exCycle ∧ isRunning w1 = false ∧
      (∀ s st, state w1 !! s = Some st → GetStatus st = Pending ∨ GetStatus st = scanned).
Proof.
  split; [reflexivity|]. split; [exact exCycle_allPending|].
  split; [exact exCycle_upstreamsDefined|]. split; [exact exCycle_hasCycle|].
  apply (Do_rejects_cycle E0 E0_ok ctx0 schedOne exCycle [2; 3]%positive);
    [reflexivity|exact exCycle_allPending|exact exCycle_upstreamsDefined|exact exCycle_hasCycle].
Defined.

Lemma status_only_advances_exOne :
  DoRun E0 ctx0 ([EvTick; EvVisit] ++ [EvDone 0 None; EvTick]) exOne = Some exOneDone
  ∧ preflight E0 exCycle
    = Some (exCycleAfter, Some (ErrCycleDependency {[2 := [3]; 3 := [2]]}%positive))
  ∧ (∃ r1, DoRun E0 ctx0 [EvTick; EvVisit] exOne = Some r1 ∧
       ∀ s a, statusAt (runWorkflow r1) (RootState s) = Some a →
         ∃ b, statusAt (runWorkflow exOneDone) (RootState s) = Some b ∧ advances a b ∧
              (StatusIsTerminated a = true → b = a))
  ∧ (∀ ref a, statusAt exCycle ref = Some a → StatusIsTerminated a = true →
       statusAt exCycleAfter ref = Some a)
  ∧ (∀ ref, statusAt exCycleAfter ref ≠ statusAt exCycle ref →
       statusAt exCycle ref = Some Pending ∧ statusAt exCycleAfter ref = Some scanned)
  ∧ (Some (ErrCycleDependency {[2 := [3]; 3 := [2]]}%positive) = None →
       allPending exCycle ∧ allPending exCycleAfter).
Proof.
  split; [vm_compute; reflexivity|]. split; [vm_compute; reflexivity|].
  apply (status_only_advances E0 ctx0 exOne [EvTick; EvVisit] [EvDone 0 None; EvTick]
           exOneDone exCycle exCycleAfter
           (Some (ErrCycleDependency {[2 := [3]; 3 := [2]]}%positive)));
    vm_compute; reflexivity.
Defined.

(** While [preflight] runs on [exOne], the status of the step [1] is
    [scanned], which is not on the way from [Pending] to a terminal status;
    the reset then writes [Pending] over it. *)
Lemma preflight_marks_then_resets :
  scanLoop E0 (size (state exOne)) exOne = Some (mark exOne 1)
  ∧ statusAt exOne (RootState 1) = Some Pending
  ∧ statusAt (mark exOne 1) (RootState 1) = Some scanned
  ∧ ¬ advances Pending scanned
  ∧ preflight E0 exOne = Some (resetPending (mark exOne 1), None)
  ∧ statusAt (resetPending (mark exOne 1)) (RootState 1) = Some Pending
  ∧ ¬ advances scanned Pending.
Proof.
  split; [vm_compute; reflexivity|]. split; [vm_compute; reflexivity|].
  split; [vm_compute; reflexivity|].
  split; [intros [?|[[_ [?|?]]|[? _]]]; discriminate|].
  split; [vm_compute; reflexivity|]. split; [vm_compute; reflexivity|].
  intros [?|[[? _]|[? _]]]; discriminate.
Qed.

(** C5.  The one step of [exOne] runs and [Do] returns nil.  Every later
    call of [Do] on the workflow finds the status [Succeeded] in preflight
    and returns [ErrUnexpectStepInitStatus]; no call of [Do], on any
    workflow, returns [ErrWorkflowHasRun].  A call on a workflow that is
    running returns [ErrWorkflowIsRunning]. *)
Theorem Do_again_after_exOne_ran :
  Do E0 ctx0 schedOne exOne = Some (exOneAfter, None)
  ∧ statuses exOneAfter = [(1%positive, Succeeded)]
  ∧ (∀ ctx sched,
       Do E0 ctx sched exOneAfter
       = Some (exOneAfter, Some (ErrUnexpectStepInitStatus {[1%positive := Succeeded]})))
  ∧ (∀ ctx sched w w' e, Do E0 ctx sched w = Some (w', e) → e ≠ Some ErrWorkflowHasRun)
  ∧ (∀ ctx sched w, isRunning w = true →
       Do E0 ctx sched w = Some (w, Some ErrWorkflowIsRunning)).
Proof.
  split; [vm_compute; reflexivity|]. split; [vm_compute; reflexivity|].
  split; [|split; [intros; by eapply Do_never_has_run|intros; by apply Do_while_running]].
  intros ctx sched.
  assert (¬ allPending exOneAfter) as H.
  { change (¬ map_Forall (λ _ st, GetStatus st = Pending) (state exOneAfter)).
    apply (bool_decide_unpack _). vm_compute. exact I. }
  pose proof (Do_after_run E0 ctx sched exOneAfter
                ltac:(vm_compute; reflexivity) ltac:(vm_compute; reflexivity) H) as ->.
  vm_compute. reflexivity.
Qed.

(** C9.  [preflight] on [exCycle] scans the step [1], finds the cycle of
    [2] and [3] and returns the [ErrCycleDependency] at once: the status of
    [1] stays [scanned].  So does [Do], and the next call of [Do] reports
    the mark as an unexpected initial status. *)
Theorem preflight_on_exCycle_leaves_scanned :
  preflight E0 exCycle
  = Some (exCycleAfter, Some (ErrCycleDependency {[2 := [3]; 3 := [2]]}%positive))
  ∧ statuses exCycle = [(3, Pending); (2, Pending); (1, Pending)]%positive
  ∧ statuses exCycleAfter = [(3, Pending); (2, Pending); (1, scanned)]%positive
  ∧ (∀ ctx sched,
       Do E0 ctx sched exCycle
       = Some (exCycleAfter, Some (ErrCycleDependency {[2 := [3]; 3 := [2]]}%positive)))
  ∧ (∀ ctx sched,
       Do E0 ctx sched exCycleAfter
       = Some (exCycleAfter, Some (ErrUnexpectStepInitStatus {[1%positive := scanned]}))).
Proof.
  split; [vm_compute; reflexivity|]. split; [vm_compute; reflexivity|].
  split; [vm_compute; reflexivity|]. split.
  - intros ctx sched. vm_compute. reflexivity.
  - intros ctx sched.
    assert (¬ allPending exCycleAfter) as H.
    { change (¬ map_Forall (λ _ st, GetStatus st = Pending) (state exCycleAfter)).
      apply (bool_decide_unpack _). vm_compute. exact I. }
    pose proof (Do_after_run E0 ctx sched exCycleAfter
                  ltac:(vm_compute; reflexivity) ltac:(vm_compute; reflexivity) H) as ->.
    vm_compute. reflexivity.
Qed.

(** In [exNested] the step [11] is inside the composite [10], which
    depends on [1]: [1] is an upstream of [11], and [11] is not a
    downstream of [1]. *)
Lemma nested_step_not_a_downstream :
  is_Some (tree exNested !! 11%positive) ∧ is_Some (tree exNested !! 1%positive)
  ∧ RootOf exNested 11 = Some 10%positive
  ∧ UpstreamOf E1 exNested 11 = Some {[1%positive := mkStatusError Pending None]}
  ∧ DownstreamOf E1 exNested 1 = Some {[10%positive := mkStatusError Pending None]}
  ∧ is_Some (({[1%positive := mkStatusError Pending None]} : gmap positive StatusError)
             !! 1%positive)
  ∧ ¬ is_Some (({[10%positive := mkStatusError Pending None]} : gmap positive StatusError)
               !! 11%positive)
  ∧ DownstreamOf E1 exNested 11 = Some ∅.
Proof.
  split; [by eexists; vm_compute|]. split; [by eexists; vm_compute|].
  split; [vm_compute; reflexivity|]. split; [vm_compute; reflexivity|].
  split; [vm_compute; reflexivity|]. split; [by eexists; vm_compute|].
  split; [|vm_compute; reflexivity]. intros [x Hx]. vm_compute in Hx. discriminate.
Qed.

Lemma exInner_rootsOnly : rootsOnly exInner.
Proof.
  apply rootsOnly_checked; [vm_compute; reflexivity|].
  apply (bool_decide_unpack _). vm_compute. exact I.
Qed.

Lemma E1_exposesTree : exposesTree 10 (nest E1 10).
Proof.
  split; [apply (bool_decide_unpack _); vm_compute; exact I|].
  split; [apply (bool_decide_unpack _); vm_compute; exact I|].
  intros [|i] d c Hi; [|done]. vm_compute in Hi. left. congruence.
Qed.

Lemma exInner_outerRoot up :
  up ∈ Upstreams (dependsOn [1%positive]) → outerRoot E1 exInner 10 up.
Proof.
  intros Hup. assert (up = 1%positive) as -> by set_solver.
  split; [vm_compute; reflexivity|].
  split; [apply (bool_decide_unpack _); vm_compute; exact I|]. intros f Hf. discriminate.
Qed.

Lemma addStep_composite_adopts_inner_step_exInner :
  rootsOnly exInner
  ∧ steps exInner !! PhaseMain = Some {[11; 1]}%positive
  ∧ tree exInner !! 10%positive = None
  ∧ exposesTree 10 (nest E1 10)
  ∧ 11%positive ∈ (nest E1 10).*1
  ∧ state exInner !! 11%positive = Some exInnerState
  ∧ (∀ up, up ∈ Upstreams (dependsOn [1%positive]) → outerRoot E1 exInner 10 up)
  ∧ ∃ w', addStep E1 exInner PhaseMain 10 (Some (dependsOn [1%positive])) = Some w'
          ∧ adopted exInner PhaseMain 10 11 exInnerState w'.
Proof.
  assert (11%positive ∈ (nest E1 10).*1) as Hin.
  { apply (bool_decide_unpack _). vm_compute. exact I. }
  split; [exact exInner_rootsOnly|]. split; [vm_compute; reflexivity|].
  split; [vm_compute; reflexivity|]. split; [exact E1_exposesTree|].
  split; [exact Hin|]. split; [vm_compute; reflexivity|]. split; [exact exInner_outerRoot|].
  apply (addStep_composite_adopts_inner_step E1 E1_ok exInner PhaseMain {[11; 1]}%positive
           10 11 exInnerState (dependsOn [1%positive]));
    [exact exInner_rootsOnly|vm_compute; reflexivity|vm_compute; reflexivity
    |exact E1_exposesTree|exact Hin|vm_compute; reflexivity|exact exInner_outerRoot].
Defined.

(** C8.  In [exTwo] the composite [20] (it exposes [21]) and the step
    [11] are added.  Adding the composite [10], which exposes [11] and
    depends on [21], adopts [11]: its root is [10].  But [setUpstream]
    adds the upstream [21] itself to the bucket of the phase, and [21] is
    inside [20]: a member of a bucket that is no root of the Step Tree. *)
Theorem composite_upstream_enters_bucket :
  ∃ w' b,
    is_Some (state exTwo !! 11%positive)
    ∧ addStep E3 exTwo PhaseMain 10 (Some (dependsOn [21%positive])) = Some w'
    ∧ RootOf w' 11 = Some 10%positive
    ∧ steps w' !! PhaseMain = Some b
    ∧ 21%positive ∈ b
    ∧ tree w' !! 21%positive = Some 20%positive
    ∧ ¬ rootsOnly w'.
Proof.
  destruct (addStep E3 exTwo PhaseMain 10 (Some (dependsOn [21%positive]))) as [w'|] eqn:Hw;
    [|vm_compute in Hw; discriminate].
  assert (steps w' !! PhaseMain = Some {[21; 10; 20]}%positive) as Hb.
  { vm_compute in Hw. injection Hw as <-. vm_compute. reflexivity. }
  assert (tree w' !! 21%positive = Some 20%positive) as Ht.
  { vm_compute in Hw. injection Hw as <-. vm_compute. reflexivity. }
  exists w', {[21; 10; 20]}%positive.
  split; [by eexists; vm_compute|]. split; [done|].
  split; [vm_compute in Hw; injection Hw as <-; vm_compute; reflexivity|].
  split; [done|]. split; [set_solver|]. split; [done|].
  intros [_ Hroots]. specialize (Hroots PhaseMain _ 21%positive Hb ltac:(set_solver)).
  rewrite Ht in Hroots. discriminate.
Qed.

(** C2.  In [exPhases] the composite [10] is a step of the Main phase and
    [5] a step of the Init phase that depends on [11], a step inside [10].
    [setUpstream] has put [11] itself in the Init bucket, so the first
    tick, which dispatches the Init phase, finds [11] there with the state
    of its root: it starts a goroutine on the state of the Main step [10]
    and sets it [Running], while the Init step [5] is [Pending]. *)
Theorem tick_starts_main_step_in_init_phase :
  buckets exPhases = [(PhaseMain, [10]); (PhaseInit, [11; 5])]%positive
  ∧ map_to_list (tree exPhases) = [(11, 10); (5, 5); (10, 10)]%positive
  ∧ PhaseOf exPhases 10 = PhaseMain ∧ PhaseOf exPhases 5 = PhaseInit
  ∧ statuses exPhases = [(5, Pending); (10, Pending)]%positive
  ∧ preflight E1 exPhases = Some (exPhases, None)
  ∧ selectPhase E1 exPhases WorkflowPhases = Some (steps exPhases !! PhaseInit)
  ∧ StateOf E1 exPhases 11 = Some (RootState 10)
  ∧ tick E1 exPhases ctx0 = Some (ticked E1 exPhases, false)
  ∧ tickLaunched (ticked E1 exPhases) = [(11%positive, RootState 10)]
  ∧ statuses (tickWorkflow (ticked E1 exPhases)) = [(5, Pending); (10, Running)]%positive
  ∧ (λ r, (statuses (runWorkflow r), waitGroup r))
      <$> DoRun E1 ctx0 [EvTick; EvVisit; EvVisit] exPhases
    = Some ([(5, Pending); (10, Running)]%positive, [(11%positive, RootState 10)])
  ∧ ¬ rootsOnly exPhases.
Proof.
  split; [vm_compute; reflexivity|]. split; [vm_compute; reflexivity|].
  split; [vm_compute; reflexivity|]. split; [vm_compute; reflexivity|].
  split; [vm_compute; reflexivity|]. split; [vm_compute; reflexivity|].
  split; [vm_compute; reflexivity|]. split; [vm_compute; reflexivity|].
  split; [vm_compute; reflexivity|]. split; [vm_compute; reflexivity|].
  split; [vm_compute; reflexivity|]. split; [vm_compute; reflexivity|].
  intros [_ Hroots].
  assert (steps exPhases !! PhaseInit = Some {[11; 5]}%positive) as Hb
    by (vm_compute; reflexivity).
  specialize (Hroots PhaseInit _ 11%positive Hb ltac:(set_solver)).
  vm_compute in Hroots. discriminate.
Qed.

Lemma exRanThenCycle_hasCycle : hasCycle E0 exRanThenCycle [2; 3]%positive.
Proof.
  split; [done|]. intros [|[|i]] s Hi; simplify_eq/=.
  - split; [by eexists; vm_compute|].
    exists 3%positive, {[3%positive := mkStatusError Pending None]}.
    split; [done|]. split; [vm_compute; reflexivity|]. by eexists; vm_compute.
  - split; [by eexists; vm_compute|].
    exists 2%positive, {[2%positive := mkStatusError Pending None]}.
    split; [done|]. split; [vm_compute; reflexivity|]. by eexists; vm_compute.
Qed.

(** The workflow [exOne] has run, and two steps that depend on each other
    are added to it.  The upstream relation has a cycle, and every call of
    [Do] returns [ErrUnexpectStepInitStatus] for the step that has run:
    the first loop of [preflight] comes before the cycle detection.  No
    call returns [ErrCycleDependency]. *)
Lemma Do_checks_statuses_before_cycles :
  isRunning exRanThenCycle = false
  ∧ statuses exRanThenCycle = [(3, Pending); (2, Pending); (1, Succeeded)]%positive
  ∧ upstreamsDefined E0 exRanThenCycle
  ∧ hasCycle E0 exRanThenCycle [2; 3]%positive
  ∧ (∀ ctx sched,
       Do E0 ctx sched exRanThenCycle
       = Some (exRanThenCycle, Some (ErrUnexpectStepInitStatus {[1%positive := Succeeded]})))
  ∧ ¬ ∃ ctx sched w' m,
        Do E0 ctx sched exRanThenCycle = Some (w', Some (ErrCycleDependency m)).
Proof.
  assert (∀ ctx sched,
            Do E0 ctx sched exRanThenCycle
            = Some (exRanThenCycle,
                    Some (ErrUnexpectStepInitStatus {[1%positive := Succeeded]}))) as HDo.
  { intros ctx sched.
    assert (¬ allPending exRanThenCycle) as H.
    { change (¬ map_Forall (λ _ st, GetStatus st = Pending) (state exRanThenCycle)).
      apply (bool_decide_unpack _). vm_compute. exact I. }
    pose proof (Do_after_run E0 ctx sched exRanThenCycle
                  ltac:(vm_compute; reflexivity) ltac:(vm_compute; reflexivity) H) as ->.
    vm_compute. reflexivity. }
  split; [reflexivity|]. split; [vm_compute; reflexivity|].
  split.
  { intros s [st Hst]. revert s st Hst.
    change (map_Forall (λ s _, is_Some (UpstreamOf E0 exRanThenCycle s))
              (state exRanThenCycle)).
    apply (bool_decide_unpack _). vm_compute. exact I. }
  split; [exact exRanThenCycle_hasCycle|]. split; [exact HDo|].
  intros (ctx & sched & w' & m & H). rewrite HDo in H. discriminate.
Qed.

(** ** The further properties at the examples *)

Lemma E0_plain : plainEnv E0.
Proof. intros s. split; reflexivity. Qed.

Lemma exOne_built : built exOne.
Proof.
  destruct (PhaseAdd_plain E0 E0_ok newWorkflow PhaseMain [StepDependsOn 1 []]
              E0_plain (built_newWorkflow) ltac:(set_solver)) as (w' & Hadd & Hw').
  unfold exOne, build, Add. by rewrite Hadd.
Qed.

Lemma exDag_allPending : allPending exDag.
Proof.
  change (map_Forall (λ _ st, GetStatus st = Pending) (state exDag)).
  apply (bool_decide_unpack _). vm_compute. exact I.
Qed.

Lemma exDag_upstreamsDefined : upstreamsDefined E0 exDag.
Proof.
  intros s [st Hst]. revert s st Hst.
  change (map_Forall (λ s _, is_Some (UpstreamOf E0 exDag s)) (state exDag)).
  apply (bool_decide_unpack _). vm_compute. exact I.
Qed.

Lemma exDag_ranked : ranked E0 exDag rankDag.
Proof.
  assert (map_Forall (λ s _,
            bool_decide (map_Forall (λ u (_ : StatusError), rankDag u < rankDag s)
                           (default ∅ (UpstreamOf E0 exDag s))) = true) (state exDag)) as H.
  { apply (bool_decide_unpack _). vm_compute. exact I. }
  intros s ups u [st Hst] Hups [se Hu].
  pose proof (H s st Hst) as Hs. simpl in Hs. apply bool_decide_eq_true in Hs.
  rewrite Hups in Hs. exact (Hs u se Hu).
Qed.

Lemma preflight_reports_unexpected_status_exOneAfter :
  state exOneAfter !! 1%positive = Some (default newState (state exOneAfter !! 1%positive))
  ∧ GetStatus (default newState (state exOneAfter !! 1%positive)) = Succeeded
  ∧ ∃ m, preflight E0 exOneAfter = Some (exOneAfter, Some (ErrUnexpectStepInitStatus m)) ∧
      ∀ k ss, m !! k = Some ss ↔
        ∃ sk, state exOneAfter !! k = Some sk ∧ GetStatus sk = ss ∧ ss ≠ Pending.
Proof.
  split; [vm_compute; reflexivity|]. split; [vm_compute; reflexivity|].
  apply (preflight_reports_unexpected_status E0 exOneAfter 1
           (default newState (state exOneAfter !! 1%positive)));
    [vm_compute; reflexivity|vm_compute; discriminate].
Defined.

Lemma preflight_nil_leaves_workflow_exDag :
  preflight E0 exDag = Some (exDag, None)
  ∧ exDag = exDag ∧ allPending exDag ∧ ∀ c, ¬ hasCycle E0 exDag c.
Proof.
  split; [vm_compute; reflexivity|].
  apply (preflight_nil_leaves_workflow E0 E0_ok exDag exDag). vm_compute; reflexivity.
Defined.

Lemma preflight_accepts_ranked_exDag :
  allPending exDag ∧ upstreamsDefined E0 exDag ∧ ranked E0 exDag rankDag
  ∧ preflight E0 exDag = Some (exDag, None).
Proof.
  split; [exact exDag_allPending|]. split; [exact exDag_upstreamsDefined|].
  split; [exact exDag_ranked|].
  apply (preflight_accepts_ranked E0 E0_ok exDag rankDag);
    [exact exDag_allPending|exact exDag_upstreamsDefined|exact exDag_ranked].
Defined.

Lemma tick_done_iff_terminated_exOneAfter :
  tick E0 exOneAfter ctx0 = Some (ticked E0 exOneAfter, true)
  ∧ IsTerminated E0 exOneAfter = Some true
  ∧ (true = true → ticked E0 exOneAfter = mkTicked exOneAfter 0 []).
Proof.
  split; [vm_compute; reflexivity|].
  apply (tick_done_iff_terminated E0 E0_ok exOneAfter ctx0 (ticked E0 exOneAfter) true).
  vm_compute; reflexivity.
Defined.

Lemma Do_writes_statuses_only_exOne :
  Do E0 ctx0 schedFail exOne
  = Some (exOneFailed,
          Some (ErrWorkflow {[1%positive := mkStatusError Failed (Some (UserError "failed"))]}))
  ∧ tree exOneFailed = tree exOne ∧ steps exOneFailed = steps exOne
  ∧ (∀ s, Config <$> state exOneFailed !! s = Config <$> state exOne !! s)
  ∧ (∀ l, Config <$> inner exOneFailed !! l = Config <$> inner exOne !! l)
  ∧ isRunning exOneFailed = isRunning exOne ∧ leaseBucket exOneFailed = leaseBucket exOne
  ∧ notify exOneFailed = notify exOne ∧ DontPanic exOneFailed = DontPanic exOne.
Proof.
  split; [vm_compute; reflexivity|].
  apply (Do_writes_statuses_only E0 ctx0 schedFail exOne exOneFailed
           (Some (ErrWorkflow
                    {[1%positive := mkStatusError Failed (Some (UserError "failed"))]}))).
  vm_compute; reflexivity.
Defined.

(** With one lease, the tick of [exLeased] starts the step [4] and cannot
    go on to the step [2] before [4] has ended. *)
Lemma lease_bounds_running_exLeased :
  leaseBucket exLeased = Some 1
  ∧ DoRun E0 ctx0 [EvTick; EvVisit; EvVisit] exLeased = Some exLeasedRun
  ∧ DoRun E0 ctx0 [EvTick; EvVisit; EvVisit; EvVisit] exLeased = None
  ∧ length (waitGroup exLeasedRun) ≤ 1.
Proof.
  split; [reflexivity|]. split; [vm_compute; reflexivity|]. split; [vm_compute; reflexivity|].
  apply (lease_bounds_running E0 ctx0 [EvTick; EvVisit; EvVisit] exLeased exLeasedRun 1);
    [reflexivity|vm_compute; reflexivity].
Defined.

Lemma Do_ends_terminated_exOne :
  Do E0 ctx0 schedFail exOne
  = Some (exOneFailed,
          Some (ErrWorkflow {[1%positive := mkStatusError Failed (Some (UserError "failed"))]}))
  ∧ IsTerminated E0 exOneFailed = Some true
  ∧ ∀ m, Some (ErrWorkflow {[1%positive := mkStatusError Failed (Some (UserError "failed"))]})
         = Some (ErrWorkflow m) →
      m = GetStatusError <$> state exOneFailed ∧ ∃ s se, m !! s = Some se ∧ Err se ≠ None.
Proof.
  split; [vm_compute; reflexivity|].
  apply (Do_ends_terminated E0 E0_ok ctx0 schedFail exOne exOneFailed
           (Some (ErrWorkflow
                    {[1%positive := mkStatusError Failed (Some (UserError "failed"))]})));
    [vm_compute; reflexivity|].
  right. eexists. reflexivity.
Defined.

Lemma signals_fit_channel_exOne :
  DoRun E0 ctx0 [EvTick; EvVisit] exOne = Some exOneRunning
  ∧ signals exOneRunning
    + (size (unfinishedRoots (runWorkflow exOneRunning))
       + size (unfinishedInner (runWorkflow exOneRunning)))
    ≤ size (state exOne) + size (inner exOne) + 1
  ∧ (inner exOne = ∅ → signals exOneRunning ≤ size (state exOne) + 1).
Proof.
  split; [vm_compute; reflexivity|].
  apply (signals_fit_channel E0 ctx0 [EvTick; EvVisit] exOne exOneRunning).
  vm_compute; reflexivity.
Defined.

Lemma queries_of_unregistered_step_exDag :
  tree exDag !! 7%positive = None
  ∧ StateOf E0 exDag 7 = None ∧ RootOf exDag 7 = None ∧ PhaseOf exDag 7 = PhaseUnknown
  ∧ UpstreamOf E0 exDag 7 = Some ∅.
Proof.
  split; [vm_compute; reflexivity|].
  apply (queries_of_unregistered_step E0 exDag 7). vm_compute; reflexivity.
Defined.

(** The step [11] that the composite [10] of [exNested] exposes. *)
Lemma queries_follow_root_exNested :
  RootOf exNested 11 = Some 10%positive ∧ tree exNested !! 11%positive = Some 10%positive
  ∧ RootOf exNested 10 = Some 10%positive
  ∧ PhaseOf exNested 11 = PhaseOf exNested 10
  ∧ UpstreamOf E1 exNested 11 = UpstreamOf E1 exNested 10
  ∧ (nestedStateOf E1 10 = None → StateOf E1 exNested 11 = StateOf E1 exNested 10).
Proof.
  split; [vm_compute; reflexivity|]. split; [vm_compute; reflexivity|].
  apply (queries_follow_root E1 exNested 11 10 10); vm_compute; reflexivity.
Defined.

Lemma UpstreamOf_entries_exDag :
  UpstreamOf E0 exDag 1
  = Some {[2%positive := mkStatusError Pending None; 3%positive := mkStatusError Pending None]}
  ∧ (({[2%positive := mkStatusError Pending None; 3%positive := mkStatusError Pending None]}
        : gmap positive StatusError) !! 2%positive = Some (mkStatusError Pending None)
     ↔ ∃ r st up stk,
         RootOf exDag 1 = Some r
         ∧ (∃ phase b, phase ∈ WorkflowPhases ∧ steps exDag !! phase = Some b ∧ r ∈ b)
         ∧ state exDag !! r = Some st ∧ up ∈ StateUpstreams st
         ∧ RootOf exDag up = Some 2%positive
         ∧ state exDag !! 2%positive = Some stk
         ∧ mkStatusError Pending None = GetStatusError stk).
Proof.
  split; [vm_compute; reflexivity|].
  apply (UpstreamOf_entries E0 E0_ok exDag 1
           {[2%positive := mkStatusError Pending None; 3%positive := mkStatusError Pending None]}
           2 (mkStatusError Pending None)).
  vm_compute; reflexivity.
Defined.

Lemma DownstreamOf_members_exDag :
  empty exDag = false
  ∧ DownstreamOf E0 exDag 4 = Some {[3%positive := mkStatusError Pending None]}
  ∧ (is_Some (({[3%positive := mkStatusError Pending None]} : gmap positive StatusError)
                !! 3%positive) ↔
     ∃ phase b st up, phase ∈ WorkflowPhases ∧ steps exDag !! phase = Some b ∧ 3%positive ∈ b ∧
       stateAt E0 exDag 3 = Some st ∧ up ∈ StateUpstreams st
       ∧ RootOf exDag up = tree exDag !! 4%positive)
  ∧ (∀ se, ({[3%positive := mkStatusError Pending None]} : gmap positive StatusError)
             !! 3%positive = Some se →
       ∃ st, stateAt E0 exDag 3 = Some st ∧ se = GetStatusError st).
Proof.
  split; [vm_compute; reflexivity|]. split; [vm_compute; reflexivity|].
  apply (DownstreamOf_members E0 E0_ok exDag 4 {[3%positive := mkStatusError Pending None]} 3);
    vm_compute; reflexivity.
Defined.


Lemma IsTerminated_iff_members_terminal_exOneAfter :
  empty exOneAfter = false
  ∧ (empty exOneAfter = true → IsTerminated E0 exOneAfter = Some true)
  ∧ (empty exOneAfter = false →
       IsTerminated E0 exOneAfter = Some true ↔
       ∀ phase b x, phase ∈ WorkflowPhases → steps exOneAfter !! phase = Some b → x ∈ b →
         ∃ st, stateAt E0 exOneAfter x = Some st ∧ StatusIsTerminated (GetStatus st) = true).
Proof.
  split; [vm_compute; reflexivity|].
  apply (IsTerminated_iff_members_terminal E0 E0_ok exOneAfter).
Defined.

(** The step of [E2] panics: both notifiers of [exNotified] are called,
    with the tagged context and a nil error, and the panic comes back as
    an error. *)
Lemma attempt_notifies_after_step_exNotified :
  makeDoForStep E2 exNotified 1 newState ctx0
  = ([mkAfterCall "first" (mkContext false ["seen"]) 1 None;
      mkAfterCall "second" (mkContext false ["seen"]) 1 None],
     Returns (Some (ErrPanic (UserError "boom"))))
  ∧ afterHook <$> (makeDoForStep E2 exNotified 1 newState ctx0).1
    = omap AfterStep (notify exNotified)
  ∧ (∀ c, c ∈ (makeDoForStep E2 exNotified 1 newState ctx0).1 →
       afterStep c = 1%positive ∧ afterCtx c = (notifyStep exNotified ctx0 1).1)
  ∧ (∀ v, runInput (Input (Config newState)) (notifyStep exNotified ctx0 1).1 = Returns None →
       stepDo E2 1 (notifyStep exNotified ctx0 1).1 = Panics v →
       ∀ c, c ∈ (makeDoForStep E2 exNotified 1 newState ctx0).1 → afterErr c = None)
  ∧ (∀ e, (makeDoForStep E2 exNotified 1 newState ctx0).2 = Returns e →
       (runInput (Input (Config newState)) (notifyStep exNotified ctx0 1).1 = Returns None →
        ∃ e', stepDo E2 1 (notifyStep exNotified ctx0 1).1 = Returns e') →
       ∀ c, c ∈ (makeDoForStep E2 exNotified 1 newState ctx0).1 → afterErr c = e)
  ∧ (DontPanic exNotified = true →
       ∃ e, (makeDoForStep E2 exNotified 1 newState ctx0).2 = Returns e).
Proof.
  split; [vm_compute; reflexivity|].
  apply (attempt_notifies_after_step E2 exNotified 1 newState ctx0).
Defined.

Lemma addStep_records_upstreams_exOne :
  plainEnv E0 ∧ built exOne ∧ PhaseMain ∈ WorkflowPhases
  ∧ steps exOne !! PhaseMain = Some {[1%positive]}
  ∧ ∃ w' st' ups,
      addStep E0 exOne PhaseMain 2 (Some (dependsOn [1; 3]%positive)) = Some w' ∧ built w'
      ∧ tree w' !! 2%positive = Some 2%positive
      ∧ steps w' !! PhaseMain
        = Some (Upstreams (dependsOn [1; 3]%positive) ∪ ({[2%positive]} ∪ {[1%positive]}))
      ∧ state w' !! 2%positive = Some st'
      ∧ StateUpstreams st'
        = Upstreams (dependsOn [1; 3]%positive)
          ∪ StateUpstreams (default newState (state exOne !! 2%positive))
      ∧ Input (Config st')
        = Input (Config (default newState (state exOne !! 2%positive)))
          ++ Input (dependsOn [1; 3]%positive)
      ∧ UpstreamOf E0 w' 2 = Some ups ∧ dom ups = StateUpstreams st'
      ∧ (∀ k se, ups !! k = Some se → Status se = Pending)
      ∧ (∀ s, s ≠ 2%positive → is_Some (state exOne !! s) → state w' !! s = state exOne !! s).
Proof.
  assert (PhaseMain ∈ WorkflowPhases) as Hin by (apply (bool_decide_unpack _); exact I).
  split; [exact E0_plain|]. split; [exact exOne_built|]. split; [exact Hin|].
  split; [vm_compute; reflexivity|].
  apply (addStep_records_upstreams E0 E0_ok exOne PhaseMain {[1%positive]} 2
           (dependsOn [1; 3]%positive) E0_plain exOne_built Hin).
  vm_compute; reflexivity.
Defined.

Lemma build_of_plain_steps_callsDag :
  plainEnv E0 ∧ (∀ call, call ∈ callsDag → call.1 ∈ WorkflowPhases)
  ∧ buildAll E0 newWorkflow callsDag = Some exDag
  ∧ ∃ w, buildAll E0 newWorkflow callsDag = Some w
      ∧ rootsOnly w ∧ allPending w ∧ upstreamsDefined E0 w
      ∧ (∀ s p, tree w !! s = Some p → p = s)
      ∧ is_Some (preflight E0 w).
Proof.
  assert (∀ call, call ∈ callsDag → call.1 ∈ WorkflowPhases) as Hcalls.
  { intros call Hc. apply list_elem_of_singleton in Hc as ->.
    apply (bool_decide_unpack _); exact I. }
  split; [exact E0_plain|]. split; [exact Hcalls|]. split; [vm_compute; reflexivity|].
  apply (build_of_plain_steps E0 E0_ok callsDag E0_plain Hcalls).
Defined.

Lemma addStep_again_changes_nothing_exOne :
  plainEnv E0 ∧ built exOne ∧ steps exOne !! PhaseMain = Some {[1%positive]}
  ∧ 1%positive ∈ ({[1%positive]} : gset positive)
  ∧ addStep E0 exOne PhaseMain 1 None = Some exOne.
Proof.
  assert (1%positive ∈ ({[1%positive]} : gset positive)) as Hin
    by (apply (bool_decide_unpack _); vm_compute; exact I).
  split; [exact E0_plain|]. split; [exact exOne_built|].
  split; [vm_compute; reflexivity|]. split; [exact Hin|].
  apply (addStep_again_changes_nothing E0 E0_ok exOne PhaseMain {[1%positive]} 1
           E0_plain exOne_built); [vm_compute; reflexivity|exact Hin].
Defined.

Lemma exDag_members_pending s st :
  s ∈ ({[1; 2; 3; 4]} : gset positive)%positive → stateAt E0 exDag s = Some st →
  GetStatus st = Pending ∨ StatusIsTerminated (GetStatus st) = true.
Proof.
  intros Hs Hst. left. set_unfold in Hs.
  destruct Hs as [[[->| ->]| ->]| ->]; vm_compute in Hst; by injection Hst as <-.
Qed.

Lemma exDag_members_closed s ups k se :
  s ∈ ({[1; 2; 3; 4]} : gset positive)%positive → UpstreamOf E0 exDag s = Some ups →
  ups !! k = Some se →
  StatusIsTerminated (Status se) = true ∨ k ∈ ({[1; 2; 3; 4]} : gset positive)%positive.
Proof.
  intros Hs Hups Hk. right.
  assert (is_Some (state exDag !! k)) as [stk Hstk].
  { destruct (UpstreamOf_key_root E0 E0_ok exDag s ups k se Hups Hk) as (stk & Hstk & _).
    by eexists. }
  apply (elem_of_dom_2 (D := gset positive)) in Hstk.
  assert (dom (state exDag) = ({[1; 2; 3; 4]} : gset positive)%positive) as <-; [|done].
  apply (bool_decide_unpack _). vm_compute. exact I.
Qed.

Lemma exDag_members_ranked s ups k :
  s ∈ ({[1; 2; 3; 4]} : gset positive)%positive → UpstreamOf E0 exDag s = Some ups →
  is_Some (ups !! k) → rankDag k < rankDag s.
Proof.
  intros Hs Hups Hk. apply (exDag_ranked s ups k); [|done|done].
  apply (elem_of_dom (D := gset positive)).
  assert (dom (state exDag) = ({[1; 2; 3; 4]} : gset positive)%positive) as ->; [|done].
  apply (bool_decide_unpack _). vm_compute. exact I.
Qed.

Lemma tick_makes_progress_exDag :
  selectPhase E0 exDag WorkflowPhases = Some (Some {[1; 2; 3; 4]}%positive)
  ∧ tick E0 exDag ctx0 = Some (ticked E0 exDag, false)
  ∧ (tickLaunched (ticked E0 exDag) ≠ [] ∨ 0 < tickSignals (ticked E0 exDag)).
Proof.
  split; [vm_compute; reflexivity|]. split; [vm_compute; reflexivity|].
  apply (tick_makes_progress E0 E0_ok exDag ctx0 (ticked E0 exDag)
           {[1; 2; 3; 4]}%positive rankDag);
    [vm_compute; reflexivity|vm_compute; reflexivity
    |exact exDag_members_pending|exact exDag_members_closed|exact exDag_members_ranked].
Defined.

(** [preflight] accepts [exStall], and its run stalls in the Init phase:
    the step [1] waits there for the step [2] of the Main phase. *)
Lemma Do_stalls_when_every_step_waits_exStall :
  buckets exStall = [(PhaseMain, [2; 1]); (PhaseInit, [1])]%positive
  ∧ isRunning exStall = false ∧ preflight E0 exStall = Some (exStall, None)
  ∧ selectPhase E0 exStall WorkflowPhases = Some (Some {[1%positive]})
  ∧ UpstreamOf E0 exStall 1 = Some {[2%positive := mkStatusError Pending None]}
  ∧ Do E0 ctx0 [EvTick; EvVisit] exStall = None
  ∧ ∀ r, DoRun E0 ctx0 [EvTick; EvVisit] (withRunning exStall true) = Some r →
      runWorkflow r = withRunning exStall true ∧ waitGroup r = [] ∧ signals r ≤ 1
      ∧ finished r = false.
Proof.
  split; [vm_compute; reflexivity|]. split; [reflexivity|].
  split; [vm_compute; reflexivity|]. split; [vm_compute; reflexivity|].
  split; [vm_compute; reflexivity|].
  apply (Do_stalls_when_every_step_waits E0 E0_ok ctx0 [EvTick; EvVisit] exStall
           {[1%positive]}); [reflexivity|vm_compute; reflexivity|vm_compute; reflexivity|].
  intros s Hs. apply elem_of_singleton in Hs as ->.
  exists {[2%positive := mkStatusError Pending None]}. split; [vm_compute; reflexivity|].
  intros H. apply (f_equal (λ m : gmap positive StatusError, m !! 2%positive)) in H.
  vm_compute in H. discriminate H.
Defined.
